(** * Financial market ETL: metrics calculator and data validator

    A shallow embedding of [transformers/metrics_calculator.py]
    ([MetricsCalculator.calculate]) and [validators/data_validator.py]
    ([DataValidator.validate]), and the properties of the specification
    that concern them.

    Modelling conventions.
    - A float64 is an extended rational: the IEEE special values [NaN],
      [+inf], [-inf] are kept, rounding is idealised (finite values are
      exact rationals, the two zeros are one) and arithmetic on finite
      values does not overflow.  Where the code can overflow on finite
      input in a way that lasts (the running sums of the rolling metrics),
      a theorem that asserts a value assumes values of moderate size.
    - A DataFrame is an ordered list of named columns, a column a list of
      cells.  Rows are addressed by position: the row labels are taken to be
      unique, as [pd.concat(..., ignore_index=True)] makes them.
    - A missing value (NaN, None, NaT) is the cell [Num NaN].
    - A Python exception is a value of [error]; code that can raise returns
      a [result].
    - pandas is the pandas of the source: [fillna(method=...)] exists, and
      [pct_change] fills gaps forward before it divides. *)

From Stdlib Require Import List String Ascii ZArith QArith Lia Bool Arith.
From Stdlib Require Import DecimalString DecimalNat Lqa Qabs Permutation Sorted.
Import ListNotations.

Local Open Scope string_scope.
Local Open Scope Q_scope.

(** ** Floating-point values *)

Inductive fval : Type :=
| NaN
| NInf
| Fin (q : Q)
| PInf.

Definition Qlt_bool (a b : Q) : bool := negb (Qle_bool b a).

(** [a < b] as numpy evaluates it: false as soon as one side is NaN. *)
Definition flt (a b : fval) : bool :=
  match a, b with
  | NaN, _ | _, NaN => false
  | NInf, NInf => false
  | NInf, _ => true
  | Fin _, NInf => false
  | Fin x, Fin y => Qlt_bool x y
  | Fin _, PInf => true
  | PInf, _ => false
  end.

Definition fgt (a b : fval) : bool := flt b a.

Definition fle (a b : fval) : bool :=
  match a, b with
  | NaN, _ | _, NaN => false
  | NInf, _ => true
  | Fin _, NInf => false
  | Fin x, Fin y => Qle_bool x y
  | Fin _, PInf => true
  | PInf, PInf => true
  | PInf, _ => false
  end.

Definition feqb (a b : fval) : bool :=
  match a, b with
  | NInf, NInf | PInf, PInf => true
  | Fin x, Fin y => Qeq_bool x y
  | _, _ => false
  end.

Definition fneg (a : fval) : fval :=
  match a with
  | NaN => NaN
  | NInf => PInf
  | Fin x => Fin (- x)
  | PInf => NInf
  end.

Definition fadd (a b : fval) : fval :=
  match a, b with
  | NaN, _ | _, NaN => NaN
  | PInf, NInf | NInf, PInf => NaN
  | PInf, _ | _, PInf => PInf
  | NInf, _ | _, NInf => NInf
  | Fin x, Fin y => Fin (x + y)
  end.

Definition fsub (a b : fval) : fval := fadd a (fneg b).

Definition Qsign (x : Q) : comparison := 0 ?= x.

Definition fmul (a b : fval) : fval :=
  match a, b with
  | NaN, _ | _, NaN => NaN
  | Fin x, Fin y => Fin (x * y)
  | Fin x, PInf | PInf, Fin x =>
      match Qsign x with Lt => PInf | Eq => NaN | Gt => NInf end
  | Fin x, NInf | NInf, Fin x =>
      match Qsign x with Lt => NInf | Eq => NaN | Gt => PInf end
  | PInf, PInf | NInf, NInf => PInf
  | PInf, NInf | NInf, PInf => NInf
  end.

(** Division never raises on float64 arrays: [x/0] is an infinity of the
    sign of [x], [0/0] is NaN. *)
Definition fdiv (a b : fval) : fval :=
  match a, b with
  | NaN, _ | _, NaN => NaN
  | Fin x, Fin y =>
      match Qsign y with
      | Eq => match Qsign x with Lt => PInf | Eq => NaN | Gt => NInf end
      | _ => Fin (x / y)
      end
  | Fin _, (PInf | NInf) => Fin 0
  | (PInf | NInf), (PInf | NInf) => NaN
  | PInf, Fin y => match Qsign y with Gt => NInf | _ => PInf end
  | NInf, Fin y => match Qsign y with Gt => PInf | _ => NInf end
  end.

Definition isnan (a : fval) : bool :=
  match a with NaN => true | _ => false end.

Definition is_finite (a : fval) : bool :=
  match a with Fin _ => true | _ => false end.

(** ** Cells, columns, frames *)

Inductive cell : Type :=
| Num (x : fval)
| Str (s : string)
| Flag (b : bool)
| Date (d : Z).

Definition column : Type := list cell.

Definition DataFrame : Type := list (string * column).

Definition isnull (c : cell) : bool :=
  match c with Num NaN => true | _ => false end.

(** [name in df.columns] *)
Definition has_col (name : string) (df : DataFrame) : bool :=
  existsb (fun p => String.eqb (fst p) name) df.

(** [df[name]], [None] when the column is absent. *)
Fixpoint get_col (name : string) (df : DataFrame) : option column :=
  match df with
  | [] => None
  | (n, c) :: rest => if String.eqb n name then Some c else get_col name rest
  end.

(** [df[name] = col]: the column is replaced where it stands, or appended. *)
Fixpoint set_col (name : string) (col : column) (df : DataFrame) : DataFrame :=
  match df with
  | [] => [(name, col)]
  | (n, c) :: rest =>
      if String.eqb n name then (n, col) :: rest
      else (n, c) :: set_col name col rest
  end.

(** [len(df)] *)
Definition nrows (df : DataFrame) : nat :=
  match df with
  | [] => 0%nat
  | (_, c) :: _ => List.length c
  end.

(** [pd.DataFrame()] *)
Definition empty_frame : DataFrame := [].

(** ** Exceptions *)

Inductive error : Type :=
| KeyError (name : string)
| TypeError
| ValueError
| ZeroDivisionError.

Inductive result (A : Type) : Type :=
| Ok (a : A)
| Err (e : error).

Arguments Ok {A} a.
Arguments Err {A} e.

Definition bind {A B : Type} (r : result A) (f : A -> result B) : result B :=
  match r with
  | Ok a => f a
  | Err e => Err e
  end.

Notation "x <- r ;; k" := (bind r (fun x => k))
  (at level 61, r at next level, right associativity).

(** The numeric content of a cell; arithmetic or comparison with a number
    raises on anything else. *)
Definition as_float (c : cell) : result fval :=
  match c with
  | Num x => Ok x
  | _ => Err TypeError
  end.

Fixpoint as_floats (col : column) : result (list fval) :=
  match col with
  | [] => Ok []
  | c :: rest =>
      x <- as_float c ;;
      xs <- as_floats rest ;;
      Ok (x :: xs)
  end.

(** [df[name]] used as a numeric series: [KeyError] when absent. *)
Definition getnum (name : string) (df : DataFrame) : result (list fval) :=
  match get_col name df with
  | None => Err (KeyError name)
  | Some col => as_floats col
  end.

Definition nums (xs : list fval) : column := map Num xs.

(** ** Filling of missing values *)

Section Fill.

Context {A : Type} (null : A -> bool).

(** Forward fill: the last valid value is carried forward. *)
Fixpoint ffill_from (last : option A) (xs : list A) : list A :=
  match xs with
  | [] => []
  | x :: rest =>
      if null x
      then match last with
           | Some v => v :: ffill_from last rest
           | None => x :: ffill_from last rest
           end
      else x :: ffill_from (Some x) rest
  end.

(** Backward fill: the next valid value is carried backward. *)
Fixpoint bfill_gen (xs : list A) : list A :=
  match xs with
  | [] => []
  | x :: rest =>
      let rest' := bfill_gen rest in
      if null x
      then match rest' with
           | v :: _ => v :: rest'
           | [] => x :: rest'
           end
      else x :: rest'
  end.

End Fill.

(** [Series.ffill()] and [Series.bfill()] on a column. *)
Definition ffill (col : column) : column := ffill_from isnull None col.

Definition bfill (col : column) : column := bfill_gen isnull col.

(** The same on a numeric series. *)
Definition ffill_floats (xs : list fval) : list fval := ffill_from isnan None xs.

(** [df.ffill()] and [df.bfill()] work column by column. *)
Definition df_ffill (df : DataFrame) : DataFrame :=
  map (fun p => (fst p, ffill (snd p))) df.

Definition df_bfill (df : DataFrame) : DataFrame :=
  map (fun p => (fst p, bfill (snd p))) df.

(** ** Elementwise helpers *)

Fixpoint map2 {A B C : Type} (f : A -> B -> C) (xs : list A) (ys : list B)
  : list C :=
  match xs, ys with
  | x :: xs', y :: ys' => f x y :: map2 f xs' ys'
  | _, _ => []
  end.

(** [s.loc[mask] = v] *)
Definition loc_set {A : Type} (mask : list bool) (v : A) (xs : list A) : list A :=
  map2 (fun (m : bool) x => if m then v else x) mask xs.

Definition any (mask : list bool) : bool := existsb (fun b => b) mask.

(** ** Configuration *)

Record Config : Type := {
  ma_short_window : nat;
  ma_long_window : nat;
  volatility_window : nat;
  min_stock_price : Q;
  max_stock_price : Q;
  max_missing_percentage : Q
}.

(** The values of [config.py]. *)
Definition default_config : Config := {|
  ma_short_window := 20;
  ma_long_window := 50;
  volatility_window := 20;
  min_stock_price := 1 # 100;
  max_stock_price := 100000;
  max_missing_percentage := 1 # 10
|}.

(** ** Shapes of tables *)

Definition is_price_shaped (df : DataFrame) : bool :=
  has_col "Symbol" df && has_col "Close" df.

Definition is_indicator_shaped (df : DataFrame) : bool :=
  existsb (fun c => has_col c df)
    ["GDP_Growth"; "Unemployment_Rate"; "Inflation_Rate"].

(** ** DataValidator.validate *)

Section Validator.

Variable cfg : Config.

(** [(df[col] < self.min_price) | (df[col] > self.max_price)] *)
Definition out_of_range (x : fval) : bool :=
  flt x (Fin (min_stock_price cfg)) || fgt x (Fin (max_stock_price cfg)).

(** One turn of the loop over [price_cols]: invalid prices become NaN and
    the column is filled forward, then backward.  The two
    [df[col].fillna(..., inplace=True)] are taken to write through to [df],
    as they do in the pandas versions that accept [fillna(method=...)]. *)
Definition repair_price_col (name : string) (df : DataFrame) : result DataFrame :=
  xs <- getnum name df ;;
  let mask := map out_of_range xs in
  if any mask
  then Ok (set_col name (bfill (ffill (nums (loc_set mask NaN xs)))) df)
  else Ok df.

Definition price_cols : list string :=
  ["Open"; "High"; "Low"; "Close"; "Adj_Close"].

Fixpoint repair_price_cols (names : list string) (df : DataFrame)
  : result DataFrame :=
  match names with
  | [] => Ok df
  | name :: rest =>
      df' <- repair_price_col name df ;;
      repair_price_cols rest df'
  end.

(** Python's [max(a, b, c, d)] and [min(a, b, c, d)]: the running value is
    replaced when the next item compares strictly greater (smaller). *)
Definition pymax (first : fval) (rest : list fval) : fval :=
  fold_left (fun m y => if fgt y m then y else m) rest first.

Definition pymin (first : fval) (rest : list fval) : fval :=
  fold_left (fun m y => if flt y m then y else m) rest first.

Record prices : Type := {
  p_open : fval;
  p_high : fval;
  p_low : fval;
  p_close : fval
}.

Fixpoint price_rows (o h l c : list fval) : list prices :=
  match o, h, l, c with
  | o0 :: o', h0 :: h', l0 :: l', c0 :: c' =>
      {| p_open := o0; p_high := h0; p_low := l0; p_close := c0 |}
        :: price_rows o' h' l' c'
  | _, _, _, _ => []
  end.

(** The mask of [inconsistent_rows]. *)
Definition inconsistent (r : prices) : bool :=
  flt (p_high r) (p_low r) || flt (p_high r) (p_open r)
  || flt (p_high r) (p_close r) || fgt (p_low r) (p_open r)
  || fgt (p_low r) (p_close r).

Definition row_max (r : prices) : fval :=
  pymax (p_open r) [p_high r; p_low r; p_close r].

Definition row_min (r : prices) : fval :=
  pymin (p_open r) [p_high r; p_low r; p_close r].

Definition fixed_high (r : prices) : fval :=
  if inconsistent r then row_max r else p_high r.

Definition fixed_low (r : prices) : fval :=
  if inconsistent r then row_min r else p_low r.

(** The OHLC step: the four columns are read in the order High, Low, Open,
    Close (a missing one raises [KeyError]), and every inconsistent row gets
    its own maximum as High and its own minimum as Low. *)
Definition repair_ohlc (df : DataFrame) : result DataFrame :=
  h <- getnum "High" df ;;
  l <- getnum "Low" df ;;
  o <- getnum "Open" df ;;
  c <- getnum "Close" df ;;
  let rows := price_rows o h l c in
  if any (map inconsistent rows)
  then Ok (set_col "Low" (nums (map fixed_low rows))
             (set_col "High" (nums (map fixed_high rows)) df))
  else Ok df.

(** Negative volumes are set to 0. *)
Definition repair_volume (df : DataFrame) : result DataFrame :=
  if has_col "Volume" df
  then
    v <- getnum "Volume" df ;;
    let mask := map (fun x => flt x (Fin 0)) v in
    if any mask
    then Ok (set_col "Volume" (nums (loc_set mask (Fin 0) v)) df)
    else Ok df
  else Ok df.

(** [(df['Daily_Return'] < -0.5) | (df['Daily_Return'] > 0.5)] *)
Definition extreme (x : fval) : bool :=
  flt x (Fin (- (1 # 2))) || fgt x (Fin (1 # 2)).

(** The flag column is created (all False, then True under the mask) only
    inside [if len(extreme_returns) > 0]. *)
Definition flag_extreme_returns (df : DataFrame) : result DataFrame :=
  if has_col "Daily_Return" df
  then
    r <- getnum "Daily_Return" df ;;
    let mask := map extreme r in
    if any mask
    then Ok (set_col "Extreme_Return_Flag"
               (map Flag (loc_set mask true (repeat false (nrows df)))) df)
    else Ok df
  else Ok df.

(** The price branch up to the end of the price-range loop. *)
Definition repair_prices (df : DataFrame) : result DataFrame :=
  let df := df_ffill df in
  let df := df_bfill df in
  repair_price_cols (filter (fun c => has_col c df) price_cols) df.

Definition validate_prices (df : DataFrame) : result DataFrame :=
  df <- repair_prices df ;;
  df <- repair_ohlc df ;;
  df <- repair_volume df ;;
  flag_extreme_returns df.

(** An indicator outside its fixed range becomes NaN and is filled forward
    only. *)
Definition repair_indicator (name : string) (lo hi : Q) (df : DataFrame)
  : result DataFrame :=
  if has_col name df
  then
    xs <- getnum name df ;;
    let mask := map (fun x => flt x (Fin lo) || fgt x (Fin hi)) xs in
    if any mask
    then Ok (set_col name (ffill (nums (loc_set mask NaN xs))) df)
    else Ok df
  else Ok df.

Definition validate_indicators (df : DataFrame) : result DataFrame :=
  let df := df_bfill (df_ffill df) in
  df <- repair_indicator "GDP_Growth" (-10) 15 df ;;
  df <- repair_indicator "Unemployment_Rate" 0 30 df ;;
  repair_indicator "Inflation_Rate" (-5) 25 df.

(** [DataValidator.validate]; [None] is Python's [None].  The computation
    of the missing-value percentages only feeds the log and is left out. *)
Definition validate (data : option DataFrame) : result DataFrame :=
  match data with
  | None => Ok empty_frame
  | Some data =>
      if (nrows data =? 0)%nat then Ok empty_frame
      else
        let df := data in
        if is_price_shaped df then validate_prices df
        else if is_indicator_shaped df then validate_indicators df
        else Ok df
  end.

End Validator.

(** ** Row selection, concatenation, sorting *)

(** [df[mask]] *)
Definition select {A : Type} (mask : list bool) (xs : list A) : list A :=
  map snd (filter (fun p => fst p) (combine mask xs)).

Definition select_rows (mask : list bool) (df : DataFrame) : DataFrame :=
  map (fun p => (fst p, select mask (snd p))) df.

(** The elementwise [==] of [df['Symbol'] == symbol]: a missing value is
    equal to nothing, cells of different kinds are different. *)
Definition cell_eqb (a b : cell) : bool :=
  match a, b with
  | Num x, Num y => feqb x y
  | Str s, Str t => String.eqb s t
  | Flag p, Flag q => Bool.eqb p q
  | Date d, Date e => Z.eqb d e
  | _, _ => false
  end.

(** Two cells that [Series.unique()] keeps only once: as [cell_eqb], but
    all missing values count as one. *)
Definition same_key (a b : cell) : bool :=
  (isnull a && isnull b) || cell_eqb a b.

(** [Series.unique()]: the distinct values in order of first appearance. *)
Fixpoint unique_from (seen : list cell) (col : column) : list cell :=
  match col with
  | [] => []
  | c :: rest =>
      if existsb (same_key c) seen then unique_from seen rest
      else c :: unique_from (c :: seen) rest
  end.

Definition unique (col : column) : list cell := unique_from [] col.

(** The column names of [pd.concat(frames)]: the union, in order of first
    appearance. *)
Fixpoint union_names (seen : list string) (names : list string) : list string :=
  match names with
  | [] => []
  | n :: rest =>
      if existsb (String.eqb n) seen then union_names seen rest
      else n :: union_names (n :: seen) rest
  end.

Definition col_or_missing (name : string) (df : DataFrame) : column :=
  match get_col name df with
  | Some c => c
  | None => repeat (Num NaN) (nrows df)
  end.

(** [pd.concat(frames)]: rows are stacked, a column that a frame lacks is
    missing on the rows of that frame. *)
Definition concat (frames : list DataFrame) : DataFrame :=
  map (fun name => (name, flat_map (col_or_missing name) frames))
      (union_names [] (flat_map (map fst) frames)).

(** The order of [sort_values]: ascending, missing values last.  Cells of
    one kind are compared by value. *)
Definition kind (c : cell) : nat :=
  match c with
  | Num _ => 0
  | Str _ => 1
  | Flag _ => 2
  | Date _ => 3
  end.

Definition key_leb (a b : cell) : bool :=
  if isnull b then true
  else if isnull a then false
  else match a, b with
       | Num x, Num y => fle x y
       | Str s, Str t => String.leb s t
       | Flag p, Flag q => implb p q
       | Date d, Date e => Z.leb d e
       | _, _ => (kind a <=? kind b)%nat
       end.

(** [p], a row that comes before all the rows of [l] in the table, is put
    in front of the first row of [l] whose key is not smaller: rows with
    equal keys keep the order they have in the table. *)
Fixpoint insert_key (p : cell * nat) (l : list (cell * nat)) : list (cell * nat) :=
  match l with
  | [] => [p]
  | q :: rest =>
      if key_leb (fst p) (fst q) then p :: q :: rest
      else q :: insert_key p rest
  end.

Fixpoint sort_keys (l : list (cell * nat)) : list (cell * nat) :=
  match l with
  | [] => []
  | p :: rest => insert_key p (sort_keys rest)
  end.

(** The positions of the rows in sorted order.  Rows with equal keys keep
    their relative order, as they do in pandas for a table of at most 16
    rows; for a longer table the default sort of pandas (quicksort) may
    order rows with equal keys otherwise, so the theorems say of the order
    of the rows only what holds for every sorted order. *)
Definition argsort (keys : column) : list nat :=
  map snd (sort_keys (combine keys (seq 0 (List.length keys)))).

Definition take {A : Type} (d : A) (idx : list nat) (xs : list A) : list A :=
  map (fun i => nth i xs d) idx.

Definition take_rows (idx : list nat) (df : DataFrame) : DataFrame :=
  map (fun p => (fst p, take (Num NaN) idx (snd p))) df.

(** Values of different kinds cannot be ordered: Python raises. *)
Definition comparable (keys : column) : bool :=
  match filter (fun c => negb (isnull c)) keys with
  | [] => true
  | c :: rest => forallb (fun c' => (kind c' =? kind c)%nat) rest
  end.

(** [df.sort_values(name)] *)
Definition sort_values (name : string) (df : DataFrame) : result DataFrame :=
  match get_col name df with
  | None => Err (KeyError name)
  | Some keys =>
      if comparable keys then Ok (take_rows (argsort keys) df)
      else Err TypeError
  end.

(** ** Series operations *)

(** [Series.shift(k)] *)
Definition shift (k : nat) (xs : list fval) : list fval :=
  firstn (List.length xs) (repeat NaN k ++ xs).

(** [Series.pct_change(periods=k)]: missing values are first filled forward
    (pandas' default [fill_method='pad']), then [x / x.shift(k) - 1]. *)
Definition pct_change (k : nat) (xs : list fval) : list fval :=
  let d := ffill_floats xs in
  map2 (fun a b => fsub (fdiv a b) (Fin 1)) d (shift k d).

(** [Series.diff()] *)
Definition diff (xs : list fval) : list fval :=
  map2 fsub xs (shift 1 xs).

(** The rows of the window of length [n] that ends at row [i]. *)
Definition window (n i : nat) (xs : list fval) : list fval :=
  skipn (S i - n) (firstn (S i) xs).

(** The observations of a window: rolling aggregations treat infinities as
    missing. *)
Definition observations (w : list fval) : list Q :=
  flat_map (fun x => match x with Fin q => [q] | _ => [] end) w.

(** [Series.rolling(window=n).agg()]: [min_periods] defaults to [n], so a
    row has a value only when its window holds [n] observations.  Each
    window is aggregated here over the exact values.  pandas keeps running
    sums in floating point instead, which agree with this (up to rounding)
    as long as no sum overflows; after an overflow its later rows are
    undefined or infinite.  A theorem that asserts a value of a rolling
    metric therefore assumes values of moderate size. *)
Definition rolling (n : nat) (agg : list Q -> fval) (xs : list fval) : list fval :=
  map (fun i =>
         let obs := observations (window n i xs) in
         if (n <=? List.length obs)%nat then agg obs else NaN)
      (seq 0 (List.length xs)).

Definition Qsum (qs : list Q) : Q := fold_right Qplus 0 qs.

Definition Qlen (qs : list Q) : Q := inject_Z (Z.of_nat (List.length qs)).

Definition Qmean (qs : list Q) : Q := Qsum qs / Qlen qs.

Definition agg_mean (obs : list Q) : fval :=
  if (0 <? List.length obs)%nat then Fin (Qmean obs) else NaN.

(** Sample variance ([ddof=1]). *)
Definition Qvar (qs : list Q) : Q :=
  Qsum (map (fun x => (x - Qmean qs) * (x - Qmean qs)) qs) / (Qlen qs - 1).

(** Exponentially weighted mean with [adjust=False] over a series without
    infinite values: seeded by the first observation; a missing value keeps
    the running mean and ages its weight. *)
Fixpoint ewm_from (alpha : Q) (weighted : fval) (old_wt : Q) (xs : list fval)
  : list fval :=
  match xs with
  | [] => []
  | cur :: rest =>
      if isnan weighted
      then cur :: ewm_from alpha cur old_wt rest
      else
        let old_wt' := old_wt * (1 - alpha) in
        if isnan cur
        then weighted :: ewm_from alpha weighted old_wt' rest
        else
          let w :=
            if feqb weighted cur then weighted
            else fdiv (fadd (fmul (Fin old_wt') weighted) (fmul (Fin alpha) cur))
                      (Fin (old_wt' + alpha)) in
          w :: ewm_from alpha w 1 rest
  end.

(** What the window functions of pandas make of their input: an infinite
    value becomes a missing one. *)
Definition no_inf (xs : list fval) : list fval :=
  map (fun x => if is_finite x then x else NaN) xs.

(** [Series.ewm(span=span, adjust=False).mean()] *)
Definition ewm_mean (span : Z) (xs : list fval) : list fval :=
  match no_inf xs with
  | [] => []
  | x :: rest => x :: ewm_from (2 / (inject_Z span + 1)) x 1 rest
  end.

(** [str(n)] *)
Definition string_of_nat (n : nat) : string :=
  NilEmpty.string_of_uint (Nat.to_uint n).

(** ** MetricsCalculator.calculate *)

Section Calculator.

Variable cfg : Config.

(** The square root of [np.sqrt] and of [std()]; every result below holds
    whatever rational approximation stands for it. *)
Variable sqrtQ : Q -> Q.

(** [rolling(n).std()]: needs more than one observation. *)
Definition agg_std (obs : list Q) : fval :=
  if (1 <? List.length obs)%nat then Fin (sqrtQ (Qvar obs)) else NaN.

Definition ma_name (n : nat) : string := "MA_" ++ string_of_nat n.

(** [symbol_df['MA_Signal'] = 0], then 1 where the short average is above
    the long one, then -1 where it is below. *)
Definition ma_signal (n : nat) (short long : list fval) : list fval :=
  let signal := repeat (Fin 0) n in
  let signal := loc_set (map2 fgt short long) (Fin 1) signal in
  loc_set (map2 flt short long) (Fin (-1)) signal.

(** [Daily_Return.rolling(n).std() * np.sqrt(252)] *)
Definition volatility (n : nat) (returns : list fval) : list fval :=
  map (fun s => fmul s (Fin (sqrtQ 252))) (rolling n agg_std returns).

(** [delta.where(delta > 0, 0)] and [-delta.where(delta < 0, 0)] *)
Definition gains (delta : list fval) : list fval :=
  map (fun d => if fgt d (Fin 0) then d else Fin 0) delta.

Definition losses (delta : list fval) : list fval :=
  map (fun d => fneg (if flt d (Fin 0) then d else Fin 0)) delta.

Definition avg_gain (close : list fval) : list fval :=
  rolling 14 agg_mean (gains (diff close)).

Definition avg_loss (close : list fval) : list fval :=
  rolling 14 agg_mean (losses (diff close)).

(** [100 - (100 / (1 + rs))] *)
Definition rsi_of (rs : fval) : fval :=
  fsub (Fin 100) (fdiv (Fin 100) (fadd (Fin 1) rs)).

Definition rsi (close : list fval) : list fval :=
  map rsi_of (map2 fdiv (avg_gain close) (avg_loss close)).

(** The body of the loop over symbols, after the rows of the symbol have
    been selected and sorted.  No column that is written has the name of a
    column that is read later with other content, so each series is bound
    once. *)
Definition symbol_metrics (symbol_df : DataFrame) : result DataFrame :=
  close <- getnum "Close" symbol_df ;;
  let daily_return := pct_change 1 close in
  let df := set_col "Daily_Return" (nums daily_return) symbol_df in
  let short := rolling (ma_short_window cfg) agg_mean close in
  let long := rolling (ma_long_window cfg) agg_mean close in
  let df := set_col (ma_name (ma_short_window cfg)) (nums short) df in
  let df := set_col (ma_name (ma_long_window cfg)) (nums long) df in
  let df := set_col "MA_Signal"
              (nums (ma_signal (nrows symbol_df) short long)) df in
  let df := set_col "Volatility"
              (nums (volatility (volatility_window cfg) daily_return)) df in
  let df := set_col "RSI" (nums (rsi close)) df in
  let bb_middle := rolling 20 agg_mean close in
  let bb_std := rolling 20 agg_std close in
  let df := set_col "BB_Middle" (nums bb_middle) df in
  let df := set_col "BB_Std" (nums bb_std) df in
  let df := set_col "BB_Upper"
              (nums (map2 fadd bb_middle (map (fun s => fmul s (Fin 2)) bb_std))) df in
  let df := set_col "BB_Lower"
              (nums (map2 fsub bb_middle (map (fun s => fmul s (Fin 2)) bb_std))) df in
  let ema_12 := ewm_mean 12 close in
  let ema_26 := ewm_mean 26 close in
  let macd := map2 fsub ema_12 ema_26 in
  let macd_signal := ewm_mean 9 macd in
  let df := set_col "EMA_12" (nums ema_12) df in
  let df := set_col "EMA_26" (nums ema_26) df in
  let df := set_col "MACD" (nums macd) df in
  let df := set_col "MACD_Signal" (nums macd_signal) df in
  let df := set_col "MACD_Histogram" (nums (map2 fsub macd macd_signal)) df in
  Ok df.

(** One turn of the loop over [symbols]. *)
Definition symbol_frame (df : DataFrame) (symbols : column) (symbol : cell)
  : result DataFrame :=
  let symbol_df := select_rows (map (fun c => cell_eqb c symbol) symbols) df in
  symbol_df <- sort_values "Date" symbol_df ;;
  symbol_metrics symbol_df.

Fixpoint symbol_frames (df : DataFrame) (symbols : column) (todo : list cell)
  : result (list DataFrame) :=
  match todo with
  | [] => Ok []
  | symbol :: rest =>
      f <- symbol_frame df symbols symbol ;;
      fs <- symbol_frames df symbols rest ;;
      Ok (f :: fs)
  end.

Definition calculate_prices (df : DataFrame) : result DataFrame :=
  match get_col "Symbol" df with
  | None => Err (KeyError "Symbol")
  | Some symbols =>
      result_dfs <- symbol_frames df symbols (unique symbols) ;;
      match result_dfs with
      | [] => Err ValueError
      | _ => Ok (concat result_dfs)
      end
  end.

Definition indicator_cols : list string :=
  ["GDP_Growth"; "Unemployment_Rate"; "Inflation_Rate"; "Interest_Rate";
   "Consumer_Confidence"].

Definition yoy_name (col : string) : string := col ++ "_YoY_Change".

(** [Series.shift(k)] on a column of any content *)
Definition shift_cells (k : nat) (col : column) : column :=
  firstn (List.length col) (repeat (Num NaN) k ++ col).

(** Python's [a / b] on the contents of two cells of an object column (a
    column that holds something else than numbers): its numbers are Python
    floats, whose division by zero raises; nothing else can be divided. *)
Definition py_div (a b : cell) : result fval :=
  match a, b with
  | Num x, Num y =>
      if feqb y (Fin 0) then Err ZeroDivisionError else Ok (fdiv x y)
  | _, _ => Err TypeError
  end.

(** The results of an elementwise operation, or the first exception. *)
Fixpoint all_ok {A : Type} (rs : list (result A)) : result (list A) :=
  match rs with
  | [] => Ok []
  | r :: rest =>
      x <- r ;;
      xs <- all_ok rest ;;
      Ok (x :: xs)
  end.

(** [d / s] on object columns: pandas divides all rows and, when that
    raises [TypeError], divides again only the rows where both values are
    present, the other rows being missing. *)
Definition object_div (d s : column) : result (list fval) :=
  match all_ok (map2 py_div d s) with
  | Ok qs => Ok qs
  | Err TypeError =>
      all_ok (map2 (fun a b => if isnull a || isnull b then Ok NaN else py_div a b)
                   d s)
  | Err e => Err e
  end.

(** [df[col].pct_change(periods=k)] on a column of the table: on a column of
    numbers as [pct_change]; on an object column through Python's
    division, so that strings raise [TypeError] only where two of them
    meet. *)
Definition pct_change_col (k : nat) (col : column) : result column :=
  match as_floats col with
  | Ok xs => Ok (nums (pct_change k xs))
  | Err _ =>
      let d := ffill col in
      qs <- object_div d (shift_cells k d) ;;
      Ok (nums (map (fun q => fsub q (Fin 1)) qs))
  end.

(** The loop that adds the year-over-year columns. *)
Fixpoint add_yoy (cols : list string) (df : DataFrame) : result DataFrame :=
  match cols with
  | [] => Ok df
  | col :: rest =>
      match get_col col df with
      | Some values =>
          yoy <- pct_change_col 12 values ;;
          add_yoy rest (set_col (yoy_name col) yoy df)
      | None => add_yoy rest df
      end
  end.

Definition is_numeric (col : column) : bool :=
  match as_floats col with
  | Ok _ => true
  | Err _ => false
  end.

(** [result_df[indicator_cols].corr()] when more than one indicator column
    is present.  The matrix is only logged, but [corr] turns the columns
    into floats first and raises [ValueError] on what is not a number (in
    pandas 2; earlier versions leave such a column out of the matrix). *)
Definition corr_check (df : DataFrame) : result unit :=
  let present := filter (fun c => has_col c df) indicator_cols in
  if (1 <? List.length present)%nat
  then
    if forallb (fun c => match get_col c df with
                         | Some col => is_numeric col
                         | None => true
                         end) present
    then Ok tt
    else Err ValueError
  else Ok tt.

(** The indicator branch. *)
Definition calculate_indicators (df : DataFrame) : result DataFrame :=
  result_df <- sort_values "Date" df ;;
  result_df <- add_yoy indicator_cols result_df ;;
  corr_matrix <- corr_check result_df ;;
  Ok result_df.

(** [DataFrame.empty] *)
Definition df_empty (df : DataFrame) : bool :=
  match df with
  | [] => true
  | _ => (nrows df =? 0)%nat
  end.

Definition given (data : option DataFrame) : list DataFrame :=
  match data with
  | Some df => if df_empty df then [] else [df]
  | None => []
  end.

(** [MetricsCalculator.calculate] *)
Definition calculate (csv_data json_data api_data : option DataFrame)
  : result DataFrame :=
  let dfs := (given csv_data ++ given json_data ++ given api_data)%list in
  match dfs with
  | [] => Ok empty_frame
  | _ =>
      let df := concat dfs in
      if is_price_shaped df then calculate_prices df
      else if is_indicator_shaped df then calculate_indicators df
      else Ok df
  end.

End Calculator.

(** A rational approximation of the square root (six decimals), used to run
    the model on examples. *)
Definition sqrt_approx (q : Q) : Q :=
  Z.sqrt (Qnum q * 1000000000000 / Zpos (Qden q)) # 1000000.

(** * Vocabulary of the properties *)

(** A frame is rectangular: every column has [len(df)] cells. *)
Definition wf (df : DataFrame) : Prop :=
  Forall (fun p => List.length (snd p) = nrows df) df.

(** A value that is not missing, for a given test of missingness. *)
Definition present {A : Type} (null : A -> bool) (x : A) : Prop := null x = false.

(** The four prices of row [i], when the row has them all. *)
Definition row_of (df : DataFrame) (i : nat) : option prices :=
  match get_col "Open" df, get_col "High" df, get_col "Low" df, get_col "Close" df with
  | Some o, Some h, Some l, Some c =>
      match nth_error o i, nth_error h i, nth_error l i, nth_error c i with
      | Some (Num o0), Some (Num h0), Some (Num l0), Some (Num c0) =>
          Some {| p_open := o0; p_high := h0; p_low := l0; p_close := c0 |}
      | _, _, _, _ => None
      end
  | _, _, _, _ => None
  end.

(** [m] is the greatest (smallest) of the values [qs]. *)
Definition is_max (m : Q) (qs : list Q) : Prop :=
  In m qs /\ Forall (fun q => q <= m) qs.

Definition is_min (m : Q) (qs : list Q) : Prop :=
  In m qs /\ Forall (fun q => m <= q) qs.

(** A row of four finite prices. *)
Definition fin_row (o h l c : Q) : prices :=
  {| p_open := Fin o; p_high := Fin h; p_low := Fin l; p_close := Fin c |}.

Section Vocabulary.

Variable cfg : Config.

(** What the price-range loop makes of one numeric column. *)
Definition repaired (xs : list fval) : column :=
  if any (map (out_of_range cfg) xs)
  then bfill (ffill (nums (map (fun x => if out_of_range cfg x then NaN else x) xs)))
  else nums xs.

(** A price that is present and within the configured bounds. *)
Definition valid (x : fval) : bool := negb (isnan x) && negb (out_of_range cfg x).

Definition cell_valid (c : cell) : bool :=
  match c with Num x => valid x | _ => false end.

(** The column exists and holds at least one valid price. *)
Definition has_valid_price (name : string) (df : DataFrame) : bool :=
  match get_col name df with
  | Some col => existsb cell_valid col
  | None => false
  end.

Definition in_range (q : Q) : Prop :=
  min_stock_price cfg <= q <= max_stock_price cfg.

(** The column is numeric and all its prices are valid. *)
Definition valid_column (name : string) (df : DataFrame) : Prop :=
  exists xs, getnum name df = Ok xs /\ Forall (fun x => valid x = true) xs.

(** The invariant of validated prices: every row has its four prices, all
    within the bounds, with Low under Open and Close, and High above them. *)
Definition price_invariant (df : DataFrame) : Prop :=
  forall i, (i < nrows df)%nat ->
    exists o h l c,
      row_of df i = Some (fin_row o h l c)
      /\ l <= o /\ o <= h /\ l <= c /\ c <= h
      /\ in_range o /\ in_range h /\ in_range l /\ in_range c.

(** A clean price table: rectangular, without missing values, prices within
    the bounds, rows consistent, volumes not negative (and returns, when
    there are some, numeric). *)
Record clean (df : DataFrame) : Prop := {
  clean_wf : wf df;
  clean_shape : is_price_shaped df = true;
  clean_present : Forall (fun p => Forall (present isnull) (snd p)) df;
  clean_invariant : price_invariant df;
  clean_adj_close :
    has_col "Adj_Close" df = true -> valid_column "Adj_Close" df;
  clean_volume :
    has_col "Volume" df = true ->
    exists v, getnum "Volume" df = Ok v
              /\ Forall (fun x => fle (Fin 0) x = true) v;
  clean_returns :
    has_col "Daily_Return" df = true ->
    exists r, getnum "Daily_Return" df = Ok r
}.

(** The same, column by column and in the terms of the tests that [validate]
    makes. *)
Record clean_columns (df : DataFrame) : Prop := {
  cc_wf : wf df;
  cc_shape : is_price_shaped df = true;
  cc_present : Forall (fun p => Forall (present isnull) (snd p)) df;
  cc_prices :
    forall name, In name price_cols -> has_col name df = true ->
                 valid_column name df;
  cc_ohlc :
    exists o h l c,
      getnum "Open" df = Ok o /\ getnum "High" df = Ok h
      /\ getnum "Low" df = Ok l /\ getnum "Close" df = Ok c
      /\ any (map inconsistent (price_rows o h l c)) = false;
  cc_volume :
    has_col "Volume" df = true ->
    exists v, getnum "Volume" df = Ok v
              /\ Forall (fun x => flt x (Fin 0) = false) v;
  cc_returns :
    has_col "Daily_Return" df = true ->
    exists r, getnum "Daily_Return" df = Ok r
}.

End Vocabulary.

(** The key columns of the load layer. *)
Definition key_columns : list string :=
  ["Date"; "Symbol"; "Open"; "High"; "Low"; "Close"].

(** The column exists and none of its cells is missing. *)
Definition no_missing (name : string) (df : DataFrame) : Prop :=
  exists col, get_col name df = Some col /\ Forall (present isnull) col.

(** The column exists and holds at least one value. *)
Definition has_value (name : string) (df : DataFrame) : bool :=
  match get_col name df with
  | Some col => existsb (fun c => negb (isnull c)) col
  | None => false
  end.

(** [|x| > 0.5] *)
Definition abs_above_half (x : fval) : Prop :=
  match x with
  | NaN => False
  | Fin q => 1 # 2 < Qabs q
  | NInf | PInf => True
  end.

(** A derived column warms up over its first [k] rows: there it is missing
    (so a series of at most [k] rows has it missing everywhere), and, when the
    series is [ready] (its closes can be aggregated), it has a value on every
    later row. *)
Definition warms_up (k : nat) (col : column) (ready : Prop) : Prop :=
  (forall i c, (i < k)%nat -> nth_error col i = Some c -> c = Num NaN)
  /\ ((List.length col <= k)%nat -> Forall (fun c => c = Num NaN) col)
  /\ (ready ->
      forall i, (k <= i < List.length col)%nat ->
                exists q, nth_error col i = Some (Num (Fin q))).

(** Every close is a finite number, and (second predicate) not zero. *)
Definition all_finite (close : list fval) : Prop :=
  Forall (fun x => is_finite x = true) close.

Definition all_nonzero (close : list fval) : Prop :=
  Forall (fun x => exists q, x = Fin q /\ ~ q == 0) close.

(** Sizes far from the limits of floating point: every close is a number of
    at most [10^50] in absolute value, and (second predicate) also of at
    least [10^-50].  With closes of these sizes no running sum of pandas'
    rolling mean and deviation overflows, and every daily return is a
    finite number whose square is one too. *)
Definition moderate_size : Q := inject_Z (10 ^ 50).

Definition all_moderate (close : list fval) : Prop :=
  Forall (fun x => exists q, x = Fin q /\ Qabs q <= moderate_size) close.

Definition all_moderate_nonzero (close : list fval) : Prop :=
  Forall (fun x => exists q, x = Fin q
                             /\ / moderate_size <= Qabs q <= moderate_size) close.

(** The change from [b] to [a]: [a / b - 1], undefined when one of them is
    missing. *)
Definition change (a b : cell) : fval :=
  match a, b with
  | Num x, Num y => fsub (fdiv x y) (Fin 1)
  | _, _ => NaN
  end.

(** A cell that the price branch repairs: a missing or out-of-range
    number. *)
Definition bad_price (cfg : Config) (c : cell) : Prop :=
  exists x, c = Num x /\ (isnan x = true \/ out_of_range cfg x = true).

(** The signal of a row, in the words of the specification: +1 when the
    short average is strictly above the long one, -1 when strictly below, 0
    otherwise (equal, or one of them undefined). *)
Definition crossover (short long : fval) : fval :=
  if fgt short long then Fin 1
  else if flt short long then Fin (-1)
  else Fin 0.

(** The three columns in the frame of one symbol. *)
Definition signal_columns (cfg : Config) (f : DataFrame) : Prop :=
  exists short long,
    get_col (ma_name (ma_short_window cfg)) f = Some (nums short)
    /\ get_col (ma_name (ma_long_window cfg)) f = Some (nums long)
    /\ List.length short = List.length long
    /\ get_col "MA_Signal" f = Some (nums (map2 crossover short long)).

(** The order of the sorted pairs of a key and a position. *)
Definition by_key (p q : cell * nat) : Prop := key_leb (fst p) (fst q) = true.

(** Ascending order of a column, missing values last. *)
Definition ascending (col : column) : Prop :=
  Sorted (fun a b => key_leb a b = true) col.

(** The table that [calculate] works on: its non-empty inputs, stacked. *)
Definition combined (csv_data json_data api_data : option DataFrame) : DataFrame :=
  concat (given csv_data ++ given json_data ++ given api_data)%list.

(** ** Sample tables *)

Definition num (z : Z) : cell := Num (Fin (inject_Z z)).

(** Two symbols; the second row is inconsistent, the first row of the second
    symbol has no close, its second row an absurd one. *)
Definition sample_prices : DataFrame :=
  [("Date", [Date 1; Date 2; Date 1; Date 2]);
   ("Symbol", [Str "AAA"; Str "AAA"; Str "BBB"; Str "BBB"]);
   ("Open", [num 10; num 11; num 20; num 21]);
   ("High", [num 12; num 9; num 22; num 23]);
   ("Low", [num 9; num 8; num 19; num 20]);
   ("Close", [num 11; num 10; Num NaN; num 999999]);
   ("Volume", [num 100; num (-50); num 3; num 4]);
   ("Daily_Return",
    [Num NaN; Num (Fin (1 # 10)); Num (Fin 1); Num (Fin (- (6 # 10)))])].

(** One row, whose close is above the highest price allowed. *)
Definition lone_spike : DataFrame :=
  [("Date", [Date 1]); ("Symbol", [Str "AAA"]); ("Open", [num 10]);
   ("High", [num 12]); ("Low", [num 9]); ("Close", [num 999999])].

(** A price table without a High column. *)
Definition no_high : DataFrame :=
  [("Date", [Date 1]); ("Symbol", [Str "AAA"]); ("Open", [num 10]);
   ("Low", [num 9]); ("Close", [num 11])].

(** Prices with returns, none of them extreme. *)
Definition calm_prices : DataFrame :=
  [("Date", [Date 1; Date 2]);
   ("Symbol", [Str "AAA"; Str "AAA"]);
   ("Open", [num 10; num 11]);
   ("High", [num 12; num 12]);
   ("Low", [num 9; num 10]);
   ("Close", [num 10; num 11]);
   ("Daily_Return", [Num NaN; Num (Fin (1 # 10))])].

(** A clean table with one extreme return. *)
Definition clean_prices_sample : DataFrame :=
  [("Date", [Date 1; Date 2]);
   ("Symbol", [Str "AAA"; Str "AAA"]);
   ("Open", [num 10; num 20]);
   ("High", [num 12; num 22]);
   ("Low", [num 9; num 19]);
   ("Close", [num 10; num 20]);
   ("Volume", [num 100; num 0]);
   ("Daily_Return", [Num (Fin 0); Num (Fin 1)])].

(** Windows of 2 and 3 rows. *)
Definition small_windows : Config := {|
  ma_short_window := 2;
  ma_long_window := 3;
  volatility_window := 2;
  min_stock_price := 1 # 100;
  max_stock_price := 100000;
  max_missing_percentage := 1 # 10
|}.

(** Three days of one symbol. *)
Definition three_days : DataFrame :=
  [("Date", [Date 1; Date 2; Date 3]);
   ("Symbol", [Str "AAA"; Str "AAA"; Str "AAA"]);
   ("Close", [num 10; num 11; num 12])].

(** Fifteen days without any price change. *)
Definition flat_days : DataFrame :=
  [("Date", map Date [1; 2; 3; 4; 5; 6; 7; 8; 9; 10; 11; 12; 13; 14; 15]%Z);
   ("Symbol", repeat (Str "AAA") 15);
   ("Close", repeat (num 50) 15)].

(** Fifteen days of rising prices. *)
Definition rising_days : DataFrame :=
  [("Date", map Date [1; 2; 3; 4; 5; 6; 7; 8; 9; 10; 11; 12; 13; 14; 15]%Z);
   ("Symbol", repeat (Str "AAA") 15);
   ("Close", map num [1; 2; 3; 4; 5; 6; 7; 8; 9; 10; 11; 12; 13; 14; 15]%Z)].

(** Two symbols, rows not in date order. *)
Definition two_symbols : DataFrame :=
  [("Date", [Date 3; Date 1; Date 2; Date 1; Date 4]);
   ("Symbol", [Str "AAA"; Str "AAA"; Str "AAA"; Str "BBB"; Str "AAA"]);
   ("Close", [num 12; num 10; num 11; num 5; num 11])].

(** Thirteen monthly values of one indicator, 100 to 112. *)
Definition thirteen_months : DataFrame :=
  [("Date", map Date [1; 2; 3; 4; 5; 6; 7; 8; 9; 10; 11; 12; 13]%Z);
   ("GDP_Growth",
    map num [100; 101; 102; 103; 104; 105; 106; 107; 108; 109; 110; 111; 112]%Z)].

(** A table with an interest rate only. *)
Definition rates_only : DataFrame :=
  [("Date", [Date 1; Date 2]); ("Interest_Rate", [num 3; num 4])].

(** Two symbols; the only row of the first has no close. *)
Definition leading_gap : DataFrame :=
  [("Date", [Date 1; Date 1; Date 2]);
   ("Symbol", [Str "AAA"; Str "BBB"; Str "BBB"]);
   ("Open", [num 10; num 20; num 21]);
   ("High", [num 12; num 22; num 23]);
   ("Low", [num 9; num 19; num 20]);
   ("Close", [Num NaN; num 20; num 21]);
   ("Volume", [num 100; num 3; num 4])].

(** Two dates that occur twice, and an indicator given as text. *)
Definition repeated_dates : DataFrame :=
  [("Date", [Date 2; Date 1; Date 2; Date 1]);
   ("GDP_Growth", [num 3; num 1; num 4; num 2]);
   ("Note", [Str "c"; Str "a"; Str "d"; Str "b"])].

Definition text_indicator : DataFrame :=
  [("Date", [Date 2; Date 1]);
   ("Inflation_Rate", [Str "high"; Str "low"])].


(** * Further vocabulary *)

(** What the indicator branch makes of one numeric column: values outside
    [[lo, hi]] become NaN and the column is filled forward only. *)
Definition refilled (lo hi : Q) (xs : list fval) : column :=
  if any (map (fun x => flt x (Fin lo) || fgt x (Fin hi)) xs)
  then ffill (nums (map (fun x => if flt x (Fin lo) || fgt x (Fin hi)
                                  then NaN else x) xs))
  else nums xs.

(** [x] is missing, or a number of [[lo, hi]]. *)
Definition within (lo hi : Q) (x : fval) : Prop :=
  x = NaN \/ exists q, x = Fin q /\ lo <= q <= hi.

(** The three indicators that [validate] bounds, with their bounds. *)
Definition indicator_ranges : list (string * (Q * Q)) :=
  [("GDP_Growth", (-10, 15)); ("Unemployment_Rate", (0, 30));
   ("Inflation_Rate", (-5, 25))].

(** The table that [DBLoader.load] chooses for a frame (the choice only; the
    write is outside the model). *)
Definition table_name (data : DataFrame) : string :=
  if is_price_shaped data then "stock_prices"
  else if is_indicator_shaped data then "economic_indicators"
  else "financial_data".

(** The volume that is left of [x]. *)
Definition clamp_volume (x : fval) : fval :=
  if flt x (Fin 0) then Fin 0 else x.

(** Monthly indicators; the first growth figure is absurd. *)
Definition sample_indicators : DataFrame :=
  [("Date", [Date 1; Date 2; Date 3]);
   ("GDP_Growth", [num 40; num 2; num (-20)]);
   ("Unemployment_Rate", [num 5; Num NaN; num 6])].

(** A table of neither shape. *)
Definition sample_other : DataFrame :=
  [("Date", [Date 1; Date 2]); ("Rate", [num 3; Num NaN])].

(** [x] is a number of [[lo, hi]]. *)
Definition bounded (lo hi : Q) (x : fval) : Prop :=
  exists q, x = Fin q /\ lo <= q <= hi.

(** Three days with a gap in the closes. *)
Definition gap_days : DataFrame :=
  [("Date", [Date 1; Date 2; Date 3]);
   ("Symbol", [Str "AAA"; Str "AAA"; Str "AAA"]);
   ("Close", [num 10; Num NaN; num 12])].

(** Twenty-one days of rising prices. *)
Definition many_days : DataFrame :=
  [("Date", map (fun n => Date (Z.of_nat n)) (seq 1 21));
   ("Symbol", repeat (Str "AAA") 21);
   ("Close", map (fun n => num (Z.of_nat n)) (seq 1 21))].

(** The rows of a symbol, and the rows that have a symbol at all. *)
Definition rows_of (symbol : cell) (symbols : column) : nat :=
  List.length (filter (fun c => cell_eqb c symbol) symbols).

Definition rows_with_symbol (symbols : column) : nat :=
  List.length (filter (fun c => negb (isnull c)) symbols).

(** Two symbols and a row without one. *)
Definition missing_symbol : DataFrame :=
  [("Date", [Date 2; Date 1; Date 1; Date 3]);
   ("Symbol", [Str "AAA"; Str "AAA"; Num NaN; Str "BBB"]);
   ("Close", [num 11; num 10; num 7; num 5])].

(** Prices without dates. *)
Definition no_dates : DataFrame :=
  [("Symbol", [Str "AAA"; Str "AAA"]);
   ("Close", [num 10; num 11])].

(** An input of [calculate] that is given is rectangular. *)
Definition wf_input (data : option DataFrame) : Prop :=
  match data with
  | Some df => wf df
  | None => True
  end.

(** * The task scheduler (orchestrator.py) *)

(** What [Task.execute] writes to the log, without the texts and times. *)
Inductive event : Type :=
| Executing (name : string)
| Completed (name : string)
| Failed (name : string).

Section Scheduler.

(** The [*args, **kwargs] that [run] hands to every task, and what a task
    returns. *)
Variables Args Value : Type.

(** [Task]; [func] may raise, whatever it raises is an [error] here. *)
Record Task : Type := mkTask {
  task_name : string;
  func : Args -> result Value;
  dependencies : list string;
  completed : bool;
  task_result : option Value
}.

(** [Task(name, func, dependencies)] *)
Definition new_task (name : string) (f : Args -> result Value) (deps : list string)
  : Task :=
  mkTask name f deps false None.

(** [SimpleScheduler.tasks], a dict in insertion order, together with the
    log. *)
Record State : Type := mkState {
  tasks : list (string * Task);
  log : list event
}.

(** [SimpleScheduler()] *)
Definition new_scheduler : State := mkState [] [].

(** [self.tasks[key]] *)
Fixpoint find_task (key : string) (ts : list (string * Task)) : option Task :=
  match ts with
  | [] => None
  | (k, t) :: rest => if String.eqb k key then Some t else find_task key rest
  end.

(** [self.tasks[key] = task] *)
Fixpoint put_task (key : string) (task : Task) (ts : list (string * Task))
  : list (string * Task) :=
  match ts with
  | [] => [(key, task)]
  | (k, t) :: rest =>
      if String.eqb k key then (k, task) :: rest
      else (k, t) :: put_task key task rest
  end.

Definition add_task (task : Task) (st : State) : State :=
  mkState (put_task (task_name task) task (tasks st)) (log st).

(** The task after [self.result = ...; self.completed = True]. *)
Definition finish (v : Value) (t : Task) : Task :=
  mkTask (task_name t) (func t) (dependencies t) true (Some v).

(** [Task.execute] on the task that the dict holds under [key]: the task is
    an object shared with the dict, so what [execute] sets is seen there.
    When [func] raises, the task is left as it was. *)
Definition execute (key : string) (task : Task) (args : Args) (st : State)
  : State * result Value :=
  let started := (log st ++ [Executing (task_name task)])%list in
  match func task args with
  | Ok v =>
      (mkState (put_task key (finish v task) (tasks st))
               (started ++ [Completed (task_name task)])%list,
       Ok v)
  | Err e =>
      (mkState (tasks st) (started ++ [Failed (task_name task)])%list, Err e)
  end.

(** The loop over [task.dependencies]; [rec] is [self.run], whose result is
    dropped.  [None]: the recursion did not end. *)
Fixpoint run_dependencies
         (rec : string -> Args -> State -> option (State * result Value))
         (deps : list string) (args : Args) (st : State)
  : option (State * result unit) :=
  match deps with
  | [] => Some (st, Ok tt)
  | dep_name :: rest =>
      match find_task dep_name (tasks st) with
      | None => Some (st, Err ValueError)
      | Some dep_task =>
          if completed dep_task then run_dependencies rec rest args st
          else
            match rec dep_name args st with
            | None => None
            | Some (st', Err e) => Some (st', Err e)
            | Some (st', Ok _) => run_dependencies rec rest args st'
            end
      end
  end.

(** [SimpleScheduler.run], with at most [fuel] nested calls: [None] when
    they do not suffice (Python would exceed its recursion limit). *)
Fixpoint run (fuel : nat) (entry_point : string) (args : Args) (st : State)
  : option (State * result Value) :=
  match fuel with
  | O => None
  | S fuel' =>
      match find_task entry_point (tasks st) with
      | None => Some (st, Err ValueError)
      | Some task =>
          match run_dependencies (run fuel') (dependencies task) args st with
          | None => None
          | Some (st', Err e) => Some (st', Err e)
          | Some (st', Ok _) => Some (execute entry_point task args st')
          end
      end
  end.

(** The functions behind the ten tasks of the pipeline. *)
Record Components : Type := mkComponents {
  extract_csv : Args -> result Value;
  extract_json : Args -> result Value;
  extract_api : Args -> result Value;
  transform_csv_data : Args -> result Value;
  transform_json_data : Args -> result Value;
  transform_api_data : Args -> result Value;
  calculate_metrics : Args -> result Value;
  validate_data : Args -> result Value;
  load_to_db : Args -> result Value;
  export_to_csv : Args -> result Value
}.

(** [Orchestrator._setup_tasks] *)
Definition setup_tasks (c : Components) (st : State) : State :=
  let st := add_task (new_task "extract_csv" (extract_csv c) []) st in
  let st := add_task (new_task "extract_json" (extract_json c) []) st in
  let st := add_task (new_task "extract_api" (extract_api c) []) st in
  let st := add_task (new_task "transform_csv_data" (transform_csv_data c)
                        ["extract_csv"]) st in
  let st := add_task (new_task "transform_json_data" (transform_json_data c)
                        ["extract_json"]) st in
  let st := add_task (new_task "transform_api_data" (transform_api_data c)
                        ["extract_api"]) st in
  let st := add_task (new_task "calculate_metrics" (calculate_metrics c)
                        ["transform_csv_data"; "transform_json_data";
                         "transform_api_data"]) st in
  let st := add_task (new_task "validate_data" (validate_data c)
                        ["calculate_metrics"]) st in
  let st := add_task (new_task "load_to_db" (load_to_db c) ["validate_data"]) st in
  add_task (new_task "export_to_csv" (export_to_csv c) ["validate_data"]) st.

(** ** Vocabulary *)

(** [t'] is [t] at a later time: only [completed] and the result change,
    and [completed] is never reset. *)
Definition same_task (t t' : Task) : Prop :=
  task_name t' = task_name t
  /\ func t' = func t
  /\ dependencies t' = dependencies t
  /\ (completed t = true -> completed t' = true).

(** [st'] is a later state of [st]: the same tasks under the same keys, and
    a log that has only grown. *)
Definition later (st st' : State) : Prop :=
  (forall key,
      match find_task key (tasks st), find_task key (tasks st') with
      | Some t, Some t' => same_task t t'
      | None, None => True
      | _, _ => False
      end)
  /\ exists new, log st' = (log st ++ new)%list.

Definition done (key : string) (st : State) : Prop :=
  exists t, find_task key (tasks st) = Some t /\ completed t = true.

Definition pending (name : string) (st : State) : Prop :=
  exists key t, find_task key (tasks st) = Some t
                /\ task_name t = name /\ completed t = false.

(** Every completed task has its dependencies completed. *)
Definition settled (st : State) : Prop :=
  forall key t,
    find_task key (tasks st) = Some t -> completed t = true ->
    Forall (fun d => done d st) (dependencies t).

(** The dependencies of every task exist and come earlier in some order. *)
Definition ranked (rank : string -> nat) (st : State) : Prop :=
  forall key t,
    find_task key (tasks st) = Some t ->
    Forall (fun d => (rank d < rank key)%nat /\ find_task d (tasks st) <> None)
           (dependencies t).

(** No task raises on [args]. *)
Definition all_succeed (args : Args) (st : State) : Prop :=
  forall key t, find_task key (tasks st) = Some t -> exists v, func t args = Ok v.

End Scheduler.

Arguments task_name {Args Value}.
Arguments func {Args Value}.
Arguments dependencies {Args Value}.
Arguments completed {Args Value}.
Arguments task_result {Args Value}.
Arguments new_task {Args Value}.
Arguments mkState {Args Value}.
Arguments tasks {Args Value}.
Arguments log {Args Value}.
Arguments new_scheduler {Args Value}.
Arguments find_task {Args Value}.
Arguments put_task {Args Value}.
Arguments add_task {Args Value}.
Arguments finish {Args Value}.
Arguments execute {Args Value}.
Arguments run_dependencies {Args Value}.
Arguments run {Args Value}.
Arguments setup_tasks {Args Value}.
Arguments same_task {Args Value}.
Arguments later {Args Value}.
Arguments done {Args Value}.
Arguments pending {Args Value}.
Arguments settled {Args Value}.
Arguments ranked {Args Value}.
Arguments all_succeed {Args Value}.

(** Components that count: every task returns its argument plus one. *)
Definition counting : Components nat nat :=
  let f := fun n : nat => Ok (S n) in
  mkComponents nat nat f f f f f f f f f f.

(** Components whose JSON extractor raises. *)
Definition json_fails : Components nat nat :=
  let f := fun n : nat => Ok (S n) in
  mkComponents nat nat f (fun _ => Err (KeyError "json")) f f f f f f f f.

(** The order of the pipeline's tasks. *)
Definition pipeline_rank (name : string) : nat :=
  if String.eqb name "export_to_csv" then 4
  else if String.eqb name "load_to_db" then 4
  else if String.eqb name "validate_data" then 3
  else if String.eqb name "calculate_metrics" then 2
  else if String.prefix "transform" name then 1
  else 0.
(** * Properties *)

(** ** The model on an example *)

(** The inconsistent second row gets its own maximum as High, the close that
    is missing and the one that is out of range are filled from the row above
    (another symbol), the negative volume becomes 0, the first return is
    filled backward, and the two extreme returns are flagged. *)
Example validate_sample_prices :
  validate default_config (Some sample_prices)
  = Ok [("Date", [Date 1; Date 2; Date 1; Date 2]);
        ("Symbol", [Str "AAA"; Str "AAA"; Str "BBB"; Str "BBB"]);
        ("Open", [num 10; num 11; num 20; num 21]);
        ("High", [num 12; num 11; num 22; num 23]);
        ("Low", [num 9; num 8; num 10; num 10]);
        ("Close", [num 11; num 10; num 10; num 10]);
        ("Volume", [num 100; num 0; num 3; num 4]);
        ("Daily_Return",
         [Num (Fin (1 # 10)); Num (Fin (1 # 10)); Num (Fin 1);
          Num (Fin (- (6 # 10)))]);
        ("Extreme_Return_Flag", [Flag false; Flag false; Flag true; Flag true])].
Proof. reflexivity. Qed.

(** Rows are grouped by symbol and sorted by date; the averages over 2 and 3
    rows give the signal. *)
Example calculate_two_symbols :
  exists out,
    calculate small_windows sqrt_approx (Some two_symbols) None None = Ok out
    /\ get_col "Date" out = Some [Date 1; Date 2; Date 3; Date 4; Date 1]
    /\ get_col "Close" out = Some [num 10; num 11; num 12; num 11; num 5]
    /\ get_col "MA_Signal" out = Some [num 0; num 0; num 1; num 1; num 0].
Proof.
  eexists. split; [vm_compute; reflexivity|]. repeat split; reflexivity.
Qed.

(** ** Frames *)

Lemma has_col_get (name : string) (df : DataFrame) :
  has_col name df = match get_col name df with Some _ => true | None => false end.
Proof.
  induction df as [|[n c] rest IH]; simpl; [reflexivity|].
  destruct (String.eqb n name); simpl; [reflexivity | exact IH].
Qed.

Lemma has_col_true (name : string) (df : DataFrame) :
  has_col name df = true -> exists c, get_col name df = Some c.
Proof.
  rewrite has_col_get. destruct (get_col name df) as [c|]; [eauto | discriminate].
Qed.

Lemma get_set_same (name : string) (col : column) (df : DataFrame) :
  get_col name (set_col name col df) = Some col.
Proof.
  induction df as [|[n c] rest IH]; simpl.
  - now rewrite String.eqb_refl.
  - destruct (String.eqb n name) eqn:E; simpl; rewrite E; auto.
Qed.

Lemma get_set_other (name other : string) (col : column) (df : DataFrame) :
  String.eqb name other = false ->
  get_col other (set_col name col df) = get_col other df.
Proof.
  intros Hne. induction df as [|[n c] rest IH]; simpl.
  - now rewrite Hne.
  - destruct (String.eqb n name) eqn:E; simpl.
    + apply String.eqb_eq in E. subst n. now rewrite Hne.
    + destruct (String.eqb n other); auto.
Qed.

Lemma set_col_same_id (name : string) (col : column) (df : DataFrame) :
  get_col name df = Some col -> set_col name col df = df.
Proof.
  induction df as [|[n c] rest IH]; simpl; [discriminate|].
  destruct (String.eqb n name); intros H.
  - now inversion H.
  - now rewrite IH.
Qed.

Lemma set_col_twice (name : string) (c1 c2 : column) (df : DataFrame) :
  set_col name c2 (set_col name c1 df) = set_col name c2 df.
Proof.
  induction df as [|[n c] rest IH]; simpl.
  - now rewrite String.eqb_refl.
  - destruct (String.eqb n name) eqn:E; simpl; rewrite E; [reflexivity|].
    now rewrite IH.
Qed.

Lemma has_set_other (name other : string) (col : column) (df : DataFrame) :
  String.eqb name other = false ->
  has_col other (set_col name col df) = has_col other df.
Proof.
  intros H. now rewrite !has_col_get, get_set_other.
Qed.

Lemma has_set_same (name : string) (col : column) (df : DataFrame) :
  has_col name (set_col name col df) = true.
Proof. now rewrite has_col_get, get_set_same. Qed.

Lemma wf_get (df : DataFrame) (name : string) (col : column) :
  wf df -> get_col name df = Some col -> List.length col = nrows df.
Proof.
  unfold wf. generalize (nrows df) as k. intros k Hwf.
  induction Hwf as [|[n c] rest Hc _ IH]; simpl; [discriminate|].
  destruct (String.eqb n name); intros H; [now inversion H; subst | auto].
Qed.

Lemma nrows_set_col (name : string) (col : column) (df : DataFrame) :
  List.length col = nrows df -> nrows (set_col name col df) = nrows df.
Proof.
  destruct df as [|[n c] rest]; simpl; [auto|].
  destruct (String.eqb n name); simpl; auto.
Qed.

Lemma Forall_set_col (P : string * column -> Prop) (name : string)
      (col : column) (df : DataFrame) :
  Forall P df -> (forall n, P (n, col)) -> Forall P (set_col name col df).
Proof.
  intros Hdf Hcol. induction Hdf as [|[n c] rest Hc Hrest IH]; simpl.
  - constructor; [apply Hcol | constructor].
  - destruct (String.eqb n name); constructor; auto.
Qed.

Lemma wf_set_col (name : string) (col : column) (df : DataFrame) :
  wf df -> List.length col = nrows df -> wf (set_col name col df).
Proof.
  intros Hwf Hlen. unfold wf. rewrite (nrows_set_col name col df Hlen).
  apply Forall_set_col; [exact Hwf | intros n; exact Hlen].
Qed.

(** ** Forward and backward fill *)

Section FillFacts.

Context {A : Type} (null : A -> bool).

Lemma length_ffill_from (last : option A) (xs : list A) :
  List.length (ffill_from null last xs) = List.length xs.
Proof.
  revert last. induction xs as [|x rest IH]; intros last; simpl; [reflexivity|].
  destruct (null x); [destruct last|]; simpl; now rewrite IH.
Qed.

Lemma length_bfill_gen (xs : list A) :
  List.length (bfill_gen null xs) = List.length xs.
Proof.
  induction xs as [|x rest IH]; simpl; [reflexivity|].
  destruct (null x); [destruct (bfill_gen null rest) eqn:E|]; simpl in *; congruence.
Qed.

Lemma ffill_from_present (last : option A) (xs : list A) :
  Forall (present null) xs -> ffill_from null last xs = xs.
Proof.
  intros H. revert last. induction H as [|x rest Hx _ IH]; intros last; simpl.
  - reflexivity.
  - unfold present in Hx. rewrite Hx. now rewrite IH.
Qed.

Lemma bfill_gen_present (xs : list A) :
  Forall (present null) xs -> bfill_gen null xs = xs.
Proof.
  induction 1 as [|x rest Hx _ IH]; simpl; [reflexivity|].
  unfold present in Hx. now rewrite Hx, IH.
Qed.

Lemma ffill_from_some (v : A) (xs : list A) :
  (present null) v -> Forall (present null) (ffill_from null (Some v) xs).
Proof.
  revert v. induction xs as [|x rest IH]; intros v Hv; simpl; [constructor|].
  destruct (null x) eqn:E; constructor; auto.
Qed.

(** Once a column holds one value, filling forward then backward leaves no
    gap. *)
Lemma fill_both_present (xs : list A) :
  Exists (present null) xs -> Forall (present null) (bfill_gen null (ffill_from null None xs)).
Proof.
  induction xs as [|x rest IH]; intros H; [inversion H|].
  simpl. destruct (null x) eqn:E.
  - assert (Hrest : Exists (present null) rest).
    { inversion H as [? ? Hx|]; subst; [unfold present in Hx; congruence | assumption]. }
    specialize (IH Hrest). simpl. rewrite E.
    destruct (bfill_gen null (ffill_from null None rest)) as [|v tl] eqn:Eb.
    + apply (f_equal (@List.length A)) in Eb.
      rewrite length_bfill_gen, length_ffill_from in Eb.
      destruct rest; [inversion Hrest | discriminate].
    + inversion IH; subst. constructor; [assumption | constructor; assumption].
  - rewrite bfill_gen_present; constructor; auto using ffill_from_some.
Qed.

Lemma in_ffill_from (last : option A) (xs : list A) (y : A) :
  In y (ffill_from null last xs) -> In y xs \/ last = Some y.
Proof.
  revert last. induction xs as [|x rest IH]; intros last; simpl; [tauto|].
  destruct (null x); [destruct last as [v|]|]; simpl; intros [H|H]; subst; auto.
  - destruct (IH _ H); auto.
  - destruct (IH _ H) as [|H']; auto.
  - destruct (IH _ H) as [|H']; auto. inversion H'; auto.
Qed.

Lemma in_bfill_gen (xs : list A) (y : A) :
  In y (bfill_gen null xs) -> In y xs.
Proof.
  induction xs as [|x rest IH]; simpl; [tauto|].
  destruct (null x); [destruct (bfill_gen null rest) as [|v tl] eqn:E|];
    simpl; intros [H|H]; subst; auto.
  - right. apply IH. now left.
Qed.

Lemma nth_ffill_from_present (last : option A) (xs : list A) (i : nat) (x : A) :
  nth_error xs i = Some x -> (present null) x ->
  nth_error (ffill_from null last xs) i = Some x.
Proof.
  revert last i. induction xs as [|y rest IH]; intros last [|i]; simpl;
    try discriminate.
  - intros H Hx. inversion H; subst. unfold present in Hx. now rewrite Hx.
  - intros H Hx. destruct (null y); [destruct last|]; simpl; auto.
Qed.

Lemma nth_bfill_gen_present (xs : list A) (i : nat) (x : A) :
  nth_error xs i = Some x -> (present null) x ->
  nth_error (bfill_gen null xs) i = Some x.
Proof.
  revert i. induction xs as [|y rest IH]; intros [|i]; simpl; try discriminate.
  - intros H Hx. inversion H; subst. unfold present in Hx. now rewrite Hx.
  - intros H Hx. specialize (IH _ H Hx).
    destruct (null y); [destruct (bfill_gen null rest)|]; simpl; auto.
Qed.

(** A gap that follows a value takes that value. *)
Lemma nth_ffill_from_gap (last : option A) (xs : list A) (i : nat) (v x : A) :
  nth_error xs i = Some v -> (present null) v ->
  nth_error xs (S i) = Some x -> null x = true ->
  nth_error (ffill_from null last xs) (S i) = Some v.
Proof.
  revert last i. induction xs as [|y rest IH]; intros last [|i]; simpl;
    try discriminate.
  - intros H Hv Hx Hn. inversion H; subst. unfold present in Hv. rewrite Hv.
    simpl. destruct rest as [|z rest']; [discriminate|].
    simpl in Hx. inversion Hx; subst. simpl. now rewrite Hn.
  - intros H Hv Hx Hn.
    destruct (null y); [destruct last|]; simpl; eapply IH; eauto.
Qed.

End FillFacts.

(** ** Columns of numbers *)

Lemma as_floats_nums (xs : list fval) : as_floats (nums xs) = Ok xs.
Proof. induction xs as [|x rest IH]; simpl; [reflexivity | now rewrite IH]. Qed.

Lemma as_floats_ok (col : column) (xs : list fval) :
  as_floats col = Ok xs -> col = nums xs.
Proof.
  revert xs. induction col as [|c rest IH]; simpl; intros xs H.
  - now inversion H.
  - destruct c; simpl in H; try discriminate.
    destruct (as_floats rest) as [ys|]; simpl in H; [|discriminate].
    inversion H; subst. simpl. now rewrite (IH ys).
Qed.

Lemma getnum_ok (name : string) (df : DataFrame) (xs : list fval) :
  getnum name df = Ok xs -> get_col name df = Some (nums xs).
Proof.
  unfold getnum. destruct (get_col name df) as [col|]; [|discriminate].
  intros H. now rewrite (as_floats_ok _ _ H).
Qed.

Lemma getnum_of_get (name : string) (df : DataFrame) (xs : list fval) :
  get_col name df = Some (nums xs) -> getnum name df = Ok xs.
Proof. unfold getnum. intros ->. apply as_floats_nums. Qed.

Lemma nums_inj (xs ys : list fval) : nums xs = nums ys -> xs = ys.
Proof.
  revert ys. induction xs as [|x xs IH]; intros [|y ys]; simpl; try discriminate; auto.
  intros H. inversion H. f_equal. auto.
Qed.

Lemma length_nums (xs : list fval) : List.length (nums xs) = List.length xs.
Proof. apply length_map. Qed.

Lemma loc_set_map {A : Type} (f : A -> bool) (v : A) (xs : list A) :
  loc_set (map f xs) v xs = map (fun x => if f x then v else x) xs.
Proof.
  unfold loc_set. induction xs as [|x rest IH]; simpl; [reflexivity | now rewrite IH].
Qed.

Lemma any_map_false {A : Type} (f : A -> bool) (xs : list A) :
  any (map f xs) = false -> Forall (fun x => f x = false) xs.
Proof.
  unfold any. induction xs as [|x rest IH]; simpl; [constructor|].
  intros H. apply orb_false_iff in H. destruct H. constructor; auto.
Qed.

Lemma any_map_true {A : Type} (f : A -> bool) (xs : list A) :
  any (map f xs) = true -> exists x, In x xs /\ f x = true.
Proof.
  unfold any. rewrite existsb_exists. intros [b [Hin Hb]]. subst b.
  apply in_map_iff in Hin. destruct Hin as [x [Hx Hin]]; eauto.
Qed.

Lemma Forall_any_false {A : Type} (f : A -> bool) (xs : list A) :
  Forall (fun x => f x = false) xs -> any (map f xs) = false.
Proof.
  unfold any. induction 1 as [|x rest Hx _ IH]; simpl; [reflexivity|].
  now rewrite Hx, IH.
Qed.

(** ** Whole-frame fills *)

Lemma get_col_df_ffill (name : string) (df : DataFrame) :
  get_col name (df_ffill df) = option_map ffill (get_col name df).
Proof.
  induction df as [|[n c] rest IH]; simpl; [reflexivity|].
  destruct (String.eqb n name); simpl; auto.
Qed.

Lemma get_col_df_bfill (name : string) (df : DataFrame) :
  get_col name (df_bfill df) = option_map bfill (get_col name df).
Proof.
  induction df as [|[n c] rest IH]; simpl; [reflexivity|].
  destruct (String.eqb n name); simpl; auto.
Qed.

Lemma get_col_gap_fill (name : string) (df : DataFrame) :
  get_col name (df_bfill (df_ffill df))
  = option_map (fun c => bfill (ffill c)) (get_col name df).
Proof.
  rewrite get_col_df_bfill, get_col_df_ffill. now destruct (get_col name df).
Qed.

Lemma has_col_gap_fill (name : string) (df : DataFrame) :
  has_col name (df_bfill (df_ffill df)) = has_col name df.
Proof. rewrite !has_col_get, get_col_gap_fill. now destruct (get_col name df). Qed.

Lemma length_fill (col : column) : List.length (bfill (ffill col)) = List.length col.
Proof. unfold bfill, ffill. now rewrite length_bfill_gen, length_ffill_from. Qed.

Lemma nrows_gap_fill (df : DataFrame) : nrows (df_bfill (df_ffill df)) = nrows df.
Proof. destruct df as [|[n c] rest]; simpl; [reflexivity | apply length_fill]. Qed.

Lemma wf_gap_fill (df : DataFrame) : wf df -> wf (df_bfill (df_ffill df)).
Proof.
  unfold wf. rewrite nrows_gap_fill. generalize (nrows df) as k. intros k H.
  unfold df_bfill, df_ffill. rewrite map_map. apply Forall_map. simpl.
  eapply Forall_impl; [|exact H]. intros [n c]; simpl. now rewrite length_fill.
Qed.

Lemma gap_fill_present (df : DataFrame) :
  Forall (fun p => Forall (present isnull) (snd p)) df ->
  df_bfill (df_ffill df) = df.
Proof.
  induction 1 as [|[n c] rest Hc _ IH]; simpl; [reflexivity|].
  simpl in Hc. unfold bfill, ffill.
  rewrite (ffill_from_present isnull None c Hc), (bfill_gen_present isnull c Hc).
  f_equal. exact IH.
Qed.

(** ** The price-range loop *)

Section ValidatorFacts.

Variable cfg : Config.

Lemma repair_price_col_ok (name : string) (df df' : DataFrame) :
  repair_price_col cfg name df = Ok df' ->
  exists xs, getnum name df = Ok xs /\ df' = set_col name (repaired cfg xs) df.
Proof.
  unfold repair_price_col. destruct (getnum name df) as [xs|e] eqn:E; simpl;
    [|discriminate].
  intros H. exists xs. split; [reflexivity|]. unfold repaired.
  rewrite loc_set_map in H.
  destruct (any (map (out_of_range cfg) xs)); inversion H; subst; [reflexivity|].
  symmetry. apply set_col_same_id. now apply getnum_ok.
Qed.

Lemma length_repaired (xs : list fval) :
  List.length (repaired cfg xs) = List.length xs.
Proof.
  unfold repaired. destruct (any _).
  - now rewrite length_fill, length_nums, length_map.
  - apply length_nums.
Qed.

Lemma repair_price_cols_get (names : list string) (df df' : DataFrame) :
  NoDup names ->
  repair_price_cols cfg names df = Ok df' ->
  (forall n, In n names ->
     exists xs, getnum n df = Ok xs /\ get_col n df' = Some (repaired cfg xs))
  /\ (forall n, ~ In n names -> get_col n df' = get_col n df).
Proof.
  intros Hnd. revert df. induction Hnd as [|name rest Hnotin Hnd IH]; intros df; simpl.
  - intros H. inversion H; subst. split; [intros n []|reflexivity].
  - destruct (repair_price_col cfg name df) as [df1|e] eqn:E1; simpl; [|discriminate].
    intros H. destruct (repair_price_col_ok _ _ _ E1) as [xs [Hxs Hdf1]].
    destruct (IH _ H) as [IHin IHout]. split.
    + intros n [Hn|Hn].
      * subst n. exists xs. split; [assumption|].
        rewrite (IHout name Hnotin), Hdf1. apply get_set_same.
      * destruct (IHin n Hn) as [ys [Hys Hget]]. exists ys. split; [|assumption].
        assert (Hne : String.eqb name n = false).
        { apply String.eqb_neq. intros ->. contradiction. }
        unfold getnum in *. rewrite Hdf1, (get_set_other _ _ _ _ Hne) in Hys.
        exact Hys.
    + intros n Hn. rewrite IHout by tauto. rewrite Hdf1.
      apply get_set_other. apply String.eqb_neq. intros ->. apply Hn. now left.
Qed.

Lemma repair_price_cols_has (names : list string) (df df' : DataFrame) (n : string) :
  repair_price_cols cfg names df = Ok df' -> has_col n df' = has_col n df.
Proof.
  revert df. induction names as [|name rest IH]; intros df; simpl.
  - intros H. now inversion H.
  - destruct (repair_price_col cfg name df) as [df1|e] eqn:E1; simpl; [|discriminate].
    intros H. rewrite (IH _ H).
    destruct (repair_price_col_ok _ _ _ E1) as [xs [Hxs ->]].
    destruct (String.eqb name n) eqn:En.
    + apply String.eqb_eq in En. subst n. rewrite has_set_same.
      rewrite has_col_get, (getnum_ok _ _ _ Hxs). reflexivity.
    + now apply has_set_other.
Qed.

Lemma repair_price_cols_nrows (names : list string) (df df' : DataFrame) :
  wf df -> repair_price_cols cfg names df = Ok df' ->
  wf df' /\ nrows df' = nrows df.
Proof.
  revert df. induction names as [|name rest IH]; intros df Hwf; simpl.
  - intros H. inversion H; subst. auto.
  - destruct (repair_price_col cfg name df) as [df1|e] eqn:E1; simpl; [|discriminate].
    intros H. destruct (repair_price_col_ok _ _ _ E1) as [xs [Hxs Hdf1]].
    assert (Hlen : List.length (repaired cfg xs) = nrows df).
    { rewrite length_repaired, <- length_nums.
      apply (wf_get df name); [assumption | now apply getnum_ok]. }
    assert (Hwf1 : wf df1) by (subst df1; now apply wf_set_col).
    destruct (IH _ Hwf1 H) as [Hwf' Hn]. split; [assumption|].
    rewrite Hn, Hdf1. now apply nrows_set_col.
Qed.

Lemma repair_prices_has (df mid : DataFrame) (n : string) :
  repair_prices cfg df = Ok mid -> has_col n mid = has_col n df.
Proof.
  unfold repair_prices. intros H.
  rewrite (repair_price_cols_has _ _ _ n H). apply has_col_gap_fill.
Qed.

Lemma repair_prices_nrows (df mid : DataFrame) :
  wf df -> repair_prices cfg df = Ok mid -> wf mid /\ nrows mid = nrows df.
Proof.
  unfold repair_prices. intros Hwf H.
  destruct (repair_price_cols_nrows _ _ _ (wf_gap_fill _ Hwf) H) as [Hw Hn].
  split; [assumption|]. now rewrite Hn, nrows_gap_fill.
Qed.

(** The OHLC step raises when one of the four columns is absent. *)
Lemma repair_ohlc_needs (df df' : DataFrame) :
  repair_ohlc df = Ok df' ->
  has_col "Open" df = true /\ has_col "High" df = true
  /\ has_col "Low" df = true /\ has_col "Close" df = true.
Proof.
  unfold repair_ohlc. rewrite !has_col_get. unfold getnum.
  destruct (get_col "High" df); [|discriminate].
  destruct (get_col "Low" df); [|simpl; destruct (as_floats _); discriminate].
  destruct (get_col "Open" df);
    [|simpl; destruct (as_floats _); simpl; [destruct (as_floats _)|]; discriminate].
  destruct (get_col "Close" df); [tauto|].
  simpl. destruct (as_floats _); simpl; [|discriminate].
  destruct (as_floats _); simpl; [|discriminate].
  destruct (as_floats _); discriminate.
Qed.

Lemma validate_prices_needs (df out : DataFrame) :
  validate_prices cfg df = Ok out ->
  has_col "Open" df = true /\ has_col "High" df = true
  /\ has_col "Low" df = true /\ has_col "Close" df = true.
Proof.
  unfold validate_prices.
  destruct (repair_prices cfg df) as [mid|e] eqn:E1; simpl; [|discriminate].
  destruct (repair_ohlc mid) as [d2|e] eqn:E2; simpl; [|discriminate].
  intros _. destruct (repair_ohlc_needs _ _ E2) as [H1 [H2 [H3 H4]]].
  rewrite <- !(repair_prices_has df mid) by assumption. tauto.
Qed.

End ValidatorFacts.

(** ** Comparisons of finite values *)

Lemma Qlt_bool_true (x y : Q) : Qlt_bool x y = true <-> x < y.
Proof.
  unfold Qlt_bool. rewrite negb_true_iff. split.
  - intros H. apply Qnot_le_lt. intros Hle. apply Qle_bool_iff in Hle. congruence.
  - intros H. destruct (Qle_bool y x) eqn:E; [|reflexivity].
    apply Qle_bool_iff in E. exfalso. exact (Qlt_not_le _ _ H E).
Qed.

Lemma Qlt_bool_false (x y : Q) : Qlt_bool x y = false <-> y <= x.
Proof.
  unfold Qlt_bool. rewrite negb_false_iff. apply Qle_bool_iff.
Qed.

Section PriceFacts.

Variable cfg : Config.

Lemma valid_fin (x : fval) :
  valid cfg x = true -> exists q, x = Fin q /\ in_range cfg q.
Proof.
  unfold valid, out_of_range, fgt, in_range.
  destruct x as [| |q|]; simpl; try discriminate.
  rewrite negb_true_iff, orb_false_iff, !Qlt_bool_false.
  intros [H1 H2]. exists q. auto.
Qed.

Lemma fin_valid (q : Q) : in_range cfg q -> valid cfg (Fin q) = true.
Proof.
  unfold valid, out_of_range, fgt, in_range. simpl. intros [H1 H2].
  apply negb_true_iff, orb_false_iff. now rewrite !Qlt_bool_false.
Qed.

Lemma valid_in_range (x : fval) : valid cfg x = true -> out_of_range cfg x = false.
Proof.
  unfold valid. rewrite andb_true_iff, !negb_true_iff. tauto.
Qed.

Lemma cell_valid_nums (col : column) :
  Forall (fun c => cell_valid cfg c = true) col ->
  exists xs, col = nums xs /\ Forall (fun x => valid cfg x = true) xs.
Proof.
  induction 1 as [|c rest Hc _ [xs [-> Hxs]]].
  - exists []. split; [reflexivity | constructor].
  - destruct c as [x| | |]; simpl in Hc; try discriminate.
    exists (x :: xs). split; [reflexivity | now constructor].
Qed.

(** A column without gaps that holds one valid price is entirely valid after
    the loop has treated it. *)
Lemma repaired_valid (xs : list fval) :
  Forall (fun x => isnan x = false) xs ->
  Exists (fun x => valid cfg x = true) xs ->
  Forall (fun c => cell_valid cfg c = true) (repaired cfg xs).
Proof.
  intros Hnonan Hex. unfold repaired.
  destruct (any (map (out_of_range cfg) xs)) eqn:Eany.
  - set (masked := map (fun x => if out_of_range cfg x then NaN else x) xs).
    assert (Hpres : Forall (present isnull)
                      (bfill (ffill (nums masked)))).
    { apply fill_both_present. apply Exists_exists in Hex.
      destruct Hex as [x [Hin Hv]]. apply Exists_exists. exists (Num x). split.
      - unfold nums, masked. rewrite map_map. apply in_map_iff. exists x.
        rewrite (valid_in_range _ Hv). auto.
      - unfold present. unfold valid in Hv. destruct x; simpl in *; congruence. }
    rewrite Forall_forall in Hpres |- *. intros c Hc.
    specialize (Hpres c Hc). unfold present in Hpres.
    apply in_bfill_gen in Hc. apply in_ffill_from in Hc.
    destruct Hc as [Hc|Hc]; [|discriminate].
    unfold nums, masked in Hc. rewrite map_map in Hc. apply in_map_iff in Hc.
    destruct Hc as [x [Hx _]]. subst c. simpl. unfold valid.
    destruct (out_of_range cfg x) eqn:Eo; simpl in *; [discriminate|].
    rewrite Eo. destruct x; simpl in *; congruence.
  - apply any_map_false in Eany. unfold nums. apply Forall_map.
    rewrite Forall_forall in *. intros x Hx. simpl. unfold valid.
    now rewrite (Hnonan x Hx), (Eany x Hx).
Qed.

(** A valid column is left as it is. *)
Lemma repaired_id (xs : list fval) :
  Forall (fun x => valid cfg x = true) xs -> repaired cfg xs = nums xs.
Proof.
  intros H. unfold repaired. rewrite Forall_any_false; [reflexivity|].
  eapply Forall_impl; [|exact H]. intros x. apply valid_in_range.
Qed.

End PriceFacts.

(** ** Rows of prices *)

Ltac q_hyps :=
  repeat match goal with
    | H : Qlt_bool _ _ = true |- _ => apply Qlt_bool_true in H
    | H : Qlt_bool _ _ = false |- _ => apply Qlt_bool_false in H
    | H : Qle_bool _ _ = true |- _ => apply Qle_bool_iff in H
    end.

Lemma row_max_fin (o h l c : Q) :
  exists m, row_max (fin_row o h l c) = Fin m /\ is_max m [o; h; l; c].
Proof.
  unfold row_max, pymax, fin_row, is_max; simpl. unfold fgt; simpl.
  destruct (Qlt_bool o h) eqn:E1; simpl;
    [destruct (Qlt_bool h l) eqn:E2 | destruct (Qlt_bool o l) eqn:E2]; simpl;
    match goal with
    | |- context [Qlt_bool ?a c] => destruct (Qlt_bool a c) eqn:E3
    end;
    q_hyps; eexists; (split; [reflexivity|]);
    (split; [simpl; tauto | repeat constructor; lra]).
Qed.

Lemma row_min_fin (o h l c : Q) :
  exists m, row_min (fin_row o h l c) = Fin m /\ is_min m [o; h; l; c].
Proof.
  unfold row_min, pymin, fin_row, is_min; simpl.
  destruct (Qlt_bool h o) eqn:E1; simpl;
    [destruct (Qlt_bool l h) eqn:E2 | destruct (Qlt_bool l o) eqn:E2]; simpl;
    match goal with
    | |- context [Qlt_bool c ?a] => destruct (Qlt_bool c a) eqn:E3
    end;
    q_hyps; eexists; (split; [reflexivity|]);
    (split; [simpl; tauto | repeat constructor; lra]).
Qed.

Lemma consistent_fin (o h l c : Q) :
  inconsistent (fin_row o h l c) = false ->
  l <= o /\ o <= h /\ l <= c /\ c <= h.
Proof.
  unfold inconsistent, fin_row, fgt; simpl.
  rewrite !orb_false_iff. intros [[[[H1 H2] H3] H4] H5]. q_hyps. repeat split; lra.
Qed.

Lemma consistent_fin_iff (o h l c : Q) :
  l <= o -> o <= h -> l <= c -> c <= h ->
  inconsistent (fin_row o h l c) = false.
Proof.
  intros. unfold inconsistent, fin_row, fgt; simpl.
  rewrite !orb_false_iff, !Qlt_bool_false. repeat split; lra.
Qed.

Section RowFacts.

Variable cfg : Config.

Lemma in_range_of_max (m : Q) (qs : list Q) :
  In m qs -> Forall (in_range cfg) qs -> in_range cfg m.
Proof. intros Hin Hall. rewrite Forall_forall in Hall. auto. Qed.

(** What the OHLC step leaves in a row of four valid prices. *)
Lemma fixed_row (o h l c : Q) :
  in_range cfg o -> in_range cfg h -> in_range cfg l -> in_range cfg c ->
  exists h' l',
    fixed_high (fin_row o h l c) = Fin h'
    /\ fixed_low (fin_row o h l c) = Fin l'
    /\ l' <= o /\ o <= h' /\ l' <= c /\ c <= h'
    /\ in_range cfg h' /\ in_range cfg l'
    /\ (inconsistent (fin_row o h l c) = true ->
        is_max h' [o; h; l; c] /\ is_min l' [o; h; l; c])
    /\ (inconsistent (fin_row o h l c) = false -> h' = h /\ l' = l).
Proof.
  intros Ho Hh Hl Hc. unfold fixed_high, fixed_low.
  assert (Hall : Forall (in_range cfg) [o; h; l; c])
    by (repeat (apply Forall_cons; [assumption|]); apply Forall_nil).
  destruct (inconsistent (fin_row o h l c)) eqn:E.
  - destruct (row_max_fin o h l c) as [M [HM [HinM HleM]]].
    destruct (row_min_fin o h l c) as [m [Hm [Hinm Hlem]]].
    exists M, m. rewrite HM, Hm.
    assert (HM' := in_range_of_max _ _ HinM Hall).
    assert (Hm' := in_range_of_max _ _ Hinm Hall).
    inversion HleM as [|? ? HM1 HleM1]; subst.
    inversion HleM1 as [|? ? HM2 HleM2]; subst.
    inversion HleM2 as [|? ? HM3 HleM3]; subst.
    inversion HleM3 as [|? ? HM4 _]; subst.
    inversion Hlem as [|? ? Hm1 Hlem1]; subst.
    inversion Hlem1 as [|? ? Hm2 Hlem2]; subst.
    inversion Hlem2 as [|? ? Hm3 Hlem3]; subst.
    inversion Hlem3 as [|? ? Hm4 _]; subst.
    repeat split; auto; try discriminate; try apply HM'; apply Hm'.
  - exists h, l. destruct (consistent_fin _ _ _ _ E) as [H1 [H2 [H3 H4]]].
    repeat split; auto; try discriminate; try apply Hh; apply Hl.
Qed.

End RowFacts.

Lemma price_rows_nth (o h l c : list fval) (i : nat) (r : prices) :
  nth_error (price_rows o h l c) i = Some r ->
  nth_error o i = Some (p_open r) /\ nth_error h i = Some (p_high r)
  /\ nth_error l i = Some (p_low r) /\ nth_error c i = Some (p_close r).
Proof.
  revert h l c i.
  induction o as [|o0 o' IH]; intros [|h0 h'] [|l0 l'] [|c0 c'] [|i]; simpl;
    try discriminate.
  - intros H. inversion H; subst. simpl. auto.
  - apply IH.
Qed.

Lemma price_rows_length (o h l c : list fval) (n : nat) :
  List.length o = n -> List.length h = n -> List.length l = n ->
  List.length c = n -> List.length (price_rows o h l c) = n.
Proof.
  revert o h l c.
  induction n as [|n IH]; intros [|o0 o'] [|h0 h'] [|l0 l'] [|c0 c']; simpl;
    try discriminate; auto.
Qed.

Lemma price_rows_high (o h l c : list fval) :
  List.length o = List.length h -> List.length l = List.length h ->
  List.length c = List.length h -> map p_high (price_rows o h l c) = h.
Proof.
  revert o l c.
  induction h as [|h0 h' IH]; intros [|o0 o'] [|l0 l'] [|c0 c']; simpl;
    try discriminate; auto.
  intros Ho Hl Hc. f_equal. apply IH; congruence.
Qed.

Lemma price_rows_low (o h l c : list fval) :
  List.length o = List.length l -> List.length h = List.length l ->
  List.length c = List.length l -> map p_low (price_rows o h l c) = l.
Proof.
  revert o h c.
  induction l as [|l0 l' IH]; intros [|o0 o'] [|h0 h'] [|c0 c']; simpl;
    try discriminate; auto.
  intros Ho Hh Hc. f_equal. apply IH; congruence.
Qed.

Lemma map_fixed_high_id (rows : list prices) :
  any (map inconsistent rows) = false -> map fixed_high rows = map p_high rows.
Proof.
  intros H. apply any_map_false in H. apply map_ext_in. intros r Hr.
  rewrite Forall_forall in H. unfold fixed_high. now rewrite (H r Hr).
Qed.

Lemma map_fixed_low_id (rows : list prices) :
  any (map inconsistent rows) = false -> map fixed_low rows = map p_low rows.
Proof.
  intros H. apply any_map_false in H. apply map_ext_in. intros r Hr.
  rewrite Forall_forall in H. unfold fixed_low. now rewrite (H r Hr).
Qed.

(** ** The steps of the price branch *)

Lemma repair_ohlc_ok (df df' : DataFrame) :
  wf df -> repair_ohlc df = Ok df' ->
  exists o h l c,
    getnum "Open" df = Ok o /\ getnum "High" df = Ok h
    /\ getnum "Low" df = Ok l /\ getnum "Close" df = Ok c
    /\ List.length (price_rows o h l c) = nrows df
    /\ df' = set_col "Low" (nums (map fixed_low (price_rows o h l c)))
               (set_col "High" (nums (map fixed_high (price_rows o h l c))) df).
Proof.
  intros Hwf. unfold repair_ohlc.
  destruct (getnum "High" df) as [h|] eqn:Eh; simpl; [|discriminate].
  destruct (getnum "Low" df) as [l|] eqn:El; simpl; [|discriminate].
  destruct (getnum "Open" df) as [o|] eqn:Eo; simpl; [|discriminate].
  destruct (getnum "Close" df) as [c|] eqn:Ec; simpl; [|discriminate].
  intros H. exists o, h, l, c.
  assert (Ho := wf_get _ _ _ Hwf (getnum_ok _ _ _ Eo)).
  assert (Hh := wf_get _ _ _ Hwf (getnum_ok _ _ _ Eh)).
  assert (Hl := wf_get _ _ _ Hwf (getnum_ok _ _ _ El)).
  assert (Hc := wf_get _ _ _ Hwf (getnum_ok _ _ _ Ec)).
  rewrite length_nums in Ho, Hh, Hl, Hc.
  repeat split; auto using price_rows_length.
  destruct (any (map inconsistent (price_rows o h l c))) eqn:Eany;
    inversion H; subst; [reflexivity|].
  rewrite (map_fixed_high_id _ Eany), (map_fixed_low_id _ Eany).
  rewrite price_rows_high, price_rows_low by congruence.
  rewrite (set_col_same_id "High") by now apply getnum_ok.
  rewrite (set_col_same_id "Low") by now apply getnum_ok.
  reflexivity.
Qed.

Lemma repair_volume_ok (df df' : DataFrame) :
  repair_volume df = Ok df' ->
  df' = df
  \/ exists v, getnum "Volume" df = Ok v
       /\ df' = set_col "Volume"
                  (nums (map (fun x => if flt x (Fin 0) then Fin 0 else x) v)) df.
Proof.
  unfold repair_volume. destruct (has_col "Volume" df).
  - destruct (getnum "Volume" df) as [v|] eqn:Ev; simpl; [|discriminate].
    rewrite loc_set_map. destruct (any _); intros H; inversion H; subst; eauto.
  - intros H. inversion H. auto.
Qed.

Lemma loc_set_flags (mask : list bool) :
  loc_set mask true (repeat false (List.length mask)) = mask.
Proof.
  unfold loc_set. induction mask as [|b rest IH]; simpl; [reflexivity|].
  rewrite IH. now destruct b.
Qed.

Lemma flag_extreme_returns_ok (df df' : DataFrame) :
  wf df -> flag_extreme_returns df = Ok df' ->
  (df' = df
   /\ (has_col "Daily_Return" df = false
       \/ exists r, getnum "Daily_Return" df = Ok r
            /\ Forall (fun x => extreme x = false) r))
  \/ exists r, getnum "Daily_Return" df = Ok r
       /\ any (map extreme r) = true
       /\ df' = set_col "Extreme_Return_Flag" (map Flag (map extreme r)) df.
Proof.
  intros Hwf. unfold flag_extreme_returns. destruct (has_col "Daily_Return" df).
  - destruct (getnum "Daily_Return" df) as [r|] eqn:Er; simpl; [|discriminate].
    destruct (any (map extreme r)) eqn:Eany; intros H; inversion H; subst.
    + right. exists r. repeat split; auto.
      rewrite <- (wf_get _ _ _ Hwf (getnum_ok _ _ _ Er)).
      rewrite length_nums, <- (length_map extreme). now rewrite loc_set_flags.
    + left. split; [reflexivity|]. right. exists r. split; [reflexivity|].
      now apply any_map_false.
  - intros H. inversion H. auto.
Qed.

(** Both steps keep the frame rectangular and leave every other column as
    it was. *)
Lemma repair_volume_frame (df df' : DataFrame) :
  wf df -> repair_volume df = Ok df' ->
  wf df' /\ nrows df' = nrows df
  /\ forall n, String.eqb "Volume" n = false -> get_col n df' = get_col n df.
Proof.
  intros Hwf H. destruct (repair_volume_ok _ _ H) as [->|[v [Hv ->]]]; [auto|].
  assert (Hlen : List.length
            (nums (map (fun x => if flt x (Fin 0) then Fin 0 else x) v)) = nrows df).
  { rewrite length_nums, length_map, <- length_nums.
    apply (wf_get df "Volume"); [assumption | now apply getnum_ok]. }
  repeat split.
  - now apply wf_set_col.
  - now apply nrows_set_col.
  - intros n Hn. now apply get_set_other.
Qed.

Lemma flag_extreme_returns_frame (df df' : DataFrame) :
  wf df -> flag_extreme_returns df = Ok df' ->
  wf df' /\ nrows df' = nrows df
  /\ forall n, String.eqb "Extreme_Return_Flag" n = false ->
               get_col n df' = get_col n df.
Proof.
  intros Hwf H.
  destruct (flag_extreme_returns_ok _ _ Hwf H) as [[-> _]|[r [Hr [_ ->]]]]; [auto|].
  assert (Hlen : List.length (map Flag (map extreme r)) = nrows df).
  { rewrite !length_map, <- length_nums.
    apply (wf_get df "Daily_Return"); [assumption | now apply getnum_ok]. }
  repeat split.
  - now apply wf_set_col.
  - now apply nrows_set_col.
  - intros n Hn. now apply get_set_other.
Qed.

Lemma repair_ohlc_frame (df df' : DataFrame) :
  wf df -> repair_ohlc df = Ok df' ->
  wf df' /\ nrows df' = nrows df
  /\ forall n, String.eqb "High" n = false -> String.eqb "Low" n = false ->
               get_col n df' = get_col n df.
Proof.
  intros Hwf H.
  destruct (repair_ohlc_ok _ _ Hwf H) as [o [h [l [c [_ [_ [_ [_ [Hlen ->]]]]]]]]].
  assert (H1 : List.length (nums (map fixed_high (price_rows o h l c))) = nrows df)
    by now rewrite length_nums, length_map.
  assert (H2 : List.length (nums (map fixed_low (price_rows o h l c))) = nrows df)
    by now rewrite length_nums, length_map.
  assert (Hwf1 := wf_set_col "High" _ _ Hwf H1).
  assert (Hn1 := nrows_set_col "High" _ _ H1).
  repeat split.
  - apply wf_set_col; [assumption | congruence].
  - rewrite nrows_set_col; congruence.
  - intros n Hh Hl. now rewrite !get_set_other.
Qed.

(** ** The price branch as a whole *)

Lemma in_fill (col : column) (c : cell) :
  In c col -> isnull c = false -> In c (bfill (ffill col)).
Proof.
  intros Hin Hc. apply In_nth_error in Hin. destruct Hin as [i Hi].
  apply (nth_error_In _ i). unfold bfill, ffill.
  apply nth_bfill_gen_present; [|exact Hc].
  apply nth_ffill_from_present; [exact Hi | exact Hc].
Qed.

Lemma cell_valid_present (cfg : Config) (c : cell) :
  cell_valid cfg c = true -> isnull c = false.
Proof.
  destruct c as [x| | |]; simpl; try reflexivity.
  unfold valid. destruct x; simpl; auto; discriminate.
Qed.

Lemma NoDup_price_cols : NoDup price_cols.
Proof.
  unfold price_cols.
  repeat (apply NoDup_cons;
          [simpl; intros H; repeat destruct H as [H|H]; discriminate H || exact H |]).
  apply NoDup_nil.
Qed.

Lemma NoDup_filter {A : Type} (f : A -> bool) (l : list A) :
  NoDup l -> NoDup (filter f l).
Proof.
  induction 1 as [|x rest Hx Hnd IH]; simpl; [constructor|].
  destruct (f x); [|assumption]. constructor; [|assumption].
  intros Hin. apply filter_In in Hin. tauto.
Qed.

Section PriceBranch.

Variable cfg : Config.

(** After the price-range loop, a price column that held one valid price
    holds only valid prices. *)
Lemma repair_prices_valid (df mid : DataFrame) (n : string) :
  In n price_cols ->
  has_valid_price cfg n df = true ->
  repair_prices cfg df = Ok mid ->
  exists ys, get_col n mid = Some (nums ys)
             /\ Forall (fun x => valid cfg x = true) ys.
Proof.
  intros Hn Hv Hmid. unfold has_valid_price in Hv.
  destruct (get_col n df) as [col|] eqn:Ecol; [|discriminate].
  apply existsb_exists in Hv. destruct Hv as [c [Hin Hc]].
  unfold repair_prices in Hmid.
  apply repair_price_cols_get in Hmid;
    [|apply NoDup_filter, NoDup_price_cols].
  destruct Hmid as [Hin_names _].
  destruct (Hin_names n) as [xs [Hxs Hget]].
  { apply filter_In. split; [assumption|].
    rewrite has_col_gap_fill, has_col_get, Ecol. reflexivity. }
  apply getnum_ok in Hxs. rewrite get_col_gap_fill, Ecol in Hxs. simpl in Hxs.
  inversion Hxs as [Hfill].
  assert (Hpres : isnull c = false) by (eapply cell_valid_present; eauto).
  assert (Hnonan : Forall (fun x => isnan x = false) xs).
  { assert (Hp : Forall (present isnull) (nums xs)).
    { rewrite <- Hfill. apply fill_both_present. apply Exists_exists. eauto. }
    unfold nums in Hp. rewrite Forall_map in Hp.
    eapply Forall_impl; [|exact Hp]. intros x Hx. unfold present in Hx.
    destruct x; simpl in *; congruence. }
  assert (Hex : Exists (fun x => valid cfg x = true) xs).
  { assert (Hc' := in_fill col c Hin Hpres). rewrite Hfill in Hc'.
    unfold nums in Hc'. apply in_map_iff in Hc'. destruct Hc' as [x [Hx Hxin]].
    apply Exists_exists. exists x. split; [assumption|]. subst c. exact Hc. }
  destruct (cell_valid_nums cfg _ (repaired_valid cfg xs Hnonan Hex)) as [ys [Hys Hall]].
  exists ys. rewrite Hget, Hys. auto.
Qed.

Lemma has_valid_price_rows (df : DataFrame) (n : string) :
  wf df -> has_valid_price cfg n df = true -> nrows df <> 0%nat.
Proof.
  intros Hwf Hv. unfold has_valid_price in Hv.
  destruct (get_col n df) as [col|] eqn:Ecol; [|discriminate].
  rewrite <- (wf_get _ _ _ Hwf Ecol). destruct col; [discriminate | simpl; lia].
Qed.

Lemma validate_price_shaped (df : DataFrame) :
  nrows df <> 0%nat -> is_price_shaped df = true ->
  validate cfg (Some df) = validate_prices cfg df.
Proof.
  intros Hn Hs. unfold validate. rewrite Hs.
  destruct (nrows df =? 0)%nat eqn:E; [|reflexivity].
  apply Nat.eqb_eq in E. contradiction.
Qed.

(** The four price columns at the end of the price branch, row by row. *)
Lemma validate_prices_rows (df out : DataFrame) :
  wf df ->
  has_valid_price cfg "Open" df = true ->
  has_valid_price cfg "High" df = true ->
  has_valid_price cfg "Low" df = true ->
  has_valid_price cfg "Close" df = true ->
  validate_prices cfg df = Ok out ->
  exists mid o h l c,
    repair_prices cfg df = Ok mid
    /\ get_col "Open" mid = Some (nums o) /\ get_col "High" mid = Some (nums h)
    /\ get_col "Low" mid = Some (nums l) /\ get_col "Close" mid = Some (nums c)
    /\ Forall (fun x => valid cfg x = true) o
    /\ Forall (fun x => valid cfg x = true) h
    /\ Forall (fun x => valid cfg x = true) l
    /\ Forall (fun x => valid cfg x = true) c
    /\ List.length (price_rows o h l c) = nrows df
    /\ get_col "Open" out = Some (nums o)
    /\ get_col "High" out = Some (nums (map fixed_high (price_rows o h l c)))
    /\ get_col "Low" out = Some (nums (map fixed_low (price_rows o h l c)))
    /\ get_col "Close" out = Some (nums c)
    /\ nrows out = nrows df.
Proof.
  intros Hwf Ho Hh Hl Hc. unfold validate_prices.
  destruct (repair_prices cfg df) as [mid|] eqn:Emid; simpl; [|discriminate].
  destruct (repair_ohlc mid) as [d2|] eqn:E2; simpl; [|discriminate].
  destruct (repair_volume d2) as [d3|] eqn:E3; simpl; [|discriminate].
  intros Eout.
  destruct (repair_prices_nrows cfg _ _ Hwf Emid) as [Hwfm Hnm].
  destruct (repair_prices_valid df mid "Open") as [o [Ego Hvo]];
    [simpl; tauto | assumption | assumption |].
  destruct (repair_prices_valid df mid "High") as [h [Egh Hvh]];
    [simpl; tauto | assumption | assumption |].
  destruct (repair_prices_valid df mid "Low") as [l [Egl Hvl]];
    [simpl; tauto | assumption | assumption |].
  destruct (repair_prices_valid df mid "Close") as [c [Egc Hvc]];
    [simpl; tauto | assumption | assumption |].
  destruct (repair_ohlc_ok _ _ Hwfm E2)
    as [o' [h' [l' [c' [Ho' [Hh' [Hl' [Hc' [Hlen Hd2]]]]]]]]].
  rewrite (getnum_of_get _ _ _ Ego) in Ho'. inversion Ho'; subst o'.
  rewrite (getnum_of_get _ _ _ Egh) in Hh'. inversion Hh'; subst h'.
  rewrite (getnum_of_get _ _ _ Egl) in Hl'. inversion Hl'; subst l'.
  rewrite (getnum_of_get _ _ _ Egc) in Hc'. inversion Hc'; subst c'.
  destruct (repair_ohlc_frame _ _ Hwfm E2) as [Hwf2 [Hn2 _]].
  destruct (repair_volume_frame _ _ Hwf2 E3) as [Hwf3 [Hn3 Hg3]].
  destruct (flag_extreme_returns_frame _ _ Hwf3 Eout) as [_ [Hn4 Hg4]].
  exists mid, o, h, l, c.
  repeat (split; [first [reflexivity | assumption | congruence]|]).
  assert (Hget : forall n, String.eqb "Extreme_Return_Flag" n = false ->
                           String.eqb "Volume" n = false ->
                           get_col n out = get_col n d2).
  { intros n H1 H2. rewrite Hg4 by assumption. now rewrite Hg3 by assumption. }
  rewrite !Hget by reflexivity. rewrite Hd2.
  repeat split.
  - rewrite (get_set_other "Low"), (get_set_other "High") by reflexivity. exact Ego.
  - rewrite (get_set_other "Low") by reflexivity. apply get_set_same.
  - apply get_set_same.
  - rewrite (get_set_other "Low"), (get_set_other "High") by reflexivity. exact Egc.
  - congruence.
Qed.

End PriceBranch.

(** ** The invariant of validated prices *)

Section PriceInvariant.

Variable cfg : Config.

Lemma nth_valid (xs : list fval) (i : nat) (x : fval) :
  Forall (fun x => valid cfg x = true) xs -> nth_error xs i = Some x ->
  exists q, x = Fin q /\ in_range cfg q.
Proof.
  intros Hall Hi. apply valid_fin. rewrite Forall_forall in Hall.
  apply Hall. eapply nth_error_In; eauto.
Qed.

Lemma row_of_nums (df : DataFrame) (o h l c : list fval) (i : nat)
      (o0 h0 l0 c0 : fval) :
  get_col "Open" df = Some (nums o) -> get_col "High" df = Some (nums h) ->
  get_col "Low" df = Some (nums l) -> get_col "Close" df = Some (nums c) ->
  nth_error o i = Some o0 -> nth_error h i = Some h0 ->
  nth_error l i = Some l0 -> nth_error c i = Some c0 ->
  row_of df i = Some {| p_open := o0; p_high := h0; p_low := l0; p_close := c0 |}.
Proof.
  intros Ho Hh Hl Hc Io Ih Il Ic. unfold row_of. rewrite Ho, Hh, Hl, Hc.
  unfold nums.
  now rewrite (map_nth_error Num _ _ Io), (map_nth_error Num _ _ Ih),
    (map_nth_error Num _ _ Il), (map_nth_error Num _ _ Ic).
Qed.

(** Row [i] before and after the OHLC step. *)
Lemma validate_prices_row (df out : DataFrame) :
  wf df ->
  has_valid_price cfg "Open" df = true ->
  has_valid_price cfg "High" df = true ->
  has_valid_price cfg "Low" df = true ->
  has_valid_price cfg "Close" df = true ->
  validate_prices cfg df = Ok out ->
  exists mid,
    repair_prices cfg df = Ok mid /\ nrows out = nrows df
    /\ forall i, (i < nrows df)%nat ->
         exists o h l c h' l',
           row_of mid i = Some (fin_row o h l c)
           /\ row_of out i = Some (fin_row o h' l' c)
           /\ l' <= o /\ o <= h' /\ l' <= c /\ c <= h'
           /\ in_range cfg o /\ in_range cfg h' /\ in_range cfg l' /\ in_range cfg c
           /\ (inconsistent (fin_row o h l c) = true ->
               is_max h' [o; h; l; c] /\ is_min l' [o; h; l; c])
           /\ (inconsistent (fin_row o h l c) = false -> h' = h /\ l' = l).
Proof.
  intros Hwf Ho Hh Hl Hc Hout.
  destruct (validate_prices_rows cfg df out Hwf Ho Hh Hl Hc Hout)
    as (mid & o & h & l & c & Hmid & Mo & Mh & Ml & Mc & Vo & Vh & Vl & Vc
         & Hlen & Oo & Oh & Ol & Oc & Hn).
  exists mid. split; [assumption|]. split; [assumption|]. intros i Hi.
  destruct (nth_error (price_rows o h l c) i) as [r|] eqn:Er;
    [|apply nth_error_None in Er; lia].
  destruct (price_rows_nth _ _ _ _ _ _ Er) as [Io [Ih [Il Ic]]].
  destruct (nth_valid _ _ _ Vo Io) as [qo [Eo Ro]].
  destruct (nth_valid _ _ _ Vh Ih) as [qh [Eh Rh]].
  destruct (nth_valid _ _ _ Vl Il) as [ql [El Rl]].
  destruct (nth_valid _ _ _ Vc Ic) as [qc [Ec Rc]].
  assert (Hr : r = fin_row qo qh ql qc).
  { destruct r; simpl in *; unfold fin_row; congruence. }
  destruct (fixed_row cfg qo qh ql qc Ro Rh Rl Rc)
    as [h' [l' [Fh [Fl [B1 [B2 [B3 [B4 [Rh' [Rl' [Hinc Hcons]]]]]]]]]]].
  exists qo, qh, ql, qc, h', l'. split; [|split].
  - rewrite <- Hr. destruct r. now apply (row_of_nums mid o h l c).
  - unfold fin_row. rewrite <- Eo, <- Ec, <- Fh, <- Fl, <- Hr.
    apply (row_of_nums out o (map fixed_high (price_rows o h l c))
             (map fixed_low (price_rows o h l c)) c); auto using map_nth_error.
  - repeat split; auto; try apply Ro; try apply Rc; try apply Rh'; try apply Rl';
      try (apply Hinc; assumption); apply Hcons; assumption.
Qed.

End PriceInvariant.

(** C1 (as amended).  When each of Open, High, Low and Close holds at least
    one price within the bounds, every row of the validated table has
    [Low <= Open <= High], [Low <= Close <= High] and its four prices within
    [[min_price, max_price]].  A row that is inconsistent once the prices
    have been brought into range gets the greatest of its four prices as
    High and the smallest as Low; Open and Close are those of that row, and a
    consistent row keeps its High and Low. *)
Theorem validate_price_invariant (cfg : Config) (df out : DataFrame) :
  wf df ->
  is_price_shaped df = true ->
  has_valid_price cfg "Open" df = true ->
  has_valid_price cfg "High" df = true ->
  has_valid_price cfg "Low" df = true ->
  has_valid_price cfg "Close" df = true ->
  validate cfg (Some df) = Ok out ->
  price_invariant cfg out
  /\ exists mid,
       repair_prices cfg df = Ok mid
       /\ forall i, (i < nrows df)%nat ->
            exists o h l c h' l',
              row_of mid i = Some (fin_row o h l c)
              /\ row_of out i = Some (fin_row o h' l' c)
              /\ (inconsistent (fin_row o h l c) = true ->
                  is_max h' [o; h; l; c] /\ is_min l' [o; h; l; c])
              /\ (inconsistent (fin_row o h l c) = false -> h' = h /\ l' = l).
Proof.
  intros Hwf Hs Ho Hh Hl Hc Hout.
  rewrite validate_price_shaped in Hout;
    [|eapply has_valid_price_rows; eauto | assumption].
  destruct (validate_prices_row cfg df out Hwf Ho Hh Hl Hc Hout)
    as [mid [Hmid [Hn Hrows]]].
  split.
  - intros i Hi. rewrite Hn in Hi.
    destruct (Hrows i Hi) as [o [h [l [c [h' [l' [_ [Hrow H]]]]]]]].
    exists o, h', l', c. tauto.
  - exists mid. split; [assumption|]. intros i Hi.
    destruct (Hrows i Hi) as [o [h [l [c [h' [l' [H1 [H2 H]]]]]]]].
    exists o, h, l, c, h', l'. tauto.
Qed.

Lemma validate_price_invariant_witness :
  exists out,
    validate default_config (Some sample_prices) = Ok out
    /\ price_invariant default_config out.
Proof.
  eexists. split; [reflexivity|].
  apply (validate_price_invariant default_config sample_prices);
    try reflexivity.
  repeat constructor.
Defined.

(** The invariant fails on the single row whose close is out of range:
    nothing can fill it, and it is left missing. *)
Lemma validate_price_invariant_fails :
  exists out,
    validate default_config (Some lone_spike) = Ok out
    /\ ~ price_invariant default_config out.
Proof.
  eexists. split; [reflexivity|].
  intros H. destruct (H 0%nat) as [o [h [l [c [Hrow _]]]]]; [simpl; lia|].
  discriminate Hrow.
Qed.

(** ** Columns that the price branch only fills *)

Section OtherColumns.

Variable cfg : Config.

Lemma repair_prices_other (df mid : DataFrame) (n : string) :
  ~ In n price_cols ->
  repair_prices cfg df = Ok mid ->
  get_col n mid = option_map (fun c => bfill (ffill c)) (get_col n df).
Proof.
  intros Hn Hmid. unfold repair_prices in Hmid.
  apply repair_price_cols_get in Hmid; [|apply NoDup_filter, NoDup_price_cols].
  destruct Hmid as [_ Hout]. rewrite Hout; [apply get_col_gap_fill|].
  intros Hin. apply filter_In in Hin. tauto.
Qed.

(** A column that is neither a price, nor the volume, nor the flag leaves
    the price branch gap-filled and otherwise untouched. *)
Lemma validate_prices_other (df out : DataFrame) (n : string) :
  wf df ->
  ~ In n price_cols ->
  String.eqb "Volume" n = false ->
  String.eqb "Extreme_Return_Flag" n = false ->
  validate_prices cfg df = Ok out ->
  get_col n out = option_map (fun c => bfill (ffill c)) (get_col n df).
Proof.
  intros Hwf Hn Hv Hf. unfold validate_prices.
  destruct (repair_prices cfg df) as [mid|] eqn:Emid; simpl; [|discriminate].
  destruct (repair_ohlc mid) as [d2|] eqn:E2; simpl; [|discriminate].
  destruct (repair_volume d2) as [d3|] eqn:E3; simpl; [|discriminate].
  intros Eout.
  destruct (repair_prices_nrows cfg _ _ Hwf Emid) as [Hwfm _].
  destruct (repair_ohlc_frame _ _ Hwfm E2) as [Hwf2 [_ Hg2]].
  destruct (repair_volume_frame _ _ Hwf2 E3) as [Hwf3 [_ Hg3]].
  destruct (flag_extreme_returns_frame _ _ Hwf3 Eout) as [_ [_ Hg4]].
  rewrite Hg4, Hg3, Hg2; auto.
  - now apply repair_prices_other.
  - apply String.eqb_neq. intros <-. apply Hn. simpl. tauto.
  - apply String.eqb_neq. intros <-. apply Hn. simpl. tauto.
Qed.

Lemma valid_present (xs : list fval) :
  Forall (fun x => valid cfg x = true) xs -> Forall (present isnull) (nums xs).
Proof.
  intros H. unfold nums. apply Forall_map. eapply Forall_impl; [|exact H].
  intros x Hx. apply (cell_valid_present cfg (Num x)). exact Hx.
Qed.

Lemma filled_no_missing (df out : DataFrame) (n : string) :
  has_value n df = true ->
  get_col n out = option_map (fun c => bfill (ffill c)) (get_col n df) ->
  no_missing n out.
Proof.
  unfold has_value, no_missing. destruct (get_col n df) as [col|]; [|discriminate].
  simpl. intros Hv Hget. eexists. split; [exact Hget|].
  apply fill_both_present. apply existsb_exists in Hv. destruct Hv as [c [Hin Hc]].
  apply Exists_exists. exists c. split; [assumption|].
  unfold present. now apply negb_true_iff.
Qed.

End OtherColumns.

(** C4 (as amended).  When Date and Symbol each hold at least one value and
    each of Open, High, Low and Close holds at least one price within the
    bounds, the validated table has no missing value in the key columns
    Date, Symbol, Open, High, Low, Close. *)
Theorem validate_no_missing (cfg : Config) (df out : DataFrame) :
  wf df ->
  has_value "Date" df = true ->
  has_value "Symbol" df = true ->
  has_valid_price cfg "Open" df = true ->
  has_valid_price cfg "High" df = true ->
  has_valid_price cfg "Low" df = true ->
  has_valid_price cfg "Close" df = true ->
  validate cfg (Some df) = Ok out ->
  Forall (fun name => no_missing name out) key_columns.
Proof.
  intros Hwf Hd Hsym Ho Hh Hl Hc Hout.
  assert (Hs : is_price_shaped df = true).
  { unfold is_price_shaped, has_value, has_valid_price in *. rewrite !has_col_get.
    destruct (get_col "Symbol" df); [|discriminate].
    destruct (get_col "Close" df); [reflexivity | discriminate]. }
  rewrite validate_price_shaped in Hout;
    [|eapply has_valid_price_rows; eauto | assumption].
  destruct (validate_prices_rows cfg df out Hwf Ho Hh Hl Hc Hout)
    as (mid & o & h & l & c & Hmid & Mo & Mh & Ml & Mc & Vo & Vh & Vl & Vc
         & Hlen & Oo & Oh & Ol & Oc & Hn).
  assert (Hrows : forall r, In r (price_rows o h l c) ->
            exists qo qh ql qc, r = fin_row qo qh ql qc
              /\ in_range cfg qo /\ in_range cfg qh
              /\ in_range cfg ql /\ in_range cfg qc).
  { intros r Hr. apply In_nth_error in Hr. destruct Hr as [i Hi].
    destruct (price_rows_nth _ _ _ _ _ _ Hi) as [Io [Ih [Il Ic]]].
    destruct (nth_valid cfg _ _ _ Vo Io) as [qo [Eo Ro]].
    destruct (nth_valid cfg _ _ _ Vh Ih) as [qh [Eh Rh]].
    destruct (nth_valid cfg _ _ _ Vl Il) as [ql [El Rl]].
    destruct (nth_valid cfg _ _ _ Vc Ic) as [qc [Ec Rc]].
    exists qo, qh, ql, qc. repeat split; try apply Ro; try apply Rh;
      try apply Rl; try apply Rc.
    destruct r; simpl in *; unfold fin_row; congruence. }
  unfold key_columns.
  repeat (apply Forall_cons; [|]); [| | | | | |apply Forall_nil].
  - apply (filled_no_missing df out "Date" Hd).
    apply (validate_prices_other cfg df out "Date" Hwf); try reflexivity; [|assumption].
    simpl. intros H. repeat destruct H as [H|H]; discriminate H || exact H.
  - apply (filled_no_missing df out "Symbol" Hsym).
    apply (validate_prices_other cfg df out "Symbol" Hwf); try reflexivity; [|assumption].
    simpl. intros H. repeat destruct H as [H|H]; discriminate H || exact H.
  - exists (nums o). split; [assumption | now apply (valid_present cfg)].
  - eexists. split; [exact Oh|]. unfold nums. rewrite map_map. apply Forall_map.
    apply Forall_forall. intros r Hr.
    destruct (Hrows r Hr) as (qo & qh & ql & qc & -> & Ro & Rh & Rl & Rc).
    destruct (fixed_row cfg qo qh ql qc Ro Rh Rl Rc) as (h' & l' & Fh & _).
    rewrite Fh. reflexivity.
  - eexists. split; [exact Ol|]. unfold nums. rewrite map_map. apply Forall_map.
    apply Forall_forall. intros r Hr.
    destruct (Hrows r Hr) as (qo & qh & ql & qc & -> & Ro & Rh & Rl & Rc).
    destruct (fixed_row cfg qo qh ql qc Ro Rh Rl Rc) as (h' & l' & _ & Fl & _).
    rewrite Fl. reflexivity.
  - exists (nums c). split; [assumption | now apply (valid_present cfg)].
Qed.

Lemma validate_no_missing_witness :
  exists out,
    validate default_config (Some sample_prices) = Ok out
    /\ Forall (fun name => no_missing name out) key_columns.
Proof.
  eexists. split; [reflexivity|].
  apply (validate_no_missing default_config sample_prices); try reflexivity.
  repeat constructor.
Defined.

(** The single out-of-range close has no neighbour to be filled from: the
    validated table has a missing Close. *)
Lemma validate_no_missing_fails :
  exists out,
    validate default_config (Some lone_spike) = Ok out
    /\ ~ Forall (fun name => no_missing name out) key_columns.
Proof.
  eexists. split; [reflexivity|].
  intros H. unfold key_columns in H.
  do 5 (apply Forall_inv_tail in H). apply Forall_inv in H.
  destruct H as [col [Hget Hall]]. simpl in Hget. inversion Hget; subst col.
  apply Forall_inv in Hall. discriminate Hall.
Qed.

(** ** Extreme returns *)

Lemma extreme_abs (x : fval) : extreme x = true <-> abs_above_half x.
Proof.
  unfold extreme, fgt. destruct x as [| |q|]; simpl; try tauto.
  - split; [discriminate | tauto].
  - rewrite orb_true_iff, !Qlt_bool_true. split.
    + intros [H|H].
      * apply Qlt_le_trans with (y := - q); [lra | rewrite <- Qabs_opp; apply Qle_Qabs].
      * apply Qlt_le_trans with (y := q); [lra | apply Qle_Qabs].
    + intros H. destruct (Qlt_le_dec q 0) as [Hneg|Hpos].
      * left. rewrite Qabs_neg in H by lra. lra.
      * right. rewrite Qabs_pos in H by lra. lra.
Qed.

Lemma validate_prices_stages (cfg : Config) (df out : DataFrame) :
  validate_prices cfg df = Ok out ->
  exists d1 d2 d3,
    repair_prices cfg df = Ok d1 /\ repair_ohlc d1 = Ok d2
    /\ repair_volume d2 = Ok d3 /\ flag_extreme_returns d3 = Ok out.
Proof.
  unfold validate_prices.
  destruct (repair_prices cfg df) as [d1|] eqn:E1; simpl; [|discriminate].
  destruct (repair_ohlc d1) as [d2|] eqn:E2; simpl; [|discriminate].
  destruct (repair_volume d2) as [d3|] eqn:E3; simpl; [|discriminate].
  intros H. exists d1, d2, d3. auto.
Qed.

(** C3 (as amended).  On a price table with a Daily_Return column, the flag
    step reads the returns of the validated table (the returns of the input,
    gap-filled).  When at least one of them has [|r| > 0.5], the validated
    table has an Extreme_Return_Flag column that is true exactly on the rows
    with [|r| > 0.5]; when none has, no flag column is created (the table
    keeps the one it came with, if any).  The step removes no row and leaves
    every other column as it was. *)
Theorem validate_extreme_flag (cfg : Config) (df out : DataFrame) :
  wf df ->
  nrows df <> 0%nat ->
  is_price_shaped df = true ->
  has_col "Daily_Return" df = true ->
  validate cfg (Some df) = Ok out ->
  exists r d1 d2 pre,
    getnum "Daily_Return" out = Ok r
    /\ get_col "Daily_Return" out
       = option_map (fun c => bfill (ffill c)) (get_col "Daily_Return" df)
    /\ (any (map extreme r) = true ->
        get_col "Extreme_Return_Flag" out = Some (map (fun x => Flag (extreme x)) r))
    /\ (any (map extreme r) = false ->
        get_col "Extreme_Return_Flag" out
        = option_map (fun c => bfill (ffill c)) (get_col "Extreme_Return_Flag" df))
    /\ (forall x, extreme x = true <-> abs_above_half x)
    /\ repair_prices cfg df = Ok d1 /\ repair_ohlc d1 = Ok d2
    /\ repair_volume d2 = Ok pre /\ flag_extreme_returns pre = Ok out
    /\ nrows out = nrows pre
    /\ (forall n, String.eqb "Extreme_Return_Flag" n = false ->
                  get_col n out = get_col n pre).
Proof.
  intros Hwf Hn Hs Hdr Hout. rewrite validate_price_shaped in Hout by assumption.
  destruct (validate_prices_stages _ _ _ Hout) as (d1 & d2 & d3 & E1 & E2 & E3 & E4).
  destruct (repair_prices_nrows cfg _ _ Hwf E1) as [Hwf1 _].
  destruct (repair_ohlc_frame _ _ Hwf1 E2) as [Hwf2 [_ Hg2]].
  destruct (repair_volume_frame _ _ Hwf2 E3) as [Hwf3 [_ Hg3]].
  destruct (flag_extreme_returns_frame _ _ Hwf3 E4) as [_ [Hn4 Hg4]].
  assert (Hother : forall n, ~ In n price_cols -> String.eqb "Volume" n = false ->
            get_col n d3 = option_map (fun c => bfill (ffill c)) (get_col n df)).
  { intros n Hp Hv. rewrite Hg3, Hg2; auto.
    - now apply (repair_prices_other cfg).
    - apply String.eqb_neq. intros <-. apply Hp. simpl. tauto.
    - apply String.eqb_neq. intros <-. apply Hp. simpl. tauto. }
  assert (Hnp : forall n, existsb (String.eqb n) price_cols = false ->
                          ~ In n price_cols).
  { intros n Hex Hin. assert (Ht : existsb (String.eqb n) price_cols = true).
    { apply existsb_exists. exists n. split; [assumption | apply String.eqb_refl]. }
    congruence. }
  assert (Hdr3 : has_col "Daily_Return" d3 = true).
  { rewrite has_col_get, Hother; [|now apply Hnp|reflexivity].
    rewrite has_col_get in Hdr. now destruct (get_col "Daily_Return" df). }
  destruct (flag_extreme_returns_ok _ _ Hwf3 E4)
    as [[-> [Hno|[r [Hr Hcalm]]]]|[r [Hr [Hany ->]]]].
  - congruence.
  - exists r, d1, d2, d3.
    refine (conj Hr (conj _ (conj _ (conj _ (conj extreme_abs
              (conj E1 (conj E2 (conj E3 (conj E4 (conj eq_refl _)))))))))).
    + rewrite Hother; [reflexivity | now apply Hnp | reflexivity].
    + intros H. rewrite (Forall_any_false _ _ Hcalm) in H. discriminate.
    + intros _. rewrite Hother; [reflexivity | now apply Hnp | reflexivity].
    + reflexivity.
  - exists r, d1, d2, d3.
    assert (Hget : get_col "Daily_Return"
                     (set_col "Extreme_Return_Flag" (map Flag (map extreme r)) d3)
                   = get_col "Daily_Return" d3) by now apply get_set_other.
    refine (conj _ (conj _ (conj _ (conj _ (conj extreme_abs
              (conj E1 (conj E2 (conj E3 (conj E4 (conj Hn4 Hg4)))))))))).
    + unfold getnum. rewrite Hget. exact Hr.
    + rewrite Hget, Hother; [reflexivity | now apply Hnp | reflexivity].
    + intros _. rewrite get_set_same. now rewrite map_map.
    + intros H. rewrite Hany in H. discriminate.
Qed.

Lemma validate_extreme_flag_witness :
  exists out,
    validate default_config (Some sample_prices) = Ok out
    /\ get_col "Extreme_Return_Flag" out
       = Some [Flag false; Flag false; Flag true; Flag true].
Proof.
  eexists. split; [reflexivity|].
  destruct (validate_extreme_flag default_config sample_prices _
              ltac:(repeat constructor) ltac:(discriminate) eq_refl eq_refl eq_refl)
    as (r & d1 & d2 & pre & Hr & _ & Hflag & _).
  vm_compute in Hr. inversion Hr; subst r. exact (Hflag eq_refl).
Defined.

(** Returns that are all moderate: the validated table has no flag column. *)
Lemma validate_extreme_flag_fails :
  exists out,
    validate default_config (Some calm_prices) = Ok out
    /\ has_col "Daily_Return" calm_prices = true
    /\ has_col "Extreme_Return_Flag" out = false.
Proof. eexists. split; [reflexivity|]. split; reflexivity. Qed.

(** ** Fills do not look at the symbol *)

(** Rows without a value that lead up to the first fit value [v] take it:
    nothing is above them to be carried forward, so the backward fill
    reaches them.  Rows among them that have a value ([G]) keep it and hand
    it to the rows around them. *)
Lemma fill_leading {A : Type} (null : A -> bool) (G : A -> Prop) (v : A)
      (pre rest : list A) :
  null v = false -> G v -> (forall y, G y -> null y = false) ->
  Forall (fun y => null y = true \/ G y) pre ->
  forall last, (last = None \/ exists w, last = Some w /\ G w) ->
  exists head tail,
    bfill_gen null (ffill_from null last (pre ++ v :: rest)) = (head ++ v :: tail)%list
    /\ List.length head = List.length pre
    /\ Forall G head.
Proof.
  intros Hv HGv HG. induction 1 as [|y pre' Hy _ IH]; intros last Hlast.
  - simpl. rewrite Hv. simpl. rewrite Hv.
    exists [], (bfill_gen null (ffill_from null (Some v) rest)). simpl. auto.
  - simpl. destruct (null y) eqn:Ey.
    + destruct Hlast as [->|(w & -> & Hw)].
      * destruct (IH None (or_introl eq_refl)) as (head & tail & E & Hl & Hh).
        simpl. rewrite Ey, E.
        destruct head as [|h head']; simpl.
        -- exists [v], tail. simpl in *. repeat split; [now rewrite <- Hl | auto].
        -- exists (h :: h :: head'), tail. simpl in *. inversion Hh; subst.
           repeat split; [now rewrite <- Hl | auto].
      * destruct (IH (Some w)) as (head & tail & E & Hl & Hh); [eauto|].
        simpl. rewrite (HG w Hw), E. exists (w :: head), tail. simpl. auto.
    + assert (Gy : G y) by (destruct Hy as [Hy|Hy]; [congruence | assumption]).
      destruct (IH (Some y)) as (head & tail & E & Hl & Hh); [eauto|].
      simpl. rewrite Ey, E. exists (y :: head), tail. simpl. auto.
Qed.

Lemma nth_error_head {A : Type} (P : A -> Prop) (head tail : list A) (v : A) (j : nat) :
  Forall P head -> (j < List.length head)%nat ->
  exists h, nth_error (head ++ v :: tail) j = Some h /\ P h.
Proof.
  intros Hh Hj. rewrite nth_error_app1 by assumption.
  destruct (nth_error head j) as [h|] eqn:E; [|apply nth_error_None in E; lia].
  exists h. split; [reflexivity|]. rewrite Forall_forall in Hh.
  apply Hh. eapply nth_error_In; eauto.
Qed.

Section CrossSymbol.

Variable cfg : Config.

Lemma repaired_nth_valid (xs : list fval) (i : nat) (q : Q) :
  nth_error xs i = Some (Fin q) -> in_range cfg q ->
  nth_error (repaired cfg xs) i = Some (Num (Fin q)).
Proof.
  intros Hi Hq. assert (Hv := fin_valid cfg q Hq). unfold repaired.
  destruct (any (map (out_of_range cfg) xs)).
  - unfold bfill, ffill. apply nth_bfill_gen_present; [|reflexivity].
    apply nth_ffill_from_present; [|reflexivity].
    unfold nums. rewrite map_map.
    rewrite (map_nth_error _ _ _ Hi). now rewrite (valid_in_range cfg _ Hv).
  - unfold nums. now rewrite (map_nth_error _ _ _ Hi).
Qed.

Lemma repaired_nth_gap (xs : list fval) (i : nat) (q : Q) (x : fval) :
  nth_error xs i = Some (Fin q) -> in_range cfg q ->
  nth_error xs (S i) = Some x -> out_of_range cfg x = true ->
  nth_error (repaired cfg xs) (S i) = Some (Num (Fin q)).
Proof.
  intros Hi Hq Hx Hout. assert (Hv := fin_valid cfg q Hq). unfold repaired.
  assert (Hany : any (map (out_of_range cfg) xs) = true).
  { unfold any. apply existsb_exists. exists true. split; [|reflexivity].
    apply in_map_iff. exists x. split; [assumption|].
    eapply nth_error_In; eauto. }
  rewrite Hany. unfold bfill, ffill. apply nth_bfill_gen_present; [|reflexivity].
  apply (nth_ffill_from_gap isnull None _ i (Num (Fin q)) (Num NaN));
    try reflexivity; unfold nums; rewrite map_map.
  - rewrite (map_nth_error _ _ _ Hi). now rewrite (valid_in_range cfg _ Hv).
  - rewrite (map_nth_error _ _ _ Hx). now rewrite Hout.
Qed.

(** The closes that lead up to the first valid one [q], all of them missing
    or out of range, are all [q] when the price branch is done. *)
Lemma repaired_leading (closes : column) (xs : list fval) (i : nat) (q : Q) :
  bfill (ffill closes) = nums xs ->
  nth_error closes (S i) = Some (Num (Fin q)) -> in_range cfg q ->
  (forall j, (j <= i)%nat -> exists c, nth_error closes j = Some c /\ bad_price cfg c) ->
  forall j, (j <= i)%nat -> nth_error (repaired cfg xs) j = Some (Num (Fin q)).
Proof.
  intros Hfill Hq Hin Hbad j Hj.
  assert (Hvalid := fin_valid cfg q Hin).
  assert (Hoor := valid_in_range cfg _ Hvalid).
  set (v := Num (Fin q)).
  set (G := fun c : cell =>
              c = v \/ exists x, c = Num x /\ isnan x = false
                                 /\ out_of_range cfg x = true).
  destruct (nth_error_split closes (S i) Hq) as (pre & rest & -> & Hlen).
  assert (Hpre : Forall (fun y => isnull y = true \/ G y) pre).
  { apply Forall_forall. intros c Hc. apply In_nth_error in Hc.
    destruct Hc as [k Hk].
    assert (Hki : (k < List.length pre)%nat) by (apply nth_error_Some; congruence).
    destruct (Hbad k) as (c' & Hc' & x & -> & Hx); [lia|].
    rewrite nth_error_app1 in Hc' by assumption. rewrite Hk in Hc'.
    injection Hc' as ->. destruct (isnan x) eqn:En.
    - left. now destruct x.
    - right. right. exists x. destruct Hx as [Hx|Hx]; [discriminate | auto]. }
  assert (HG : forall y, G y -> isnull y = false).
  { intros y [->|(x & -> & Hn & _)]; [reflexivity | now destruct x]. }
  destruct (fill_leading isnull G v pre rest eq_refl (or_introl eq_refl) HG Hpre
              None (or_introl eq_refl))
    as (head & tail & E & Hl & Hh).
  unfold bfill, ffill in Hfill. unfold v in E. rewrite E in Hfill.
  (* the filled closes as numbers *)
  symmetry in Hfill. unfold nums in Hfill. apply map_eq_app in Hfill.
  destruct Hfill as (hx & tx' & -> & Hhx & Htx).
  destruct tx' as [|x0 tx]; [discriminate|]. simpl in Htx.
  injection Htx as Hx0 Htx. subst x0.
  assert (Hlx : List.length hx = S i).
  { rewrite <- Hlen, <- Hl, <- Hhx. now rewrite length_map. }
  assert (Hgx : Forall (fun x => x = Fin q
                                 \/ (isnan x = false /\ out_of_range cfg x = true)) hx).
  { subst head. rewrite Forall_map in Hh. eapply Forall_impl; [|exact Hh].
    intros x [Hx|(x' & Hx & Hn & Ho)]; [left; now injection Hx|].
    right. injection Hx as ->. auto. }
  unfold repaired.
  destruct (any (map (out_of_range cfg) (hx ++ Fin q :: tx))) eqn:Eany.
  - set (m := fun x => if out_of_range cfg x then NaN else x).
    rewrite map_app. simpl. fold m. unfold nums. rewrite map_app. simpl.
    assert (Hmq : m (Fin q) = Fin q) by (unfold m; now rewrite Hoor).
    rewrite Hmq.
    assert (Hpre2 : Forall (fun y => isnull y = true \/ y = v) (map Num (map m hx))).
    { rewrite !Forall_map. eapply Forall_impl; [|exact Hgx].
      intros x [->|[_ Ho]]; [right; now rewrite Hmq|].
      left. unfold m. now rewrite Ho. }
    destruct (fill_leading isnull (fun y => y = v) v _ (map Num (map m tx))
                eq_refl eq_refl ltac:(now intros y ->) Hpre2
                None (or_introl eq_refl))
      as (head2 & tail2 & E2 & Hl2 & Hh2).
    unfold bfill, ffill. fold v. rewrite E2.
    rewrite !length_map in Hl2.
    destruct (Nat.eq_dec j (List.length head2)) as [->|Hne].
    + now rewrite nth_error_app2, Nat.sub_diag by lia.
    + destruct (nth_error_head (fun y => y = v) head2 tail2 v j Hh2) as (h & Hn & ->);
        [lia | assumption].
  - apply any_map_false in Eany. apply Forall_app in Eany. destruct Eany as [Eh _].
    unfold nums. rewrite map_app.
    rewrite nth_error_app1 by (rewrite length_map; lia).
    rewrite nth_error_map.
    destruct (nth_error hx j) as [x|] eqn:Ex; [|apply nth_error_None in Ex; lia].
    simpl. apply nth_error_In in Ex.
    rewrite Forall_forall in Hgx, Eh.
    destruct (Hgx x Ex) as [->|[_ Ho]]; [reflexivity|].
    rewrite (Eh x Ex) in Ho. discriminate.
Qed.

Lemma validate_prices_close (df out : DataFrame) :
  wf df -> has_col "Close" df = true ->
  validate_prices cfg df = Ok out ->
  exists closes xs,
    get_col "Close" df = Some closes
    /\ bfill (ffill closes) = nums xs
    /\ get_col "Close" out = Some (repaired cfg xs).
Proof.
  intros Hwf Hc Hout.
  destruct (validate_prices_stages _ _ _ Hout) as (d1 & d2 & d3 & E1 & E2 & E3 & E4).
  destruct (repair_prices_nrows cfg _ _ Hwf E1) as [Hwf1 _].
  destruct (repair_ohlc_frame _ _ Hwf1 E2) as [Hwf2 [_ Hg2]].
  destruct (repair_volume_frame _ _ Hwf2 E3) as [Hwf3 [_ Hg3]].
  destruct (flag_extreme_returns_frame _ _ Hwf3 E4) as [_ [_ Hg4]].
  rewrite Hg4, Hg3, Hg2 by reflexivity.
  unfold repair_prices in E1.
  apply repair_price_cols_get in E1; [|apply NoDup_filter, NoDup_price_cols].
  destruct E1 as [Hin _]. destruct (Hin "Close") as [xs [Hxs Hget]].
  { apply filter_In. split; [simpl; tauto | now rewrite has_col_gap_fill]. }
  apply getnum_ok in Hxs. rewrite get_col_gap_fill in Hxs.
  destruct (get_col "Close" df) as [closes|]; [|discriminate].
  simpl in Hxs. inversion Hxs. exists closes, xs. auto.
Qed.

End CrossSymbol.

(** C9.  The fills of the price branch run down and up the whole table
    whatever the Symbol column says.  Forward: when a row of one symbol has
    a valid Close and the next row, of another symbol, has a missing or
    out-of-range Close, the validated Close of that next row is the Close
    of the other symbol's row.  Backward: when the table begins with rows
    whose Close is missing or out of range, the last of them of one symbol,
    and the next row, of another symbol, has a valid Close, the validated
    Close of each of these rows is the Close of the other symbol's row. *)
Theorem validate_fills_across_symbols
        (cfg : Config) (df out : DataFrame) (symbols closes : column)
        (i : nat) (a b : string) (q : Q) :
  wf df ->
  get_col "Symbol" df = Some symbols ->
  get_col "Close" df = Some closes ->
  nth_error symbols i = Some (Str a) ->
  nth_error symbols (S i) = Some (Str b) ->
  a <> b ->
  in_range cfg q ->
  validate cfg (Some df) = Ok out ->
  exists col,
    get_col "Close" out = Some col
    /\ (forall x,
          nth_error closes i = Some (Num (Fin q)) ->
          nth_error closes (S i) = Some (Num x) ->
          isnan x = true \/ out_of_range cfg x = true ->
          nth_error col (S i) = Some (Num (Fin q)))
    /\ (nth_error closes (S i) = Some (Num (Fin q)) ->
        (forall j, (j <= i)%nat ->
                   exists c, nth_error closes j = Some c /\ bad_price cfg c) ->
        forall j, (j <= i)%nat -> nth_error col j = Some (Num (Fin q))).
Proof.
  intros Hwf Hsym Hclose Ha Hb Hab Hq Hout.
  assert (Hs : is_price_shaped df = true).
  { unfold is_price_shaped. now rewrite !has_col_get, Hsym, Hclose. }
  assert (Hn : nrows df <> 0%nat).
  { rewrite <- (wf_get _ _ _ Hwf Hsym). destruct symbols; [|simpl; lia].
    destruct i; discriminate. }
  rewrite validate_price_shaped in Hout by assumption.
  destruct (validate_prices_close cfg df out Hwf) as (closes' & xs & Hc & Hfill & Hget);
    [now rewrite has_col_get, Hclose | assumption |].
  rewrite Hclose in Hc. inversion Hc; subst closes'.
  exists (repaired cfg xs). split; [assumption|]. split.
  - intros x Hi Hx Hbad.
    assert (Hxi : nth_error xs i = Some (Fin q)).
    { assert (H : nth_error (nums xs) i = Some (Num (Fin q))).
      { rewrite <- Hfill. unfold bfill, ffill.
        apply nth_bfill_gen_present; [|reflexivity].
        apply nth_ffill_from_present; [assumption | reflexivity]. }
      unfold nums in H. rewrite nth_error_map in H.
      destruct (nth_error xs i); simpl in H; congruence. }
    destruct x as [| |qx|].
    + (* a missing close: the first fill already takes the value above *)
      assert (Hxs : nth_error xs (S i) = Some (Fin q)).
      { assert (H : nth_error (nums xs) (S i) = Some (Num (Fin q))).
        { rewrite <- Hfill. unfold bfill, ffill.
          apply nth_bfill_gen_present; [|reflexivity].
          apply (nth_ffill_from_gap isnull None closes i (Num (Fin q)) (Num NaN));
            auto; reflexivity. }
        unfold nums in H. rewrite nth_error_map in H.
        destruct (nth_error xs (S i)); simpl in H; congruence. }
      now apply repaired_nth_valid.
    + destruct Hbad as [Hbad|Hbad]; [discriminate|].
      apply (repaired_nth_gap cfg xs i q NInf); auto.
      assert (H : nth_error (nums xs) (S i) = Some (Num NInf)).
      { rewrite <- Hfill. unfold bfill, ffill.
        apply nth_bfill_gen_present; [|reflexivity].
        apply nth_ffill_from_present; [assumption | reflexivity]. }
      unfold nums in H. rewrite nth_error_map in H.
      destruct (nth_error xs (S i)); simpl in H; congruence.
    + destruct Hbad as [Hbad|Hbad]; [discriminate|].
      apply (repaired_nth_gap cfg xs i q (Fin qx)); auto.
      assert (H : nth_error (nums xs) (S i) = Some (Num (Fin qx))).
      { rewrite <- Hfill. unfold bfill, ffill.
        apply nth_bfill_gen_present; [|reflexivity].
        apply nth_ffill_from_present; [assumption | reflexivity]. }
      unfold nums in H. rewrite nth_error_map in H.
      destruct (nth_error xs (S i)); simpl in H; congruence.
    + destruct Hbad as [Hbad|Hbad]; [discriminate|].
      apply (repaired_nth_gap cfg xs i q PInf); auto.
      assert (H : nth_error (nums xs) (S i) = Some (Num PInf)).
      { rewrite <- Hfill. unfold bfill, ffill.
        apply nth_bfill_gen_present; [|reflexivity].
        apply nth_ffill_from_present; [assumption | reflexivity]. }
      unfold nums in H. rewrite nth_error_map in H.
      destruct (nth_error xs (S i)); simpl in H; congruence.
  - intros Hnext Hbad. now apply (repaired_leading cfg closes xs i q).
Qed.

Lemma validate_fills_across_symbols_witness :
  (exists out col,
      validate default_config (Some sample_prices) = Ok out
      /\ get_col "Close" out = Some col
      /\ nth_error col 2 = Some (num 10))
  /\ (exists out col,
         validate default_config (Some leading_gap) = Ok out
         /\ get_col "Close" out = Some col
         /\ nth_error col 0 = Some (num 20)).
Proof.
  split.
  - destruct (validate_fills_across_symbols default_config sample_prices _
                [Str "AAA"; Str "AAA"; Str "BBB"; Str "BBB"]
                [num 11; num 10; Num NaN; num 999999]
                1 "AAA" "BBB" 10
                ltac:(repeat constructor) eq_refl eq_refl eq_refl eq_refl
                ltac:(discriminate) ltac:(split; discriminate) eq_refl)
      as (col & Hget & Hforward & _).
    eexists. exists col. split; [reflexivity|]. split; [exact Hget|].
    exact (Hforward NaN eq_refl eq_refl (or_introl eq_refl)).
  - destruct (validate_fills_across_symbols default_config leading_gap _
                [Str "AAA"; Str "BBB"; Str "BBB"]
                [Num NaN; num 20; num 21]
                0 "AAA" "BBB" 20
                ltac:(repeat constructor) eq_refl eq_refl eq_refl eq_refl
                ltac:(discriminate) ltac:(split; discriminate) eq_refl)
      as (col & Hget & _ & Hbackward).
    eexists. exists col. split; [reflexivity|]. split; [exact Hget|].
    apply (Hbackward eq_refl); [|lia].
    intros j Hj. assert (j = 0%nat) as -> by lia.
    exists (Num NaN). split; [reflexivity|]. exists NaN. auto.
Defined.

(** ** Validation of a clean table *)

Section Idempotence.

Variable cfg : Config.

Lemma repair_price_col_clean (name : string) (df : DataFrame) :
  valid_column cfg name df -> repair_price_col cfg name df = Ok df.
Proof.
  intros [xs [Hxs Hv]]. unfold repair_price_col. rewrite Hxs. simpl.
  rewrite Forall_any_false; [reflexivity|].
  eapply Forall_impl; [|exact Hv]. intros x. apply valid_in_range.
Qed.

Lemma repair_price_cols_clean (names : list string) (df : DataFrame) :
  (forall name, In name names -> valid_column cfg name df) ->
  repair_price_cols cfg names df = Ok df.
Proof.
  induction names as [|name rest IH]; intros H; simpl; [reflexivity|].
  rewrite repair_price_col_clean by (apply H; now left). simpl.
  apply IH. intros n Hn. apply H. now right.
Qed.

Lemma repair_prices_clean (df : DataFrame) :
  clean_columns cfg df -> repair_prices cfg df = Ok df.
Proof.
  intros Hc. unfold repair_prices.
  rewrite (gap_fill_present df (cc_present cfg df Hc)).
  apply repair_price_cols_clean. intros name Hin. apply filter_In in Hin.
  destruct Hin as [Hin Hhas]. now apply (cc_prices cfg df Hc).
Qed.

Lemma repair_ohlc_clean (df : DataFrame) :
  clean_columns cfg df -> repair_ohlc df = Ok df.
Proof.
  intros Hc. destruct (cc_ohlc cfg df Hc) as (o & h & l & c & Ho & Hh & Hl & Hcl & Hany).
  unfold repair_ohlc. rewrite Hh, Hl, Ho, Hcl. simpl. now rewrite Hany.
Qed.

Lemma repair_volume_clean (df : DataFrame) :
  clean_columns cfg df -> repair_volume df = Ok df.
Proof.
  intros Hc. unfold repair_volume.
  destruct (has_col "Volume" df) eqn:E; [|reflexivity].
  destruct (cc_volume cfg df Hc E) as [v [Hv Hpos]]. rewrite Hv. simpl.
  now rewrite Forall_any_false.
Qed.

(** On a clean table only the flag step can change anything. *)
Lemma validate_prices_clean (df : DataFrame) :
  clean_columns cfg df -> validate_prices cfg df = flag_extreme_returns df.
Proof.
  intros Hc. unfold validate_prices.
  rewrite (repair_prices_clean df Hc). simpl.
  rewrite (repair_ohlc_clean df Hc). simpl.
  now rewrite (repair_volume_clean df Hc).
Qed.

Lemma getnum_set_other (name other : string) (col : column) (df : DataFrame) :
  String.eqb name other = false ->
  getnum other (set_col name col df) = getnum other df.
Proof. intros H. unfold getnum. now rewrite get_set_other. Qed.

(** Adding the flags to a clean table gives a clean table. *)
Lemma clean_flagged (df : DataFrame) (flags : list bool) :
  clean_columns cfg df -> List.length flags = nrows df ->
  clean_columns cfg (set_col "Extreme_Return_Flag" (map Flag flags) df).
Proof.
  intros Hc Hlen.
  assert (Hl : List.length (map Flag flags) = nrows df) by now rewrite length_map.
  constructor.
  - apply wf_set_col; [apply (cc_wf cfg df Hc) | assumption].
  - unfold is_price_shaped. rewrite !has_set_other by reflexivity.
    apply (cc_shape cfg df Hc).
  - apply Forall_set_col; [apply (cc_present cfg df Hc)|].
    intros n. simpl. apply Forall_map. apply Forall_forall. reflexivity.
  - intros name Hin Hhas.
    assert (Hne : String.eqb "Extreme_Return_Flag" name = false).
    { simpl in Hin. repeat destruct Hin as [Hin|Hin]; subst; try reflexivity.
      destruct Hin. }
    rewrite has_set_other in Hhas by assumption.
    destruct (cc_prices cfg df Hc name Hin Hhas) as [xs [Hxs Hv]].
    exists xs. split; [|assumption]. now rewrite getnum_set_other.
  - destruct (cc_ohlc cfg df Hc) as (o & h & l & c & Ho & Hh & Hlo & Hcl & Hany).
    exists o, h, l, c. rewrite !getnum_set_other by reflexivity. auto.
  - rewrite has_set_other by reflexivity. intros Hv.
    destruct (cc_volume cfg df Hc Hv) as [v [Hgv Hpos]].
    exists v. rewrite getnum_set_other by reflexivity. auto.
  - rewrite has_set_other by reflexivity. intros Hr.
    destruct (cc_returns cfg df Hc Hr) as [r Hgr].
    exists r. now rewrite getnum_set_other.
Qed.

Lemma flag_extreme_returns_clean (df : DataFrame) :
  clean_columns cfg df ->
  exists out, flag_extreme_returns df = Ok out
              /\ clean_columns cfg out /\ flag_extreme_returns out = Ok out.
Proof.
  intros Hc. assert (Hwf := cc_wf cfg df Hc).
  destruct (has_col "Daily_Return" df) eqn:Edr.
  - destruct (cc_returns cfg df Hc Edr) as [r Hr].
    assert (Hlen : List.length r = nrows df).
    { rewrite <- length_nums. apply (wf_get df "Daily_Return"); auto.
      now apply getnum_ok. }
    destruct (any (map extreme r)) eqn:Eany.
    + exists (set_col "Extreme_Return_Flag" (map Flag (map extreme r)) df).
      assert (Hflags : loc_set (map extreme r) true (repeat false (nrows df))
                       = map extreme r).
      { rewrite <- Hlen, <- (length_map extreme). apply loc_set_flags. }
      assert (Hcf : clean_columns cfg (set_col "Extreme_Return_Flag"
                                 (map Flag (map extreme r)) df)).
      { apply clean_flagged; [assumption | now rewrite length_map]. }
      split; [|split; [exact Hcf|]].
      * unfold flag_extreme_returns. rewrite Edr, Hr. simpl.
        now rewrite Eany, Hflags.
      * unfold flag_extreme_returns.
        rewrite has_set_other, getnum_set_other by reflexivity.
        rewrite Edr, Hr. simpl. rewrite Eany.
        rewrite nrows_set_col by (now rewrite !length_map).
        now rewrite Hflags, set_col_twice.
    + exists df. unfold flag_extreme_returns. rewrite Edr, Hr. simpl.
      rewrite Eany. auto.
  - exists df. unfold flag_extreme_returns. rewrite Edr. auto.
Qed.

End Idempotence.

(** ** From the invariant to the columns *)

Lemma row_of_nth (df : DataFrame) (i : nat) (r : prices) (co ch cl cc : column) :
  row_of df i = Some r ->
  get_col "Open" df = Some co -> get_col "High" df = Some ch ->
  get_col "Low" df = Some cl -> get_col "Close" df = Some cc ->
  nth_error co i = Some (Num (p_open r)) /\ nth_error ch i = Some (Num (p_high r))
  /\ nth_error cl i = Some (Num (p_low r)) /\ nth_error cc i = Some (Num (p_close r)).
Proof.
  intros Hrow Ho Hh Hl Hc. unfold row_of in Hrow. rewrite Ho, Hh, Hl, Hc in Hrow.
  destruct (nth_error co i) as [[o| | |]|]; try discriminate;
    destruct (nth_error ch i) as [[h| | |]|]; try discriminate;
    destruct (nth_error cl i) as [[l| | |]|]; try discriminate;
    destruct (nth_error cc i) as [[c| | |]|]; try discriminate.
  inversion Hrow; subst r. simpl. auto.
Qed.

Lemma row_of_columns (df : DataFrame) (i : nat) (r : prices) :
  row_of df i = Some r ->
  exists co ch cl cc,
    get_col "Open" df = Some co /\ get_col "High" df = Some ch
    /\ get_col "Low" df = Some cl /\ get_col "Close" df = Some cc.
Proof.
  unfold row_of.
  destruct (get_col "Open" df) as [co|]; [|discriminate].
  destruct (get_col "High" df) as [ch|]; [|discriminate].
  destruct (get_col "Low" df) as [cl|]; [|discriminate].
  destruct (get_col "Close" df) as [cc|]; [|discriminate].
  intros _. exists co, ch, cl, cc. auto.
Qed.

Section InvariantColumns.

Variable cfg : Config.

(** Under the invariant, a price column read through a projection of the rows
    holds valid prices only. *)
Lemma invariant_column (df : DataFrame) (name : string) (col : column)
      (proj : prices -> fval) :
  wf df -> price_invariant cfg df ->
  get_col name df = Some col ->
  (forall i r, row_of df i = Some r -> nth_error col i = Some (Num (proj r))) ->
  (forall o h l c, in_range cfg o -> in_range cfg h -> in_range cfg l ->
                   in_range cfg c -> valid cfg (proj (fin_row o h l c)) = true) ->
  exists xs, col = nums xs /\ Forall (fun x => valid cfg x = true) xs.
Proof.
  intros Hwf Hinv Hget Hproj Hvalid. apply cell_valid_nums.
  apply Forall_forall. intros c Hc. apply In_nth_error in Hc.
  destruct Hc as [i Hi].
  assert (Hlt : (i < nrows df)%nat).
  { rewrite <- (wf_get _ _ _ Hwf Hget). apply nth_error_Some. congruence. }
  destruct (Hinv i Hlt) as (o & h & l & c' & Hrow & _ & _ & _ & _ & Ro & Rh & Rl & Rc).
  rewrite (Hproj _ _ Hrow) in Hi. inversion Hi; subst c. simpl. now apply Hvalid.
Qed.

Lemma invariant_columns (df : DataFrame) :
  wf df -> nrows df <> 0%nat -> price_invariant cfg df ->
  exists o h l c,
    getnum "Open" df = Ok o /\ getnum "High" df = Ok h
    /\ getnum "Low" df = Ok l /\ getnum "Close" df = Ok c
    /\ Forall (fun x => valid cfg x = true) o
    /\ Forall (fun x => valid cfg x = true) h
    /\ Forall (fun x => valid cfg x = true) l
    /\ Forall (fun x => valid cfg x = true) c
    /\ any (map inconsistent (price_rows o h l c)) = false.
Proof.
  intros Hwf Hnz Hinv.
  destruct (Hinv 0%nat) as (o0 & h0 & l0 & c0 & Hrow0 & _); [lia|].
  destruct (row_of_columns _ _ _ Hrow0) as (co & ch & cl & cc & Ho & Hh & Hl & Hc).
  assert (Hnth := fun i r (H : row_of df i = Some r) =>
                    row_of_nth df i r co ch cl cc H Ho Hh Hl Hc).
  destruct (invariant_column df "Open" co p_open Hwf Hinv Ho) as [o [-> Vo]];
    [intros i r H; apply (Hnth i r H)
    | intros; simpl; now apply fin_valid |].
  destruct (invariant_column df "High" ch p_high Hwf Hinv Hh) as [h [-> Vh]];
    [intros i r H; apply (Hnth i r H)
    | intros; simpl; now apply fin_valid |].
  destruct (invariant_column df "Low" cl p_low Hwf Hinv Hl) as [l [-> Vl]];
    [intros i r H; apply (Hnth i r H)
    | intros; simpl; now apply fin_valid |].
  destruct (invariant_column df "Close" cc p_close Hwf Hinv Hc) as [c [-> Vc]];
    [intros i r H; apply (Hnth i r H)
    | intros; simpl; now apply fin_valid |].
  exists o, h, l, c.
  repeat (split; [first [now apply getnum_of_get | assumption]|]).
  apply Forall_any_false. apply Forall_forall. intros r Hr.
  apply In_nth_error in Hr. destruct Hr as [i Hi].
  destruct (price_rows_nth _ _ _ _ _ _ Hi) as [Io [Ih [Il Ic]]].
  assert (Hlt : (i < nrows df)%nat).
  { rewrite <- (wf_get _ _ _ Hwf Ho), length_nums. apply nth_error_Some. congruence. }
  destruct (Hinv i Hlt) as (qo & qh & ql & qc & Hrow & B1 & B2 & B3 & B4 & _).
  destruct (Hnth i _ Hrow) as [No [Nh [Nl Nc]]]. simpl in No, Nh, Nl, Nc.
  unfold nums in No, Nh, Nl, Nc.
  rewrite (map_nth_error Num _ _ Io) in No.
  rewrite (map_nth_error Num _ _ Ih) in Nh.
  rewrite (map_nth_error Num _ _ Il) in Nl.
  rewrite (map_nth_error Num _ _ Ic) in Nc.
  assert (Hr : r = fin_row qo qh ql qc).
  { destruct r; simpl in *; unfold fin_row; congruence. }
  rewrite Hr. now apply consistent_fin_iff.
Qed.

Lemma fle_zero_not_negative (x : fval) :
  fle (Fin 0) x = true -> flt x (Fin 0) = false.
Proof.
  destruct x as [| |q|]; simpl; try discriminate; try reflexivity.
  intros H. apply Qlt_bool_false. now apply Qle_bool_iff.
Qed.

(** A clean table with rows passes every test of [validate]. *)
Lemma clean_columns_of_clean (df : DataFrame) :
  clean cfg df -> nrows df <> 0%nat -> clean_columns cfg df.
Proof.
  intros Hc Hnz.
  destruct (invariant_columns df (clean_wf cfg df Hc) Hnz (clean_invariant cfg df Hc))
    as (o & h & l & c & Ho & Hh & Hl & Hcl & Vo & Vh & Vl & Vc & Hany).
  constructor.
  - apply (clean_wf cfg df Hc).
  - apply (clean_shape cfg df Hc).
  - apply (clean_present cfg df Hc).
  - intros name Hin Hhas. simpl in Hin.
    destruct Hin as [<-|[<-|[<-|[<-|[<-|[]]]]]].
    + exists o. auto.
    + exists h. auto.
    + exists l. auto.
    + exists c. auto.
    + now apply (clean_adj_close cfg df Hc).
  - exists o, h, l, c. auto.
  - intros Hv. destruct (clean_volume cfg df Hc Hv) as [v [Hgv Hpos]].
    exists v. split; [assumption|]. eapply Forall_impl; [|exact Hpos].
    intros x. apply fle_zero_not_negative.
  - apply (clean_returns cfg df Hc).
Qed.

End InvariantColumns.

(** C5.  On a clean price table (no missing value, prices within the bounds,
    consistent rows, no negative volume) validation succeeds, and validating
    its result again gives that same result. *)
Theorem validate_idempotent (cfg : Config) (df : DataFrame) :
  clean cfg df ->
  exists out,
    validate cfg (Some df) = Ok out /\ validate cfg (Some out) = Ok out.
Proof.
  intros Hclean. assert (Hs := clean_shape cfg df Hclean).
  destruct (Nat.eq_dec (nrows df) 0) as [Hz|Hnz].
  - exists empty_frame. unfold validate. rewrite Hz. simpl. auto.
  - assert (Hc := clean_columns_of_clean cfg df Hclean Hnz).
    destruct (flag_extreme_returns_clean cfg df Hc) as [out [Hout [Hco Hagain]]].
    exists out. rewrite (validate_price_shaped cfg df Hnz Hs).
    rewrite (validate_prices_clean cfg df Hc). split; [assumption|].
    assert (Hn : nrows out = nrows df).
    { destruct (flag_extreme_returns_frame _ _ (cc_wf cfg df Hc) Hout)
        as [_ [Hn _]]. exact Hn. }
    rewrite (validate_price_shaped cfg out);
      [|congruence | apply (cc_shape cfg out Hco)].
    now rewrite (validate_prices_clean cfg out Hco).
Qed.

Lemma clean_prices_sample_clean : clean default_config clean_prices_sample.
Proof.
  constructor.
  - repeat constructor.
  - reflexivity.
  - repeat constructor.
  - intros i Hi. simpl in Hi.
    destruct i as [|[|i]]; [| |lia].
    + exists 10, 12, 9, 10. split; [reflexivity|].
      unfold in_range; simpl. repeat split; discriminate.
    + exists 20, 22, 19, 20. split; [reflexivity|].
      unfold in_range; simpl. repeat split; discriminate.
  - discriminate.
  - intros _. eexists. split; [reflexivity | repeat constructor].
  - intros _. eexists. reflexivity.
Defined.

Lemma validate_idempotent_witness :
  exists out,
    validate default_config (Some clean_prices_sample) = Ok out
    /\ validate default_config (Some out) = Ok out.
Proof.
  exact (validate_idempotent default_config clean_prices_sample
           clean_prices_sample_clean).
Defined.

(** ** Price tables without their four price columns *)

(** C10.  Once a table with rows is recognised as a price table (Symbol and
    Close present), validation succeeds only if Open, High and Low are
    present too: when one of them is absent, validation raises and returns
    no table. *)
Theorem validate_needs_ohlc (cfg : Config) (df : DataFrame) :
  nrows df <> 0%nat ->
  is_price_shaped df = true ->
  has_col "Open" df && has_col "High" df && has_col "Low" df = false ->
  exists e, validate cfg (Some df) = Err e.
Proof.
  intros Hn Hs Hmiss. rewrite (validate_price_shaped cfg df Hn Hs).
  destruct (validate_prices cfg df) as [out|e] eqn:E; [|eauto].
  destruct (validate_prices_needs cfg df out E) as [Ho [Hh [Hl _]]].
  rewrite Ho, Hh, Hl in Hmiss. discriminate.
Qed.

Lemma validate_needs_ohlc_witness :
  exists e, validate default_config (Some no_high) = Err e.
Proof.
  apply (validate_needs_ohlc default_config no_high);
    [discriminate | reflexivity | reflexivity].
Defined.

(** The exception is the [KeyError] of the first column that is looked up
    and not found. *)
Example validate_no_high :
  validate default_config (Some no_high) = Err (KeyError "High").
Proof. reflexivity. Qed.

(** ** Elementwise operations *)

Lemma length_map2 {A B C : Type} (f : A -> B -> C) (xs : list A) (ys : list B) :
  List.length xs = List.length ys -> List.length (map2 f xs ys) = List.length xs.
Proof.
  revert ys. induction xs as [|x xs IH]; intros [|y ys]; simpl; try discriminate; auto.
Qed.

Lemma nth_error_map2 {A B C : Type} (f : A -> B -> C) (xs : list A) (ys : list B)
      (i : nat) (a : A) (b : B) :
  nth_error xs i = Some a -> nth_error ys i = Some b ->
  nth_error (map2 f xs ys) i = Some (f a b).
Proof.
  revert ys i. induction xs as [|x xs IH]; intros [|y ys] [|i]; simpl;
    try discriminate; auto.
  intros Ha Hb. inversion Ha. inversion Hb. reflexivity.
Qed.

Lemma map2_app {A B C : Type} (f : A -> B -> C) (xs xs' : list A) (ys ys' : list B) :
  List.length xs = List.length ys ->
  map2 f (xs ++ xs')%list (ys ++ ys')%list = (map2 f xs ys ++ map2 f xs' ys')%list.
Proof.
  revert ys. induction xs as [|x xs IH]; intros [|y ys]; simpl; try discriminate; auto.
  intros H. f_equal. apply IH. congruence.
Qed.

Lemma loc_set_map2 {A : Type} (mask : list bool) (v : A) (xs : list A) :
  loc_set mask v xs = map2 (fun (m : bool) x => if m then v else x) mask xs.
Proof. reflexivity. Qed.

Lemma length_rolling (n : nat) (agg : list Q -> fval) (xs : list fval) :
  List.length (rolling n agg xs) = List.length xs.
Proof. unfold rolling. now rewrite length_map, length_seq. Qed.

Lemma nth_error_rolling (n : nat) (agg : list Q -> fval) (xs : list fval) (i : nat) :
  (i < List.length xs)%nat ->
  nth_error (rolling n agg xs) i
  = Some (let obs := observations (window n i xs) in
          if (n <=? List.length obs)%nat then agg obs else NaN).
Proof.
  intros Hi. unfold rolling.
  rewrite nth_error_map, nth_error_seq.
  destruct (Nat.ltb_spec i (List.length xs)); [reflexivity | lia].
Qed.

(** ** Names of the moving-average columns *)

Lemma string_of_nat_inj (a b : nat) : string_of_nat a = string_of_nat b -> a = b.
Proof.
  unfold string_of_nat. intros H.
  assert (Hu : Nat.to_uint a = Nat.to_uint b).
  { apply (f_equal NilEmpty.uint_of_string) in H.
    rewrite !NilEmpty.usu in H. congruence. }
  apply (f_equal Nat.of_uint) in Hu. now rewrite !DecimalNat.Unsigned.of_to in Hu.
Qed.

Lemma ma_name_inj (a b : nat) : ma_name a = ma_name b -> a = b.
Proof.
  unfold ma_name. simpl. intros H. inversion H. now apply string_of_nat_inj.
Qed.

Lemma ma_name_signal (n : nat) : String.eqb (ma_name n) "MA_Signal" = false.
Proof.
  unfold ma_name, string_of_nat. simpl. destruct (Nat.to_uint n); reflexivity.
Qed.

Lemma signal_ma_name (n : nat) : String.eqb "MA_Signal" (ma_name n) = false.
Proof. rewrite String.eqb_sym. apply ma_name_signal. Qed.

Ltac name_neq :=
  first [ reflexivity | apply ma_name_signal | apply signal_ma_name ].

Ltac peel := repeat (rewrite get_set_other by name_neq).

(** ** The columns computed for one symbol *)

Section SymbolMetrics.

Variable cfg : Config.
Variable sqrtQ : Q -> Q.

Lemma symbol_metrics_columns (sdf out : DataFrame) :
  symbol_metrics cfg sqrtQ sdf = Ok out ->
  exists close,
    getnum "Close" sdf = Ok close
    /\ get_col (ma_name (ma_short_window cfg)) out
       = Some (nums (rolling (ma_short_window cfg) agg_mean close))
    /\ get_col (ma_name (ma_long_window cfg)) out
       = Some (nums (rolling (ma_long_window cfg) agg_mean close))
    /\ get_col "MA_Signal" out
       = Some (nums (ma_signal (nrows sdf)
                       (rolling (ma_short_window cfg) agg_mean close)
                       (rolling (ma_long_window cfg) agg_mean close)))
    /\ get_col "Volatility" out
       = Some (nums (volatility sqrtQ (volatility_window cfg) (pct_change 1 close)))
    /\ get_col "RSI" out = Some (nums (rsi close))
    /\ get_col "BB_Middle" out = Some (nums (rolling 20 agg_mean close))
    /\ get_col "BB_Std" out = Some (nums (rolling 20 (agg_std sqrtQ) close))
    /\ get_col "BB_Upper" out
       = Some (nums (map2 fadd (rolling 20 agg_mean close)
                       (map (fun s => fmul s (Fin 2))
                            (rolling 20 (agg_std sqrtQ) close))))
    /\ get_col "BB_Lower" out
       = Some (nums (map2 fsub (rolling 20 agg_mean close)
                       (map (fun s => fmul s (Fin 2))
                            (rolling 20 (agg_std sqrtQ) close)))).
Proof.
  unfold symbol_metrics.
  destruct (getnum "Close" sdf) as [close|] eqn:Ec; simpl; [|discriminate].
  intros H. inversion H; subst out; clear H. exists close.
  split; [reflexivity|].
  repeat split; peel; try apply get_set_same.
  - destruct (String.eqb (ma_name (ma_long_window cfg))
                (ma_name (ma_short_window cfg))) eqn:E.
    + apply String.eqb_eq in E. rewrite <- E, get_set_same.
      apply ma_name_inj in E. now rewrite E.
    + rewrite get_set_other by assumption. apply get_set_same.
Qed.

End SymbolMetrics.

(** ** Rolling windows *)

Lemma length_observations (w : list fval) :
  (List.length (observations w) <= List.length w)%nat.
Proof.
  induction w as [|x w IH]; simpl; [lia|].
  destruct x; simpl; lia.
Qed.

Lemma observations_finite (w : list fval) :
  Forall (fun x => is_finite x = true) w ->
  List.length (observations w) = List.length w.
Proof.
  induction 1 as [|x w Hx _ IH]; simpl; [reflexivity|].
  destruct x; simpl in *; try discriminate. now rewrite IH.
Qed.

Lemma length_window (n i : nat) (xs : list fval) :
  (i < List.length xs)%nat ->
  List.length (window n i xs) = Nat.min n (S i).
Proof.
  intros Hi. unfold window. rewrite length_skipn, length_firstn. lia.
Qed.

Lemma Forall_prefix {A : Type} (P : A -> Prop) (k : nat) (xs : list A) :
  Forall P xs -> Forall P (firstn k xs).
Proof.
  intros H. rewrite <- (firstn_skipn k xs) in H. now apply Forall_app in H.
Qed.

Lemma Forall_suffix {A : Type} (P : A -> Prop) (k : nat) (xs : list A) :
  Forall P xs -> Forall P (skipn k xs).
Proof.
  intros H. rewrite <- (firstn_skipn k xs) in H. now apply Forall_app in H.
Qed.

Lemma Forall_window (P : fval -> Prop) (n i : nat) (xs : list fval) :
  Forall P xs -> Forall P (window n i xs).
Proof.
  intros H. unfold window. now apply Forall_suffix, Forall_prefix.
Qed.

(** During the warm-up the window is too short: the value is missing,
    whatever the aggregation. *)
Lemma rolling_warm_up (n : nat) (agg : list Q -> fval) (xs : list fval)
      (i : nat) (v : fval) :
  (S i < n)%nat -> nth_error (rolling n agg xs) i = Some v -> v = NaN.
Proof.
  intros Hlt Hv.
  assert (Hi : (i < List.length xs)%nat).
  { rewrite <- (length_rolling n agg). apply nth_error_Some. congruence. }
  rewrite (nth_error_rolling n agg xs i Hi) in Hv. inversion Hv; subst v; clear Hv.
  simpl. assert (Hw := length_window n i xs Hi).
  assert (Ho := length_observations (window n i xs)).
  destruct (Nat.leb_spec n (List.length (observations (window n i xs))));
    [lia | reflexivity].
Qed.

(** Once the window is full of finite values the aggregation applies. *)
Lemma rolling_filled (n : nat) (agg : list Q -> fval) (xs : list fval) (i : nat) :
  Forall (fun x => is_finite x = true) xs ->
  (n <= S i)%nat -> (i < List.length xs)%nat ->
  exists obs, List.length obs = n
              /\ nth_error (rolling n agg xs) i = Some (agg obs).
Proof.
  intros Hfin Hn Hi. exists (observations (window n i xs)).
  assert (Hlen : List.length (observations (window n i xs)) = n).
  { rewrite observations_finite by now apply Forall_window.
    rewrite length_window by assumption. lia. }
  split; [assumption|]. rewrite nth_error_rolling by assumption. simpl.
  rewrite Hlen, Nat.leb_refl. reflexivity.
Qed.

Lemma agg_mean_fin (obs : list Q) :
  (1 <= List.length obs)%nat -> exists q, agg_mean obs = Fin q.
Proof.
  intros H. unfold agg_mean.
  destruct (Nat.ltb_spec 0 (List.length obs)); [eauto | lia].
Qed.

Lemma agg_std_fin (sqrtQ : Q -> Q) (obs : list Q) :
  (2 <= List.length obs)%nat -> exists q, agg_std sqrtQ obs = Fin q.
Proof.
  intros H. unfold agg_std.
  destruct (Nat.ltb_spec 1 (List.length obs)); [eauto | lia].
Qed.

(** ** Relative strength index *)

Lemma Qsign_zero (q : Q) : q == 0 -> Qsign q = Eq.
Proof. intros H. unfold Qsign. apply Qeq_alt. now symmetry. Qed.

Lemma Qsign_pos (q : Q) : 0 < q -> Qsign q = Lt.
Proof. intros H. unfold Qsign. now apply Qlt_alt. Qed.

Lemma rsi_of_zero_loss (g l : Q) :
  l == 0 -> 0 < g -> exists r, rsi_of (fdiv (Fin g) (Fin l)) = Fin r /\ r == 100.
Proof.
  intros Hl Hg. unfold fdiv. rewrite (Qsign_zero l Hl), (Qsign_pos g Hg).
  simpl. eexists. split; [reflexivity|]. lra.
Qed.

Lemma rsi_of_no_move (g l : Q) :
  l == 0 -> g == 0 -> rsi_of (fdiv (Fin g) (Fin l)) = NaN.
Proof.
  intros Hl Hg. unfold fdiv. now rewrite (Qsign_zero l Hl), (Qsign_zero g Hg).
Qed.

(** C8 (as amended).  On a row where the RSI window is filled and the
    average loss is 0, no error is raised; the RSI is 100 when the average
    gain is positive, and undefined (NaN) when the average gain is 0 as
    well. *)
Theorem rsi_zero_loss (cfg : Config) (sqrtQ : Q -> Q) (sdf out : DataFrame)
        (close : list fval) (i : nat) (g l : Q) :
  symbol_metrics cfg sqrtQ sdf = Ok out ->
  getnum "Close" sdf = Ok close ->
  nth_error (avg_loss close) i = Some (Fin l) ->
  l == 0 ->
  nth_error (avg_gain close) i = Some (Fin g) ->
  exists col,
    get_col "RSI" out = Some col
    /\ (0 < g -> exists r, nth_error col i = Some (Num (Fin r)) /\ r == 100)
    /\ (g == 0 -> nth_error col i = Some (Num NaN)).
Proof.
  intros Hout Hclose Hl Hzero Hg.
  destruct (symbol_metrics_columns cfg sqrtQ sdf out Hout)
    as (close' & Hc' & _ & _ & _ & _ & Hrsi & _).
  rewrite Hclose in Hc'. inversion Hc'; subst close'.
  exists (nums (rsi close)). split; [assumption|].
  assert (Hnth : nth_error (nums (rsi close)) i
                 = Some (Num (rsi_of (fdiv (Fin g) (Fin l))))).
  { unfold nums, rsi. rewrite !nth_error_map.
    now rewrite (nth_error_map2 fdiv _ _ i _ _ Hg Hl). }
  rewrite Hnth. split.
  - intros Hpos. destruct (rsi_of_zero_loss g l Hzero Hpos) as [r [-> Hr]]. eauto.
  - intros Hg0. now rewrite (rsi_of_no_move g l Hzero Hg0).
Qed.

Lemma rsi_zero_loss_witness :
  exists out col r,
    symbol_metrics default_config sqrt_approx rising_days = Ok out
    /\ get_col "RSI" out = Some col
    /\ nth_error col 14 = Some (Num (Fin r)) /\ r == 100.
Proof.
  destruct (rsi_zero_loss default_config sqrt_approx rising_days _
              (map (fun z => Fin (inject_Z z))
                   [1; 2; 3; 4; 5; 6; 7; 8; 9; 10; 11; 12; 13; 14; 15]%Z)
              14 (14 # 14) (0 # 14) eq_refl eq_refl eq_refl eq_refl eq_refl)
    as [col [Hget [Hpos _]]].
  destruct (Hpos eq_refl) as [r [Hr H100]].
  eexists. exists col, r.
  split; [reflexivity|]. split; [exact Hget|]. split; assumption.
Defined.

(** Prices that do not move: average gain and average loss are both 0, and
    the RSI is undefined, not 100. *)
Lemma rsi_zero_loss_fails :
  exists out col l,
    symbol_metrics default_config sqrt_approx flat_days = Ok out
    /\ nth_error (avg_loss (repeat (Fin 50) 15)) 14 = Some (Fin l) /\ l == 0
    /\ get_col "RSI" out = Some col
    /\ nth_error col 14 = Some (Num NaN).
Proof.
  eexists. eexists. eexists.
  split; [vm_compute; reflexivity|].
  split; [vm_compute; reflexivity|].
  split; [reflexivity|].
  split; [vm_compute; reflexivity | reflexivity].
Qed.

(** ** Returns and volatility *)

Lemma fdiv_nan_r (x : fval) : fdiv x NaN = NaN.
Proof. now destruct x. Qed.

Lemma length_shift (k : nat) (xs : list fval) :
  List.length (shift k xs) = List.length xs.
Proof.
  unfold shift. rewrite length_firstn, length_app, repeat_length. lia.
Qed.

Lemma length_ffill_floats (xs : list fval) :
  List.length (ffill_floats xs) = List.length xs.
Proof. apply length_ffill_from. Qed.

Lemma length_pct_change (k : nat) (xs : list fval) :
  List.length (pct_change k xs) = List.length xs.
Proof.
  unfold pct_change. rewrite length_map2; [apply length_ffill_floats|].
  now rewrite length_shift.
Qed.

(** The first return is always missing. *)
Lemma pct_change_head (xs : list fval) :
  xs = [] \/ exists rest, pct_change 1 xs = NaN :: rest.
Proof.
  destruct xs as [|x xs]; [now left|]. right. unfold pct_change.
  destruct (ffill_floats (x :: xs)) as [|y d] eqn:E.
  - apply (f_equal (@List.length fval)) in E.
    rewrite length_ffill_floats in E. discriminate.
  - unfold shift. simpl. rewrite fdiv_nan_r. simpl. eauto.
Qed.

Lemma returns_finite (d : list fval) (prev : fval) :
  all_nonzero (prev :: d) ->
  Forall (fun x => is_finite x = true)
         (map2 (fun a b => fsub (fdiv a b) (Fin 1)) d
               (firstn (List.length d) (prev :: d))).
Proof.
  revert prev. induction d as [|x d IH]; intros prev H; simpl; [constructor|].
  inversion H as [|? ? [qp [-> Hp]] Hd]; subst.
  inversion Hd as [|? ? [qx [-> Hx]] _]; subst.
  constructor; [|now apply IH].
  unfold fdiv. unfold Qsign. destruct (0 ?= qp) eqn:E; try reflexivity.
  apply Qeq_alt in E. exfalso. apply Hp. now symmetry.
Qed.

Lemma all_nonzero_finite (xs : list fval) : all_nonzero xs -> all_finite xs.
Proof.
  intros H. eapply Forall_impl; [|exact H]. intros x [q [-> _]]. reflexivity.
Qed.

Lemma ffill_floats_finite (xs : list fval) :
  all_finite xs -> ffill_floats xs = xs.
Proof.
  intros H. apply ffill_from_present. eapply Forall_impl; [|exact H].
  intros x Hx. unfold present. now destruct x.
Qed.

(** With finite, non-zero closes every return but the first has a value. *)
Lemma pct_change_finite (xs : list fval) :
  all_nonzero xs ->
  xs = [] \/ exists rest, pct_change 1 xs = NaN :: rest
                          /\ Forall (fun x => is_finite x = true) rest.
Proof.
  intros H. destruct xs as [|x d]; [now left|]. right.
  unfold pct_change. rewrite ffill_floats_finite by now apply all_nonzero_finite.
  unfold shift. simpl. rewrite fdiv_nan_r. simpl. eexists. split; [reflexivity|].
  now apply returns_finite.
Qed.

Section Volatility.

Variable sqrtQ : Q -> Q.

Lemma length_volatility (n : nat) (returns : list fval) :
  List.length (volatility sqrtQ n returns) = List.length returns.
Proof. unfold volatility. now rewrite length_map, length_rolling. Qed.

(** The window of the [n]-th row still holds the missing first return. *)
Lemma volatility_warm_up (n : nat) (rest : list fval) (i : nat) (v : fval) :
  (i < n)%nat ->
  nth_error (volatility sqrtQ n (NaN :: rest)) i = Some v -> v = NaN.
Proof.
  intros Hlt Hv. unfold volatility in Hv. rewrite nth_error_map in Hv.
  assert (Hi : (i < List.length (NaN :: rest))%nat).
  { rewrite <- (length_rolling n (agg_std sqrtQ)). apply nth_error_Some.
    destruct (nth_error (rolling n (agg_std sqrtQ) (NaN :: rest)) i);
      [discriminate | discriminate Hv]. }
  rewrite (nth_error_rolling n _ _ i Hi) in Hv. simpl in Hv.
  inversion Hv; subst v; clear Hv.
  unfold window. replace (S i - n)%nat with 0%nat by lia. simpl.
  assert (Ho := length_observations (firstn i rest)).
  assert (Hf := firstn_le_length i rest).
  destruct (Nat.leb_spec n (List.length (observations (firstn i rest))));
    [lia | reflexivity].
Qed.

Lemma volatility_filled (n : nat) (rest : list fval) (i : nat) :
  Forall (fun x => is_finite x = true) rest ->
  (2 <= n)%nat -> (n <= i)%nat -> (i < List.length (NaN :: rest))%nat ->
  exists q, nth_error (volatility sqrtQ n (NaN :: rest)) i = Some (Fin q).
Proof.
  intros Hfin H2 Hn Hi. unfold volatility. rewrite nth_error_map.
  rewrite (nth_error_rolling n _ _ i Hi). simpl.
  unfold window. replace (S i - n)%nat with (S (i - n)) by lia. simpl.
  set (w := skipn (i - n) (firstn i rest)).
  assert (Hw : Forall (fun x => is_finite x = true) w)
    by now apply Forall_suffix, Forall_prefix.
  assert (Hlen : List.length (observations w) = n).
  { rewrite (observations_finite w Hw). unfold w.
    rewrite length_skipn, length_firstn. simpl in Hi. lia. }
  rewrite Hlen, Nat.leb_refl.
  destruct (agg_std_fin sqrtQ (observations w)) as [q ->]; [lia|].
  simpl. eauto.
Qed.

End Volatility.

(** ** Warm-up of the rolling metrics *)

Lemma nth_error_nums (xs : list fval) (i : nat) (c : cell) :
  nth_error (nums xs) i = Some c ->
  exists v, c = Num v /\ nth_error xs i = Some v.
Proof.
  unfold nums. rewrite nth_error_map.
  destruct (nth_error xs i) as [v|]; simpl; [|discriminate].
  intros H. inversion H. eauto.
Qed.

(** A column missing on its first [k] rows is missing everywhere when it has
    no more than [k] rows. *)
Lemma warm_up_short (k : nat) (col : column) :
  (forall i c, (i < k)%nat -> nth_error col i = Some c -> c = Num NaN) ->
  (List.length col <= k)%nat -> Forall (fun c => c = Num NaN) col.
Proof.
  intros H Hlen. apply Forall_forall. intros c Hc.
  apply In_nth_error in Hc. destruct Hc as [i Hi].
  apply (H i c); [|assumption].
  assert (i < List.length col)%nat by (apply nth_error_Some; congruence). lia.
Qed.

Lemma rolling_warms_up (n : nat) (agg : list Q -> fval) (close : list fval) :
  (forall obs, (1 <= n)%nat -> List.length obs = n -> exists q, agg obs = Fin q) ->
  warms_up (n - 1) (nums (rolling n agg close)) (all_finite close /\ (1 <= n)%nat).
Proof.
  intros Hagg.
  assert (H1 : forall i c, (i < n - 1)%nat ->
             nth_error (nums (rolling n agg close)) i = Some c -> c = Num NaN).
  { intros i c Hi Hc. destruct (nth_error_nums _ _ _ Hc) as [v [-> Hv]].
    f_equal. apply (rolling_warm_up n agg close i v); [lia | assumption]. }
  split; [exact H1|]. split; [now apply warm_up_short|].
  intros [Hfin Hn] i Hi. rewrite length_nums, length_rolling in Hi.
  destruct (rolling_filled n agg close i Hfin) as [obs [Hlen Hnth]]; [lia | lia |].
  destruct (Hagg obs Hn Hlen) as [q Hq]. exists q.
  unfold nums. rewrite nth_error_map, Hnth. simpl. now rewrite Hq.
Qed.

Lemma band_warms_up (op : fval -> fval -> fval) (mid dev : list fval) :
  (forall b, op NaN b = NaN) ->
  (forall x y, exists q, op (Fin x) (fmul (Fin y) (Fin 2)) = Fin q) ->
  List.length mid = List.length dev ->
  forall (ready : Prop),
  warms_up 19 (nums mid) ready -> warms_up 19 (nums dev) ready ->
  warms_up 19 (nums (map2 op mid (map (fun s => fmul s (Fin 2)) dev))) ready.
Proof.
  intros Hnan Hfin Hlen ready [M1 [_ M3]] [_ [_ D3]].
  assert (Hl2 : List.length mid
                = List.length (map (fun s => fmul s (Fin 2)) dev))
    by now rewrite length_map.
  assert (H1 : forall i c, (i < 19)%nat ->
             nth_error (nums (map2 op mid (map (fun s => fmul s (Fin 2)) dev))) i
             = Some c -> c = Num NaN).
  { intros i c Hi Hc. destruct (nth_error_nums _ _ _ Hc) as [v [-> Hv]].
    assert (Hin : (i < List.length mid)%nat).
    { rewrite <- (length_map2 op mid _ Hl2). apply nth_error_Some. congruence. }
    destruct (nth_error mid i) as [a|] eqn:Ea;
      [|apply nth_error_None in Ea; lia].
    destruct (nth_error (map (fun s => fmul s (Fin 2)) dev) i) as [b|] eqn:Eb;
      [|apply nth_error_None in Eb; lia].
    rewrite (nth_error_map2 op _ _ i a b Ea Eb) in Hv. inversion Hv; subst v.
    assert (Ha : Num a = Num NaN).
    { apply (M1 i); [assumption|]. unfold nums. now rewrite nth_error_map, Ea. }
    inversion Ha; subst a. now rewrite Hnan. }
  split; [exact H1|]. split; [now apply warm_up_short|].
  intros Hr i Hi. rewrite length_nums, length_map2 in Hi by assumption.
  destruct (M3 Hr i) as [x Hx]; [rewrite length_nums; lia|].
  destruct (D3 Hr i) as [y Hy]; [rewrite length_nums; lia|].
  destruct (nth_error_nums _ _ _ Hx) as [vx [Ex Hvx]]. inversion Ex; subst vx.
  destruct (nth_error_nums _ _ _ Hy) as [vy [Ey Hvy]]. inversion Ey; subst vy.
  destruct (Hfin x y) as [q Hq]. exists q.
  unfold nums. rewrite nth_error_map.
  rewrite (nth_error_map2 op mid _ i (Fin x) (fmul (Fin y) (Fin 2)) Hvx).
  - now rewrite Hq.
  - now rewrite nth_error_map, Hvy.
Qed.

Lemma volatility_warms_up (sqrtQ : Q -> Q) (n : nat) (close : list fval) :
  warms_up n (nums (volatility sqrtQ n (pct_change 1 close)))
           (all_nonzero close /\ (2 <= n)%nat).
Proof.
  assert (H1 : forall i c, (i < n)%nat ->
             nth_error (nums (volatility sqrtQ n (pct_change 1 close))) i = Some c ->
             c = Num NaN).
  { intros i c Hi Hc. destruct (nth_error_nums _ _ _ Hc) as [v [-> Hv]].
    destruct (pct_change_head close) as [->|[rest Hrest]].
    - destruct i; discriminate Hv.
    - rewrite Hrest in Hv. f_equal. now apply (volatility_warm_up sqrtQ n rest i). }
  split; [exact H1|]. split; [now apply warm_up_short|].
  intros [Hnz Hn] i Hi. rewrite length_nums, length_volatility in Hi.
  destruct (pct_change_finite close Hnz) as [->|[rest [Hrest Hfin]]].
  - simpl in Hi. lia.
  - rewrite Hrest in *.
    destruct (volatility_filled sqrtQ n rest i Hfin) as [q Hq]; try lia.
    exists q. unfold nums. now rewrite nth_error_map, Hq.
Qed.

(** The condition under which a column has its values may be asked for
    more. *)
Lemma warms_up_ready (k : nat) (col : column) (ready ready' : Prop) :
  (ready' -> ready) -> warms_up k col ready -> warms_up k col ready'.
Proof.
  intros Himp (H1 & H2 & H3). split; [assumption|]. split; [assumption|]. auto.
Qed.

Lemma moderate_size_positive : 0 < moderate_size.
Proof. reflexivity. Qed.

Lemma all_moderate_finite (close : list fval) :
  all_moderate close -> all_finite close.
Proof.
  intros H. eapply Forall_impl; [|exact H]. now intros x (q & -> & _).
Qed.

Lemma all_moderate_nonzero_nonzero (close : list fval) :
  all_moderate_nonzero close -> all_nonzero close.
Proof.
  intros H. eapply Forall_impl; [|exact H]. intros x (q & -> & Hlo & _).
  exists q. split; [reflexivity|]. intros Hq.
  assert (Hpos : 0 < / moderate_size)
    by (apply Qinv_lt_0_compat, moderate_size_positive).
  rewrite Hq in Hlo. simpl in Hlo. apply (Qlt_not_le _ _ Hpos Hlo).
Qed.

(** C6 (as amended).  In the table computed for one symbol, a trailing-N
    metric over the closes (the two moving averages, the Bollinger middle,
    deviation and bands with N = 20) is undefined on the first N-1 rows, hence
    on every row of a series shorter than N, and, when all closes are numbers
    of moderate size (at most 10^50 in absolute value), defined from the N-th
    row onward.  The volatility is a trailing-N metric over the daily
    returns, whose first value is undefined: it is undefined on the first N
    rows, hence on every row of a series of at most N rows, and, when all
    closes are numbers of moderate size that are not tiny (between 10^-50
    and 10^50 in absolute value) and N >= 2, defined from the (N+1)-th row
    onward. *)
Theorem metrics_warm_up (cfg : Config) (sqrtQ : Q -> Q) (sdf out : DataFrame)
        (close : list fval) :
  symbol_metrics cfg sqrtQ sdf = Ok out ->
  getnum "Close" sdf = Ok close ->
  exists ma_short ma_long vol bb_middle bb_std bb_upper bb_lower,
    get_col (ma_name (ma_short_window cfg)) out = Some ma_short
    /\ get_col (ma_name (ma_long_window cfg)) out = Some ma_long
    /\ get_col "Volatility" out = Some vol
    /\ get_col "BB_Middle" out = Some bb_middle
    /\ get_col "BB_Std" out = Some bb_std
    /\ get_col "BB_Upper" out = Some bb_upper
    /\ get_col "BB_Lower" out = Some bb_lower
    /\ Forall (fun col => List.length col = List.length close)
              [ma_short; ma_long; vol; bb_middle; bb_std; bb_upper; bb_lower]
    /\ warms_up (ma_short_window cfg - 1) ma_short
                (all_moderate close /\ (1 <= ma_short_window cfg)%nat)
    /\ warms_up (ma_long_window cfg - 1) ma_long
                (all_moderate close /\ (1 <= ma_long_window cfg)%nat)
    /\ warms_up (volatility_window cfg) vol
                (all_moderate_nonzero close /\ (2 <= volatility_window cfg)%nat)
    /\ warms_up 19 bb_middle (all_moderate close)
    /\ warms_up 19 bb_std (all_moderate close)
    /\ warms_up 19 bb_upper (all_moderate close)
    /\ warms_up 19 bb_lower (all_moderate close).
Proof.
  assert (Hfin : forall n : nat,
             all_moderate close /\ (1 <= n)%nat -> all_finite close /\ (1 <= n)%nat).
  { intros n [H Hn]. split; [now apply all_moderate_finite | assumption]. }
  assert (Hband : all_moderate close -> all_finite close /\ (1 <= 20)%nat).
  { intros H. split; [now apply all_moderate_finite | lia]. }
  intros Hout Hclose.
  destruct (symbol_metrics_columns cfg sqrtQ sdf out Hout)
    as (close' & Hc' & Hs & Hl & _ & Hv & _ & Hm & Hd & Hu & Hlo).
  rewrite Hclose in Hc'. inversion Hc'; subst close'.
  assert (Wm : warms_up 19 (nums (rolling 20 agg_mean close))
                 (all_finite close /\ (1 <= 20)%nat)).
  { apply (rolling_warms_up 20). intros obs _ Ho. apply agg_mean_fin. lia. }
  assert (Wd : warms_up 19 (nums (rolling 20 (agg_std sqrtQ) close))
                 (all_finite close /\ (1 <= 20)%nat)).
  { apply (rolling_warms_up 20). intros obs _ Ho. apply agg_std_fin. lia. }
  do 7 eexists.
  repeat (split; [eassumption|]).
  split.
  { repeat apply Forall_cons; try apply Forall_nil; rewrite length_nums;
      try apply length_rolling.
    - rewrite length_volatility. apply length_pct_change.
    - rewrite length_map2 by (now rewrite length_map, !length_rolling).
      apply length_rolling.
    - rewrite length_map2 by (now rewrite length_map, !length_rolling).
      apply length_rolling. }
  split; [|split; [|split; [|split; [|split; [|split]]]]].
  - apply (warms_up_ready _ _ _ _ (Hfin _)).
    apply rolling_warms_up. intros obs Hn Ho. apply agg_mean_fin. lia.
  - apply (warms_up_ready _ _ _ _ (Hfin _)).
    apply rolling_warms_up. intros obs Hn Ho. apply agg_mean_fin. lia.
  - eapply warms_up_ready; [|apply volatility_warms_up].
    intros [H Hn]. split; [now apply all_moderate_nonzero_nonzero | assumption].
  - apply (warms_up_ready _ _ _ _ Hband). exact Wm.
  - apply (warms_up_ready _ _ _ _ Hband). exact Wd.
  - apply (warms_up_ready _ _ _ _ Hband). apply band_warms_up; auto.
    + intros x y. simpl. eauto.
    + now rewrite !length_rolling.
  - apply (warms_up_ready _ _ _ _ Hband). apply band_warms_up; auto.
    + intros x y. simpl. eauto.
    + now rewrite !length_rolling.
Qed.

Lemma three_days_moderate : all_moderate_nonzero [Fin 10; Fin 11; Fin 12].
Proof.
  repeat apply Forall_cons; try apply Forall_nil; eexists;
    (split; [reflexivity|]); split; vm_compute; discriminate.
Qed.

Lemma metrics_warm_up_witness :
  exists out vol q,
    symbol_metrics small_windows sqrt_approx three_days = Ok out
    /\ get_col "Volatility" out = Some vol
    /\ nth_error vol 1 = Some (Num NaN)
    /\ nth_error vol 2 = Some (Num (Fin q)).
Proof.
  destruct (metrics_warm_up small_windows sqrt_approx three_days _
              [Fin 10; Fin 11; Fin 12] eq_refl eq_refl)
    as (ma_short & ma_long & vol & bb_middle & bb_std & bb_upper & bb_lower
        & _ & _ & Hvol & _ & _ & _ & _ & Hlen & _ & _ & Hwarm & _).
  destruct Hwarm as (Hearly & _ & Hlate).
  assert (Hl : List.length vol = 3%nat).
  { inversion Hlen as [|? ? _ H1]; subst. inversion H1 as [|? ? _ H2]; subst.
    now inversion H2. }
  destruct (Hlate (conj three_days_moderate (le_n 2)) 2%nat) as [q Hq];
    [rewrite Hl; simpl; lia|].
  destruct (nth_error vol 1) as [c|] eqn:Ec;
    [|apply nth_error_None in Ec; lia].
  eexists. exists vol, q. split; [reflexivity|].
  split; [vm_compute in Hvol; vm_compute; exact Hvol|].
  split; [|exact Hq]. rewrite Ec. f_equal.
  apply (Hearly 1%nat); [simpl; lia | assumption].
Defined.

(** With a volatility window of 2 rows, the second row of a three-row series
    has no volatility: its window holds the missing first return. *)
Lemma metrics_warm_up_fails :
  exists out vol,
    symbol_metrics small_windows sqrt_approx three_days = Ok out
    /\ volatility_window small_windows = 2%nat
    /\ get_col "Volatility" out = Some vol
    /\ nth_error vol 1 = Some (Num NaN).
Proof.
  eexists. eexists. split; [vm_compute; reflexivity|].
  split; [reflexivity|]. split; reflexivity.
Qed.

(** ** Concatenation of frames *)

Lemma in_union_names (seen names : list string) (n : string) :
  In n (union_names seen names) <-> In n names /\ ~ In n seen.
Proof.
  revert seen. induction names as [|m rest IH]; intros seen; simpl; [tauto|].
  destruct (existsb (String.eqb m) seen) eqn:E.
  - rewrite IH. apply existsb_exists in E. destruct E as [x [Hx Hm]].
    apply String.eqb_eq in Hm. subst x. split; [tauto|].
    intros [[->|H] Hn]; [contradiction | tauto].
  - assert (Hm : ~ In m seen).
    { intros Hin. assert (existsb (String.eqb m) seen = true).
      { apply existsb_exists. exists m. split; [assumption | apply String.eqb_refl]. }
      congruence. }
    simpl. rewrite IH. simpl. split.
    + intros [->|[H1 H2]]; [tauto|]. split; [tauto|]. tauto.
    + intros [[->|H1] H2]; [tauto|].
      destruct (string_dec m n) as [->|Hne]; [tauto|]. right. split; [assumption|].
      intros [?|?]; [contradiction | tauto].
Qed.

Lemma get_col_map_names (names : list string) (f : string -> column) (n : string) :
  In n names -> get_col n (map (fun name => (name, f name)) names) = Some (f n).
Proof.
  induction names as [|m rest IH]; simpl; [tauto|].
  destruct (String.eqb m n) eqn:E.
  - apply String.eqb_eq in E. now subst.
  - intros [->|H]; [rewrite String.eqb_refl in E; discriminate | auto].
Qed.

Lemma get_col_In (n : string) (df : DataFrame) (c : column) :
  get_col n df = Some c -> In n (map fst df).
Proof.
  induction df as [|[m c'] rest IH]; simpl; [discriminate|].
  destruct (String.eqb m n) eqn:E; [apply String.eqb_eq in E; auto | auto].
Qed.

(** A column that the first frame has is, in the concatenation, the
    concatenation of what each frame has under that name. *)
Lemma get_col_concat (n : string) (f : DataFrame) (fs : list DataFrame) (c : column) :
  get_col n f = Some c ->
  get_col n (concat (f :: fs)) = Some (flat_map (col_or_missing n) (f :: fs)).
Proof.
  intros H. unfold concat.
  apply (get_col_map_names _ (fun name => flat_map (col_or_missing name) (f :: fs))).
  apply in_union_names. split; [|tauto].
  simpl. apply in_or_app. left. eapply get_col_In; eauto.
Qed.

(** ** The crossover signal *)

Lemma flt_asym (a b : fval) : flt a b = true -> flt b a = false.
Proof.
  destruct a as [| |x|], b as [| |y|]; simpl; try discriminate; try reflexivity.
  rewrite Qlt_bool_true, Qlt_bool_false. apply Qlt_le_weak.
Qed.

Lemma ma_signal_crossover (n : nat) (short long : list fval) :
  List.length short = n -> List.length long = n ->
  ma_signal n short long = map2 crossover short long.
Proof.
  unfold ma_signal, loc_set. revert short long.
  induction n as [|n IH]; intros [|a short] [|b long]; simpl; try discriminate;
    try reflexivity.
  intros Hs Hl. rewrite IH by congruence. f_equal.
  unfold crossover, fgt. destruct (flt a b) eqn:E1.
  - now rewrite (flt_asym _ _ E1).
  - now destruct (flt b a).
Qed.

Lemma wf_take_rows (idx : list nat) (df : DataFrame) : wf (take_rows idx df).
Proof.
  unfold wf, take_rows. destruct df as [|[n c] rest]; simpl; [constructor|].
  unfold take. rewrite length_map. constructor; [simpl; now rewrite length_map|].
  apply Forall_map. apply Forall_forall. intros p _. simpl. now rewrite length_map.
Qed.

Lemma wf_sort_values (name : string) (df sorted : DataFrame) :
  sort_values name df = Ok sorted -> wf sorted.
Proof.
  unfold sort_values. destruct (get_col name df) as [keys|]; [|discriminate].
  destruct (comparable keys); [|discriminate].
  intros H. inversion H. apply wf_take_rows.
Qed.

Section Signal.

Variable cfg : Config.
Variable sqrtQ : Q -> Q.

Lemma symbol_metrics_signal (sdf out : DataFrame) :
  wf sdf -> symbol_metrics cfg sqrtQ sdf = Ok out -> signal_columns cfg out.
Proof.
  intros Hwf Hout.
  destruct (symbol_metrics_columns cfg sqrtQ sdf out Hout)
    as (close & Hc & Hs & Hl & Hsig & _).
  assert (Hlen : List.length close = nrows sdf).
  { rewrite <- length_nums. apply (wf_get sdf "Close"); auto. now apply getnum_ok. }
  exists (rolling (ma_short_window cfg) agg_mean close),
         (rolling (ma_long_window cfg) agg_mean close).
  repeat split; auto.
  - now rewrite !length_rolling.
  - rewrite Hsig. rewrite ma_signal_crossover; auto;
      now rewrite length_rolling.
Qed.

Lemma symbol_frames_signal (df : DataFrame) (symbols : column) (todo : list cell)
      (fs : list DataFrame) :
  symbol_frames cfg sqrtQ df symbols todo = Ok fs -> Forall (signal_columns cfg) fs.
Proof.
  revert fs. induction todo as [|symbol rest IH]; simpl; intros fs H.
  - inversion H. constructor.
  - destruct (symbol_frame cfg sqrtQ df symbols symbol) as [f|] eqn:Ef; simpl in H;
      [|discriminate].
    destruct (symbol_frames cfg sqrtQ df symbols rest) as [fs'|]; simpl in H;
      [|discriminate].
    inversion H; subst fs. constructor; [|now apply IH].
    unfold symbol_frame in Ef.
    destruct (sort_values "Date" _) as [sdf|] eqn:Es; simpl in Ef; [|discriminate].
    eapply symbol_metrics_signal; [|exact Ef]. eapply wf_sort_values; eauto.
Qed.

Lemma concat_signal (fs : list DataFrame) :
  Forall (signal_columns cfg) fs ->
  exists short long,
    flat_map (col_or_missing (ma_name (ma_short_window cfg))) fs = nums short
    /\ flat_map (col_or_missing (ma_name (ma_long_window cfg))) fs = nums long
    /\ List.length short = List.length long
    /\ flat_map (col_or_missing "MA_Signal") fs = nums (map2 crossover short long).
Proof.
  induction 1 as [|f fs [s [l [Hs [Hl [Hlen Hsig]]]]] _ [ss [ls [Hss [Hls [Hlens Hsigs]]]]]].
  - exists [], []. auto.
  - exists (s ++ ss)%list, (l ++ ls)%list. simpl. unfold col_or_missing at 1 3 5.
    rewrite Hs, Hl, Hsig, Hss, Hls, Hsigs. unfold nums.
    rewrite !map_app, map2_app, !length_app by assumption.
    repeat split; auto. now rewrite map_app.
Qed.

End Signal.

(** C7.  In every row of the price output, MA_Signal is +1 when the short
    moving average of that row is strictly above the long one, -1 when it is
    strictly below, and 0 otherwise (equal averages, or an average still
    undefined); and for averages [1,2,3] against [3,2,1] the signal is
    [-1,0,1]. *)
Theorem calculate_ma_signal (cfg : Config) (sqrtQ : Q -> Q)
        (csv_data json_data api_data : option DataFrame) (out : DataFrame) :
  is_price_shaped (combined csv_data json_data api_data) = true ->
  calculate cfg sqrtQ csv_data json_data api_data = Ok out ->
  (exists short long,
      getnum (ma_name (ma_short_window cfg)) out = Ok short
      /\ getnum (ma_name (ma_long_window cfg)) out = Ok long
      /\ List.length short = List.length long
      /\ getnum "MA_Signal" out = Ok (map2 crossover short long))
  /\ ma_signal 3 [Fin 1; Fin 2; Fin 3] [Fin 3; Fin 2; Fin 1]
     = [Fin (-1); Fin 0; Fin 1].
Proof.
  intros Hs Hout. split; [|reflexivity].
  unfold calculate in Hout. unfold combined in Hs.
  destruct (given csv_data ++ given json_data ++ given api_data)%list
    as [|d ds] eqn:Ed; [discriminate Hs|].
  rewrite Hs in Hout. unfold calculate_prices in Hout.
  destruct (get_col "Symbol" (concat (d :: ds))) as [symbols|]; [|discriminate].
  destruct (symbol_frames cfg sqrtQ (concat (d :: ds)) symbols (unique symbols))
    as [fs|] eqn:Efs; simpl in Hout; [|discriminate].
  destruct fs as [|f fs]; [discriminate|]. inversion Hout; subst out; clear Hout.
  assert (Hall := symbol_frames_signal cfg sqrtQ _ _ _ _ Efs).
  destruct (concat_signal cfg _ Hall) as [short [long [Hsh [Hlo [Hlen Hsig]]]]].
  inversion Hall as [|? ? [s [l [Hfs [Hfl [_ Hfsig]]]]] _]; subst.
  exists short, long. repeat split; auto; apply getnum_of_get.
  - rewrite (get_col_concat _ _ _ _ Hfs). now rewrite Hsh.
  - rewrite (get_col_concat _ _ _ _ Hfl). now rewrite Hlo.
  - rewrite (get_col_concat _ _ _ _ Hfsig). now rewrite Hsig.
Qed.

Lemma calculate_ma_signal_witness :
  exists out,
    calculate small_windows sqrt_approx (Some two_symbols) None None = Ok out
    /\ getnum "MA_Signal" out = Ok [Fin 0; Fin 0; Fin 1; Fin 1; Fin 0].
Proof.
  eexists. split; [vm_compute; reflexivity|].
  destruct (calculate_ma_signal small_windows sqrt_approx
              (Some two_symbols) None None _ eq_refl eq_refl)
    as [[short [long [Hs [Hl [_ Hsig]]]]] _].
  vm_compute in Hs. inversion Hs; subst short.
  vm_compute in Hl. inversion Hl; subst long.
  exact Hsig.
Defined.

(** ** Sorting by a column *)

Lemma fle_total (x y : fval) :
  isnan x = false -> isnan y = false -> fle x y = false -> fle y x = true.
Proof.
  destruct x as [| |a|], y as [| |b|]; simpl; try discriminate; try reflexivity.
  intros _ _ H. apply Qle_bool_iff. apply Qlt_le_weak. apply Qlt_bool_true.
  unfold Qlt_bool. now rewrite H.
Qed.

Lemma key_leb_total (a b : cell) : key_leb a b = false -> key_leb b a = true.
Proof.
  unfold key_leb. destruct (isnull b) eqn:Eb; [discriminate|].
  destruct (isnull a) eqn:Ea; [reflexivity|].
  destruct a as [x|s|p|d], b as [y|t|q|e]; simpl; try discriminate; try reflexivity.
  - apply fle_total; [now destruct x | now destruct y].
  - intros H. destruct (String.leb_total s t) as [H'|H']; congruence.
  - destruct p, q; simpl; congruence.
  - rewrite Z.leb_gt, Z.leb_le. lia.
Qed.

Lemma insert_key_hd (p q : cell * nat) (l : list (cell * nat)) :
  by_key q p -> HdRel by_key q l -> HdRel by_key q (insert_key p l).
Proof.
  intros Hqp Hl. destruct l as [|r rest]; simpl; [now constructor|].
  inversion Hl; subst. destruct (key_leb (fst p) (fst r)); now constructor.
Qed.

Lemma insert_key_sorted (p : cell * nat) (l : list (cell * nat)) :
  Sorted by_key l -> Sorted by_key (insert_key p l).
Proof.
  induction 1 as [|q rest Hrest IH Hhd]; simpl.
  - repeat constructor.
  - destruct (key_leb (fst p) (fst q)) eqn:E.
    + constructor; [now constructor|]. now constructor.
    + constructor; [assumption|]. apply insert_key_hd; [|assumption].
      unfold by_key. now apply key_leb_total.
Qed.

Lemma sort_keys_sorted (l : list (cell * nat)) : Sorted by_key (sort_keys l).
Proof.
  induction l as [|p rest IH]; simpl; [constructor | now apply insert_key_sorted].
Qed.

Lemma insert_key_perm (p : cell * nat) (l : list (cell * nat)) :
  Permutation (p :: l) (insert_key p l).
Proof.
  induction l as [|q rest IH]; simpl; [reflexivity|].
  destruct (key_leb (fst p) (fst q)); [reflexivity|].
  rewrite perm_swap. now constructor.
Qed.

Lemma sort_keys_perm (l : list (cell * nat)) : Permutation l (sort_keys l).
Proof.
  induction l as [|p rest IH]; simpl; [reflexivity|].
  rewrite <- insert_key_perm. now constructor.
Qed.

Lemma map_snd_combine_seq {A : Type} (xs : list A) (start : nat) :
  map snd (combine xs (seq start (List.length xs))) = seq start (List.length xs).
Proof.
  revert start. induction xs as [|x xs IH]; intros start; simpl; [reflexivity|].
  now rewrite IH.
Qed.

(** The sorted positions are the positions, in another order. *)
Lemma argsort_perm (keys : column) :
  Permutation (seq 0 (List.length keys)) (argsort keys).
Proof.
  unfold argsort. rewrite <- (map_snd_combine_seq keys 0) at 1.
  apply Permutation_map, sort_keys_perm.
Qed.

Lemma combine_seq_nth (keys : column) (d : cell) :
  Forall (fun p => nth (snd p) keys d = fst p)
         (combine keys (seq 0 (List.length keys))).
Proof.
  apply Forall_forall. intros [k i] Hin.
  destruct (In_nth _ _ (d, 0%nat) Hin) as [j [Hj Hnth]].
  rewrite length_combine, length_seq, Nat.min_id in Hj.
  rewrite combine_nth in Hnth by now rewrite length_seq.
  rewrite seq_nth in Hnth by assumption. inversion Hnth; subst. reflexivity.
Qed.

Lemma take_argsort (keys : column) :
  take (Num NaN) (argsort keys) keys
  = map fst (sort_keys (combine keys (seq 0 (List.length keys)))).
Proof.
  unfold take, argsort. rewrite map_map. apply map_ext_in. intros p Hp.
  assert (H := combine_seq_nth keys (Num NaN)).
  eapply Permutation_Forall in H; [|apply sort_keys_perm].
  rewrite Forall_forall in H. now apply H.
Qed.

Lemma sorted_map_fst (l : list (cell * nat)) :
  Sorted by_key l -> ascending (map fst l).
Proof.
  unfold ascending. induction 1 as [|p rest Hrest IH Hhd]; simpl; constructor; auto.
  destruct Hhd; simpl; constructor; assumption.
Qed.

(** The key column of a sorted frame is in ascending order. *)
Lemma take_argsort_ascending (keys : column) :
  ascending (take (Num NaN) (argsort keys) keys).
Proof. rewrite take_argsort. apply sorted_map_fst, sort_keys_sorted. Qed.

Lemma get_col_take_rows (name : string) (idx : list nat) (df : DataFrame) :
  get_col name (take_rows idx df)
  = option_map (take (Num NaN) idx) (get_col name df).
Proof.
  induction df as [|[n c] rest IH]; simpl; [reflexivity|].
  destruct (String.eqb n name); simpl; auto.
Qed.

Lemma sort_values_ok (name : string) (df sorted : DataFrame) :
  sort_values name df = Ok sorted ->
  exists keys, get_col name df = Some keys
               /\ sorted = take_rows (argsort keys) df.
Proof.
  unfold sort_values. destruct (get_col name df) as [keys|]; [|discriminate].
  destruct (comparable keys); [|discriminate].
  intros H. inversion H. eauto.
Qed.

(** ** Change over [k] periods *)

Lemma nth_error_shift_early (k : nat) (xs : list fval) (i : nat) :
  (i < k)%nat -> (i < List.length xs)%nat -> nth_error (shift k xs) i = Some NaN.
Proof.
  intros Hk Hi. unfold shift. rewrite nth_error_firstn.
  destruct (Nat.ltb_spec i (List.length xs)); [|lia].
  rewrite nth_error_app1 by (rewrite repeat_length; lia).
  now apply nth_error_repeat.
Qed.

Lemma nth_error_shift_late (k : nat) (xs : list fval) (i : nat) :
  (k <= i)%nat -> (i < List.length xs)%nat ->
  nth_error (shift k xs) i = nth_error xs (i - k).
Proof.
  intros Hk Hi. unfold shift. rewrite nth_error_firstn.
  destruct (Nat.ltb_spec i (List.length xs)); [|lia].
  rewrite nth_error_app2 by (rewrite repeat_length; lia).
  now rewrite repeat_length.
Qed.

(** The change is undefined on the first [k] rows. *)
Lemma pct_change_early (k : nat) (xs : list fval) (i : nat) :
  (i < k)%nat -> (i < List.length xs)%nat ->
  nth_error (pct_change k xs) i = Some NaN.
Proof.
  intros Hk Hi. unfold pct_change.
  destruct (nth_error (ffill_floats xs) i) as [a|] eqn:Ea.
  - rewrite (nth_error_map2 _ _ _ i a NaN Ea).
    + now rewrite fdiv_nan_r.
    + apply nth_error_shift_early; [assumption | now rewrite length_ffill_floats].
  - apply nth_error_None in Ea. rewrite length_ffill_floats in Ea. lia.
Qed.

(** From row [k] on it is [x[i] / x[i-k] - 1], on the forward-filled
    values. *)
Lemma pct_change_late (k : nat) (xs : list fval) (i : nat) :
  (k <= i)%nat -> (i < List.length xs)%nat ->
  exists a b,
    nth_error (ffill_floats xs) i = Some a
    /\ nth_error (ffill_floats xs) (i - k) = Some b
    /\ nth_error (pct_change k xs) i = Some (fsub (fdiv a b) (Fin 1)).
Proof.
  intros Hk Hi. unfold pct_change.
  destruct (nth_error (ffill_floats xs) i) as [a|] eqn:Ea;
    [|apply nth_error_None in Ea; rewrite length_ffill_floats in Ea; lia].
  destruct (nth_error (ffill_floats xs) (i - k)) as [b|] eqn:Eb;
    [|apply nth_error_None in Eb; rewrite length_ffill_floats in Eb; lia].
  exists a, b. split; [reflexivity|]. split; [reflexivity|].
  apply (nth_error_map2 (fun a b => fsub (fdiv a b) (Fin 1))); [assumption|].
  rewrite nth_error_shift_late; [assumption | assumption |].
  now rewrite length_ffill_floats.
Qed.

(** ** The year-over-year columns *)

Lemma ffill_from_nums (last : option fval) (xs : list fval) :
  ffill_from isnull (option_map Num last) (nums xs)
  = nums (ffill_from isnan last xs).
Proof.
  revert last. induction xs as [|x rest IH]; intros last; simpl; [reflexivity|].
  destruct x as [| |q|]; simpl.
  - destruct last as [v|]; simpl.
    + now rewrite <- (IH (Some v)).
    + now rewrite <- (IH None).
  - now rewrite <- (IH (Some NInf)).
  - now rewrite <- (IH (Some (Fin q))).
  - now rewrite <- (IH (Some PInf)).
Qed.

Lemma ffill_nums (xs : list fval) : ffill (nums xs) = nums (ffill_floats xs).
Proof. apply (ffill_from_nums None). Qed.

Lemma length_shift_cells (k : nat) (col : column) :
  List.length (shift_cells k col) = List.length col.
Proof.
  unfold shift_cells. rewrite length_firstn, length_app. lia.
Qed.

Lemma nth_error_shift_cells_early (k : nat) (col : column) (i : nat) :
  (i < k)%nat -> (i < List.length col)%nat ->
  nth_error (shift_cells k col) i = Some (Num NaN).
Proof.
  intros Hk Hi. unfold shift_cells. rewrite nth_error_firstn.
  destruct (Nat.ltb_spec i (List.length col)); [|lia].
  rewrite nth_error_app1 by (rewrite repeat_length; lia).
  now apply nth_error_repeat.
Qed.

Lemma nth_error_shift_cells_late (k : nat) (col : column) (i : nat) :
  (k <= i)%nat -> (i < List.length col)%nat ->
  nth_error (shift_cells k col) i = nth_error col (i - k).
Proof.
  intros Hk Hi. unfold shift_cells. rewrite nth_error_firstn.
  destruct (Nat.ltb_spec i (List.length col)); [|lia].
  rewrite nth_error_app2 by (rewrite repeat_length; lia).
  now rewrite repeat_length.
Qed.

Lemma all_ok_map {A : Type} (rs : list (result A)) (xs : list A) :
  all_ok rs = Ok xs -> rs = map Ok xs.
Proof.
  revert xs. induction rs as [|r rest IH]; simpl; intros xs H.
  - now inversion H.
  - destruct r as [x|e]; simpl in H; [|discriminate].
    destruct (all_ok rest) as [ys|]; simpl in H; [|discriminate].
    inversion H; subst. simpl. now rewrite (IH ys).
Qed.

Lemma isnull_nan (c : cell) : isnull c = true -> c = Num NaN.
Proof. destruct c as [[| |q|]| | |]; simpl; try discriminate; reflexivity. Qed.

(** A quotient that Python computes is the one of [change]. *)
Lemma py_div_change (a b : cell) (q : fval) :
  py_div a b = Ok q -> fsub q (Fin 1) = change a b.
Proof.
  destruct a as [x| | |], b as [y| | |]; simpl; try discriminate.
  destruct (feqb y (Fin 0)); [discriminate|]. now intros [= <-].
Qed.

Lemma missing_change (a b : cell) :
  isnull a || isnull b = true -> change a b = NaN.
Proof.
  intros H. apply orb_prop in H. destruct H as [H|H]; apply isnull_nan in H; subst.
  - destruct b as [y| | |]; reflexivity.
  - destruct a as [x| | |]; try reflexivity. simpl. now rewrite fdiv_nan_r.
Qed.

(** Whichever way [object_div] takes, each quotient is the one of
    [change]. *)
Lemma object_div_change (d s : column) (qs : list fval) :
  List.length s = List.length d ->
  object_div d s = Ok qs ->
  List.length qs = List.length d
  /\ forall i a b,
       nth_error d i = Some a -> nth_error s i = Some b ->
       exists q, nth_error qs i = Some q /\ fsub q (Fin 1) = change a b.
Proof.
  intros Hlen H. unfold object_div in H.
  assert (Hgen : forall f : cell -> cell -> result fval,
             (forall a b q, f a b = Ok q -> fsub q (Fin 1) = change a b) ->
             all_ok (map2 f d s) = Ok qs ->
             List.length qs = List.length d
             /\ forall i a b,
                  nth_error d i = Some a -> nth_error s i = Some b ->
                  exists q, nth_error qs i = Some q /\ fsub q (Fin 1) = change a b).
  { intros f Hf Hall. apply all_ok_map in Hall.
    assert (Hl : List.length qs = List.length d).
    { rewrite <- (length_map2 f d s) by congruence.
      rewrite Hall. now rewrite length_map. }
    split; [assumption|]. intros i a b Ha Hb.
    assert (Hn := nth_error_map2 f d s i a b Ha Hb).
    rewrite Hall, nth_error_map in Hn.
    destruct (nth_error qs i) as [q|]; simpl in Hn; [|discriminate].
    exists q. split; [reflexivity|]. apply Hf. congruence. }
  destruct (all_ok (map2 py_div d s)) as [qs'|e] eqn:E1.
  - injection H as <-. apply (Hgen py_div); [apply py_div_change | assumption].
  - destruct e; try discriminate.
    apply (Hgen (fun a b => if isnull a || isnull b then Ok NaN else py_div a b));
      [|assumption].
    intros a b q. destruct (isnull a || isnull b) eqn:En.
    + intros [= <-]. now rewrite (missing_change a b En).
    + apply py_div_change.
Qed.

(** The change over [k] rows of a column of the table, when it can be
    computed: undefined on the first [k] rows, and from row [k] on the
    change from the value [k] rows earlier, on the forward-filled
    column. *)
Lemma pct_change_col_spec (k : nat) (col yoy : column) :
  pct_change_col k col = Ok yoy ->
  exists ys,
    yoy = nums ys
    /\ List.length ys = List.length col
    /\ (forall i, (i < k)%nat -> (i < List.length col)%nat ->
                  nth_error ys i = Some NaN)
    /\ (forall i, (k <= i)%nat -> (i < List.length col)%nat ->
          exists a b,
            nth_error (ffill col) i = Some a
            /\ nth_error (ffill col) (i - k) = Some b
            /\ nth_error ys i = Some (change a b)).
Proof.
  unfold pct_change_col. destruct (as_floats col) as [xs|e] eqn:Ef.
  - intros [= <-]. apply as_floats_ok in Ef. subst col.
    exists (pct_change k xs). rewrite length_nums. split; [reflexivity|].
    split; [apply length_pct_change|]. split.
    + intros i Hk Hi. now apply pct_change_early.
    + intros i Hk Hi. destruct (pct_change_late k xs i Hk Hi) as (a & b & Ha & Hb & Hc).
      exists (Num a), (Num b). rewrite ffill_nums. unfold nums.
      rewrite !nth_error_map, Ha, Hb. auto.
  - set (d := ffill col).
    assert (Hd : List.length d = List.length col) by apply length_ffill_from.
    destruct (object_div d (shift_cells k d)) as [qs|] eqn:Eq; simpl; [|discriminate].
    intros [= <-].
    destruct (object_div_change d (shift_cells k d) qs (length_shift_cells k d) Eq)
      as [Hl Hq].
    exists (map (fun q => fsub q (Fin 1)) qs). split; [reflexivity|].
    split; [rewrite length_map; congruence|]. split.
    + intros i Hk Hi.
      destruct (nth_error d i) as [a|] eqn:Ea;
        [|apply nth_error_None in Ea; lia].
      destruct (Hq i a (Num NaN) Ea) as (q & Hqi & Hc).
      { apply nth_error_shift_cells_early; [assumption | lia]. }
      rewrite nth_error_map, Hqi. simpl. rewrite Hc.
      now rewrite (missing_change a (Num NaN)) by apply orb_true_r.
    + intros i Hk Hi.
      destruct (nth_error d i) as [a|] eqn:Ea;
        [|apply nth_error_None in Ea; lia].
      destruct (nth_error d (i - k)) as [b|] eqn:Eb;
        [|apply nth_error_None in Eb; lia].
      destruct (Hq i a b Ea) as (q & Hqi & Hc).
      { rewrite nth_error_shift_cells_late by lia. exact Eb. }
      exists a, b. split; [reflexivity|]. split; [reflexivity|].
      rewrite nth_error_map, Hqi. simpl. now rewrite Hc.
Qed.

Lemma add_yoy_spec (cols : list string) (df out : DataFrame) :
  NoDup cols ->
  (forall a b, In a cols -> In b cols -> yoy_name a <> b) ->
  (forall a b, In a cols -> In b cols -> yoy_name a = yoy_name b -> a = b) ->
  add_yoy cols df = Ok out ->
  (forall c col, In c cols -> get_col c df = Some col ->
     exists yoy, pct_change_col 12 col = Ok yoy
                 /\ get_col c out = Some col
                 /\ get_col (yoy_name c) out = Some yoy)
  /\ (forall n, (forall c, In c cols -> n <> yoy_name c) ->
                get_col n out = get_col n df).
Proof.
  intros Hnd. revert df.
  induction Hnd as [|col rest Hnotin Hnd IH]; intros df Hfresh Hinj; simpl.
  - intros H. inversion H; subst. split; [intros c col []|reflexivity].
  - assert (Hfresh' : forall a b, In a rest -> In b rest -> yoy_name a <> b)
      by (intros; apply Hfresh; now right).
    assert (Hinj' : forall a b, In a rest -> In b rest ->
                                yoy_name a = yoy_name b -> a = b)
      by (intros; apply Hinj; auto; now right).
    destruct (get_col col df) as [values|] eqn:Ecol.
    + destruct (pct_change_col 12 values) as [yoy|] eqn:Eyoy; simpl; [|discriminate].
      intros Hout. destruct (IH _ Hfresh' Hinj' Hout) as [IHin IHout].
      assert (Hne : forall c, In c (col :: rest) ->
                              String.eqb (yoy_name col) c = false).
      { intros c Hc. apply String.eqb_neq. apply Hfresh; [now left | assumption]. }
      split.
      * intros c vs [<-|Hc] Hget.
        -- rewrite Ecol in Hget. injection Hget as <-.
           exists yoy. split; [exact Eyoy|].
           assert (Hkeep : forall n, (forall c, In c rest -> n <> yoy_name c) ->
                      get_col n out = get_col n (set_col (yoy_name col) yoy df))
             by exact IHout.
           split.
           ++ rewrite Hkeep.
              ** rewrite get_set_other by (apply Hne; now left). exact Ecol.
              ** intros c Hc Heq. apply (Hfresh c col); [now right | now left |].
                 now symmetry.
           ++ rewrite Hkeep; [apply get_set_same|].
              intros c Hc Heq. apply Hinj in Heq; [|now left | now right].
              subst c. contradiction.
        -- apply (IHin c vs Hc).
           rewrite get_set_other; [assumption | apply Hne; now right].
      * intros n Hn. rewrite IHout by (intros c Hc; apply Hn; now right).
        apply get_set_other. apply String.eqb_neq. intros Heq.
        apply (Hn col); [now left | now symmetry].
    + intros Hout. destruct (IH _ Hfresh' Hinj' Hout) as [IHin IHout]. split.
      * intros c vs [<-|Hc] Hget; [congruence | eauto].
      * intros n Hn. apply IHout. intros c Hc. apply Hn. now right.
Qed.

Lemma indicator_cols_fresh :
  NoDup indicator_cols
  /\ (forall a b, In a indicator_cols -> In b indicator_cols -> yoy_name a <> b)
  /\ (forall a b, In a indicator_cols -> In b indicator_cols ->
                  yoy_name a = yoy_name b -> a = b).
Proof.
  unfold indicator_cols. split; [|split].
  - repeat (apply NoDup_cons;
            [simpl; intros H; repeat destruct H as [H|H]; discriminate H || exact H |]).
    apply NoDup_nil.
  - intros a b Ha Hb. simpl in Ha, Hb.
    repeat destruct Ha as [<-|Ha]; try contradiction;
      repeat destruct Hb as [<-|Hb]; try contradiction; discriminate.
  - intros a b Ha Hb. simpl in Ha, Hb.
    repeat destruct Ha as [<-|Ha]; try contradiction;
      repeat destruct Hb as [<-|Hb]; try contradiction;
      intros H; try reflexivity; discriminate H.
Qed.

(** What the indicator branch returns: the rows in an order that sorts the
    dates, every indicator column it has beside its change over 12 rows. *)
Lemma calculate_indicators_spec (df out : DataFrame) :
  calculate_indicators df = Ok out ->
  exists dates idx,
    get_col "Date" df = Some dates
    /\ Permutation (seq 0 (List.length dates)) idx
    /\ get_col "Date" out = Some (take (Num NaN) idx dates)
    /\ ascending (take (Num NaN) idx dates)
    /\ forall c col,
         In c indicator_cols -> get_col c df = Some col ->
         exists yoy,
           pct_change_col 12 (take (Num NaN) idx col) = Ok yoy
           /\ get_col c out = Some (take (Num NaN) idx col)
           /\ get_col (yoy_name c) out = Some yoy.
Proof.
  unfold calculate_indicators. intros Hout.
  destruct (sort_values "Date" df) as [sorted|] eqn:Esort; cbn [bind] in Hout;
    [|discriminate].
  destruct (add_yoy indicator_cols sorted) as [added|] eqn:Eadd; cbn [bind] in Hout;
    [|discriminate].
  destruct (corr_check added); cbn [bind] in Hout; [|discriminate].
  injection Hout as <-.
  destruct (sort_values_ok _ _ _ Esort) as [dates [Hdates ->]].
  destruct indicator_cols_fresh as [Hnd [Hfresh Hinj]].
  destruct (add_yoy_spec _ _ _ Hnd Hfresh Hinj Eadd) as [Hcols Hkeep].
  exists dates, (argsort dates). split; [assumption|].
  split; [apply argsort_perm|]. split.
  { rewrite Hkeep.
    - now rewrite get_col_take_rows, Hdates.
    - intros c Hc. simpl in Hc.
      repeat destruct Hc as [<-|Hc]; try contradiction; discriminate. }
  split; [apply take_argsort_ascending|].
  intros c col Hc Hcol. apply (Hcols c _ Hc).
  now rewrite get_col_take_rows, Hcol.
Qed.

(** C2 (as amended).  Of a combined table that is not price-shaped:
    when it has at least one of the columns GDP_Growth, Unemployment_Rate,
    Inflation_Rate, the output holds its rows in an order of ascending date,
    and beside each of the five indicator columns it has (those three,
    Interest_Rate, Consumer_Confidence) a [_YoY_Change] column.  At sorted
    position [i] the change is undefined for [i < 12] and is
    [v[i] / v[i-12] - 1] from position 12 on (undefined when one of the two
    is missing), where [v] is the sorted indicator column with its gaps
    filled forward ([v] is the sorted column itself when it has no gap).
    When it has none of the three columns, the table is passed through
    unchanged, whatever other indicator column it has.  The thirteen values
    100, ..., 112 give a change defined at index 12 only, equal to 0.12. *)
Theorem calculate_yoy (cfg : Config) (sqrtQ : Q -> Q)
        (csv_data json_data api_data : option DataFrame) :
  is_price_shaped (combined csv_data json_data api_data) = false ->
  (is_indicator_shaped (combined csv_data json_data api_data) = true ->
   forall out,
     calculate cfg sqrtQ csv_data json_data api_data = Ok out ->
     exists dates idx,
       get_col "Date" (combined csv_data json_data api_data) = Some dates
       /\ Permutation (seq 0 (List.length dates)) idx
       /\ get_col "Date" out = Some (take (Num NaN) idx dates)
       /\ ascending (take (Num NaN) idx dates)
       /\ forall c col,
            In c indicator_cols ->
            get_col c (combined csv_data json_data api_data) = Some col ->
            exists sorted yoy,
              sorted = take (Num NaN) idx col
              /\ get_col c out = Some sorted
              /\ get_col (yoy_name c) out = Some (nums yoy)
              /\ List.length yoy = List.length sorted
              /\ (forall i, (i < 12)%nat -> (i < List.length sorted)%nat ->
                    nth_error yoy i = Some NaN)
              /\ (forall i, (12 <= i)%nat -> (i < List.length sorted)%nat ->
                    exists a b,
                      nth_error (ffill sorted) i = Some a
                      /\ nth_error (ffill sorted) (i - 12) = Some b
                      /\ nth_error yoy i = Some (change a b))
              /\ (Forall (fun x => isnull x = false) sorted ->
                  ffill sorted = sorted))
  /\ (is_indicator_shaped (combined csv_data json_data api_data) = false ->
      calculate cfg sqrtQ csv_data json_data api_data
      = Ok (combined csv_data json_data api_data))
  /\ exists out13 v,
       calculate cfg sqrtQ None (Some thirteen_months) None = Ok out13
       /\ get_col "GDP_Growth_YoY_Change" out13
          = Some (repeat (Num NaN) 12 ++ [Num (Fin v)])%list
       /\ v == 12 # 100.
Proof.
  intros Hs. split; [|split].
  - intros Hi out Hout. unfold calculate in Hout. unfold combined in *.
    destruct (given csv_data ++ given json_data ++ given api_data)%list
      as [|d ds] eqn:Ed; [discriminate Hi|].
    rewrite Hs, Hi in Hout.
    destruct (calculate_indicators_spec _ _ Hout)
      as (dates & idx & Hdates & Hperm & Hdo & Hasc & Hcols).
    exists dates, idx. repeat (split; [assumption|]).
    intros c col Hc Hcol.
    destruct (Hcols c col Hc Hcol) as (yoy & Hyoy & Hco & Hyo).
    destruct (pct_change_col_spec 12 _ _ Hyoy) as (ys & -> & Hlen & Hearly & Hlate).
    exists (take (Num NaN) idx col), ys.
    repeat (split; [assumption || reflexivity|]).
    intros Hpresent. apply ffill_from_present.
    eapply Forall_impl; [|exact Hpresent]. intros x Hx. exact Hx.
  - intros Hi. unfold calculate, combined in *.
    destruct (given csv_data ++ given json_data ++ given api_data)%list
      as [|d ds] eqn:Ed; [reflexivity|].
    now rewrite Hs, Hi.
  - eexists. eexists. split; [reflexivity|]. split; [reflexivity|]. reflexivity.
Qed.

Lemma calculate_yoy_witness :
  (exists out,
      calculate default_config sqrt_approx None (Some repeated_dates) None = Ok out
      /\ get_col "Date" out = Some [Date 1; Date 1; Date 2; Date 2])
  /\ (exists out yoy,
         calculate default_config sqrt_approx (Some text_indicator) None None = Ok out
         /\ get_col "Inflation_Rate_YoY_Change" out = Some (nums yoy)
         /\ List.length yoy = 2%nat)
  /\ calculate default_config sqrt_approx None None (Some rates_only) = Ok rates_only.
Proof.
  split; [|split].
  - destruct (calculate_yoy default_config sqrt_approx None (Some repeated_dates)
                None eq_refl) as (Hyoy & _ & _).
    eexists. split; [reflexivity|].
    destruct (Hyoy eq_refl _ eq_refl) as (dates & idx & _ & _ & _ & _ & _).
    reflexivity.
  - destruct (calculate_yoy default_config sqrt_approx (Some text_indicator) None
                None eq_refl) as (Hyoy & _ & _).
    destruct (Hyoy eq_refl _ eq_refl) as (dates & idx & Hd & Hperm & _ & _ & Hcols).
    destruct (Hcols "Inflation_Rate" [Str "high"; Str "low"]
                ltac:(simpl; tauto) eq_refl)
      as (sorted & yoy & -> & _ & Hy & Hlen & _).
    eexists. exists yoy. split; [reflexivity|]. split; [exact Hy|].
    injection Hd as <-. apply Permutation_length in Hperm.
    rewrite Hlen. unfold take. rewrite length_map, <- Hperm. reflexivity.
  - destruct (calculate_yoy default_config sqrt_approx None None (Some rates_only)
                eq_refl) as (_ & Hpass & _).
    exact (Hpass eq_refl).
Defined.

(** A table with an interest rate and none of the three recognised columns
    is passed through: no year-over-year column is added. *)
Lemma calculate_yoy_fails :
  exists out,
    calculate default_config sqrt_approx None (Some rates_only) None = Ok out
    /\ has_col "Interest_Rate" rates_only = true
    /\ has_col "Interest_Rate_YoY_Change" out = false.
Proof. eexists. split; [reflexivity|]. split; reflexivity. Qed.

(** * Further properties of the validator *)

Lemma has_col_set (name n : string) (col : column) (df : DataFrame) :
  has_col n (set_col name col df) = String.eqb name n || has_col n df.
Proof.
  destruct (String.eqb name n) eqn:E; simpl.
  - apply String.eqb_eq in E. subst. apply has_set_same.
  - now apply has_set_other.
Qed.

Lemma has_col_reset (name n : string) (col : column) (df : DataFrame) :
  has_col name df = true -> has_col n (set_col name col df) = has_col n df.
Proof.
  intros H. rewrite has_col_set. destruct (String.eqb name n) eqn:E; [|reflexivity].
  apply String.eqb_eq in E. subst. now rewrite H.
Qed.

Lemma getnum_has (name : string) (df : DataFrame) (xs : list fval) :
  getnum name df = Ok xs -> has_col name df = true.
Proof. intros H. now rewrite has_col_get, (getnum_ok _ _ _ H). Qed.

Lemma repair_ohlc_has (df df' : DataFrame) (n : string) :
  wf df -> repair_ohlc df = Ok df' -> has_col n df' = has_col n df.
Proof.
  intros Hwf H.
  destruct (repair_ohlc_ok _ _ Hwf H) as (o & h & l & c & _ & Hh & Hl & _ & _ & ->).
  rewrite has_col_reset.
  - apply has_col_reset. eapply getnum_has; eauto.
  - rewrite has_col_reset; eapply getnum_has; eauto.
Qed.

Lemma repair_volume_has (df df' : DataFrame) (n : string) :
  repair_volume df = Ok df' -> has_col n df' = has_col n df.
Proof.
  intros H. destruct (repair_volume_ok _ _ H) as [->|[v [Hv ->]]]; [reflexivity|].
  apply has_col_reset. eapply getnum_has; eauto.
Qed.

Lemma flag_extreme_returns_has (df df' : DataFrame) (n : string) :
  wf df -> flag_extreme_returns df = Ok df' ->
  has_col n df' = has_col n df
  \/ (n = "Extreme_Return_Flag" /\ has_col n df' = true).
Proof.
  intros Hwf H.
  destruct (flag_extreme_returns_ok _ _ Hwf H) as [[-> _]|[r [_ [_ ->]]]]; [now left|].
  rewrite has_col_set. destruct (String.eqb "Extreme_Return_Flag" n) eqn:E.
  - right. apply String.eqb_eq in E. now subst.
  - now left.
Qed.

(** ** The indicator branch *)

Lemma repair_indicator_ok (name : string) (lo hi : Q) (df df' : DataFrame) :
  repair_indicator name lo hi df = Ok df' ->
  (has_col name df = false /\ df' = df)
  \/ exists xs, getnum name df = Ok xs
                /\ df' = set_col name (refilled lo hi xs) df.
Proof.
  unfold repair_indicator. destruct (has_col name df); [|intros H; inversion H; auto].
  destruct (getnum name df) as [xs|] eqn:Exs; [|discriminate].
  intros H. right. exists xs. split; [reflexivity|].
  assert (Hr : Ok df'
               = if any (map (fun x => flt x (Fin lo) || fgt x (Fin hi)) xs)
                 then Ok (set_col name
                            (ffill (nums (loc_set
                               (map (fun x => flt x (Fin lo) || fgt x (Fin hi)) xs)
                               NaN xs))) df)
                 else Ok df)
    by (rewrite <- H; reflexivity).
  clear H. rewrite loc_set_map in Hr. unfold refilled.
  destruct (any (map (fun x => flt x (Fin lo) || fgt x (Fin hi)) xs)).
  - now injection Hr.
  - injection Hr as ->. symmetry. apply set_col_same_id. now apply getnum_ok.
Qed.

Lemma length_refilled (lo hi : Q) (xs : list fval) :
  List.length (refilled lo hi xs) = List.length xs.
Proof.
  unfold refilled. destruct (any _).
  - unfold ffill. now rewrite length_ffill_from, length_nums, length_map.
  - apply length_nums.
Qed.

Lemma repair_indicator_frame (name : string) (lo hi : Q) (df df' : DataFrame) :
  wf df -> repair_indicator name lo hi df = Ok df' ->
  wf df' /\ nrows df' = nrows df
  /\ (forall n, has_col n df' = has_col n df)
  /\ (forall n, String.eqb name n = false -> get_col n df' = get_col n df).
Proof.
  intros Hwf H.
  destruct (repair_indicator_ok _ _ _ _ _ H) as [[_ ->]|[xs [Hxs ->]]]; [auto|].
  assert (Hlen : List.length (refilled lo hi xs) = nrows df).
  { rewrite length_refilled, <- length_nums.
    apply (wf_get df name); [assumption | now apply getnum_ok]. }
  repeat split.
  - now apply wf_set_col.
  - now apply nrows_set_col.
  - intros n. apply has_col_reset. eapply getnum_has; eauto.
  - intros n Hn. now apply get_set_other.
Qed.

Lemma validate_indicators_frame (df out : DataFrame) :
  wf df -> validate_indicators df = Ok out ->
  wf out /\ nrows out = nrows df /\ (forall n, has_col n out = has_col n df).
Proof.
  intros Hwf. unfold validate_indicators.
  destruct (repair_indicator "GDP_Growth" _ _ _) as [d1|] eqn:E1; simpl; [|discriminate].
  destruct (repair_indicator "Unemployment_Rate" _ _ d1) as [d2|] eqn:E2; simpl;
    [|discriminate].
  intros E3.
  destruct (repair_indicator_frame _ _ _ _ _ (wf_gap_fill _ Hwf) E1) as (W1 & N1 & H1 & _).
  destruct (repair_indicator_frame _ _ _ _ _ W1 E2) as (W2 & N2 & H2 & _).
  destruct (repair_indicator_frame _ _ _ _ _ W2 E3) as (W3 & N3 & H3 & _).
  repeat split; auto.
  - now rewrite N3, N2, N1, nrows_gap_fill.
  - intros n. now rewrite H3, H2, H1, has_col_gap_fill.
Qed.

Lemma validate_prices_frame (cfg : Config) (df out : DataFrame) :
  wf df -> validate_prices cfg df = Ok out ->
  wf out /\ nrows out = nrows df
  /\ (forall n, has_col n df = true -> has_col n out = true)
  /\ (forall n, has_col n out = true ->
                has_col n df = true \/ n = "Extreme_Return_Flag").
Proof.
  intros Hwf Hout.
  destruct (validate_prices_stages _ _ _ Hout) as (d1 & d2 & d3 & E1 & E2 & E3 & E4).
  destruct (repair_prices_nrows cfg _ _ Hwf E1) as [W1 N1].
  destruct (repair_ohlc_frame _ _ W1 E2) as [W2 [N2 _]].
  destruct (repair_volume_frame _ _ W2 E3) as [W3 [N3 _]].
  destruct (flag_extreme_returns_frame _ _ W3 E4) as [W4 [N4 _]].
  assert (Hhas : forall n, has_col n d3 = has_col n df).
  { intros n. rewrite (repair_volume_has _ _ n E3), (repair_ohlc_has _ _ n W1 E2).
    apply (repair_prices_has cfg _ _ n E1). }
  repeat split; auto; try congruence.
  - intros n Hn. destruct (flag_extreme_returns_has _ _ n W3 E4) as [H|[_ H]];
      [now rewrite H, Hhas | assumption].
  - intros n Hn. destruct (flag_extreme_returns_has _ _ n W3 E4) as [H|[H _]];
      [left; now rewrite <- Hhas, <- H | now right].
Qed.

Lemma validate_frame (cfg : Config) (df out : DataFrame) :
  wf df -> nrows df <> 0%nat ->
  validate cfg (Some df) = Ok out ->
  wf out /\ nrows out = nrows df
  /\ (forall n, has_col n df = true -> has_col n out = true)
  /\ (forall n, has_col n out = true ->
                has_col n df = true \/ n = "Extreme_Return_Flag").
Proof.
  intros Hwf Hn. unfold validate.
  destruct (nrows df =? 0)%nat eqn:E; [apply Nat.eqb_eq in E; contradiction|].
  destruct (is_price_shaped df).
  - now apply validate_prices_frame.
  - destruct (is_indicator_shaped df).
    + intros H. destruct (validate_indicators_frame _ _ Hwf H) as (W & N & Hh).
      repeat split; auto; intros n; rewrite Hh; auto.
    + intros H. inversion H; subst. auto.
Qed.

(** X1.  Whatever the shape of a table with rows, a validation that succeeds
    returns a rectangular table with the same number of rows; no column is
    dropped, and the only column that can appear is Extreme_Return_Flag. *)
Theorem validate_keeps_rows_and_columns (cfg : Config) (df out : DataFrame) :
  wf df -> nrows df <> 0%nat ->
  validate cfg (Some df) = Ok out ->
  wf out /\ nrows out = nrows df
  /\ (forall n, has_col n df = true -> has_col n out = true)
  /\ (forall n, has_col n out = true ->
                has_col n df = true \/ n = "Extreme_Return_Flag").
Proof. apply validate_frame. Qed.

Lemma validate_keeps_rows_and_columns_witness :
  exists out,
    validate default_config (Some sample_prices) = Ok out
    /\ nrows out = 4%nat /\ has_col "Volume" out = true.
Proof.
  eexists. split; [reflexivity|].
  destruct (validate_keeps_rows_and_columns default_config sample_prices _
              ltac:(repeat constructor) ltac:(discriminate) eq_refl)
    as (_ & Hn & Hin & _).
  split; [exact Hn | exact (Hin "Volume" eq_refl)].
Defined.

(** ** Volume *)

Lemma clamp_volume_not_negative (x : fval) : flt (clamp_volume x) (Fin 0) = false.
Proof.
  unfold clamp_volume. destruct (flt x (Fin 0)) eqn:E; [reflexivity | exact E].
Qed.

Lemma repair_volume_column (df df' : DataFrame) :
  repair_volume df = Ok df' -> has_col "Volume" df = true ->
  exists v, getnum "Volume" df = Ok v
            /\ get_col "Volume" df' = Some (nums (map clamp_volume v)).
Proof.
  unfold repair_volume. intros H Hhas. rewrite Hhas in H.
  destruct (getnum "Volume" df) as [v|] eqn:Ev; [|discriminate].
  exists v. split; [reflexivity|].
  assert (Hr : Ok df'
               = if any (map (fun x => flt x (Fin 0)) v)
                 then Ok (set_col "Volume"
                            (nums (loc_set (map (fun x => flt x (Fin 0)) v) (Fin 0) v))
                            df)
                 else Ok df)
    by (rewrite <- H; reflexivity).
  clear H. rewrite loc_set_map in Hr.
  destruct (any (map (fun x => flt x (Fin 0)) v)) eqn:Eany; injection Hr as ->.
  - now rewrite get_set_same.
  - rewrite (getnum_ok _ _ _ Ev). do 2 f_equal.
    apply any_map_false in Eany. symmetry.
    rewrite <- (map_id v) at 2. apply map_ext_in. intros x Hx.
    rewrite Forall_forall in Eany. unfold clamp_volume. now rewrite (Eany x Hx).
Qed.

(** X2.  In the validated price table no volume is negative: each volume is
    the volume of the gap-filled input, or 0 where that one was negative. *)
Theorem validate_volume_not_negative (cfg : Config) (df out : DataFrame)
        (volume : column) :
  wf df -> nrows df <> 0%nat -> is_price_shaped df = true ->
  get_col "Volume" df = Some volume ->
  validate cfg (Some df) = Ok out ->
  exists v,
    bfill (ffill volume) = nums v
    /\ get_col "Volume" out = Some (nums (map clamp_volume v))
    /\ Forall (fun x => flt x (Fin 0) = false) (map clamp_volume v).
Proof.
  intros Hwf Hn Hs Hvol Hout. rewrite validate_price_shaped in Hout by assumption.
  destruct (validate_prices_stages _ _ _ Hout) as (d1 & d2 & d3 & E1 & E2 & E3 & E4).
  destruct (repair_prices_nrows cfg _ _ Hwf E1) as [W1 _].
  destruct (repair_ohlc_frame _ _ W1 E2) as [W2 [_ G2]].
  destruct (repair_volume_frame _ _ W2 E3) as [W3 _].
  destruct (flag_extreme_returns_frame _ _ W3 E4) as [_ [_ G4]].
  assert (Hv2 : get_col "Volume" d2 = Some (bfill (ffill volume))).
  { rewrite G2 by reflexivity. rewrite (repair_prices_other cfg df d1 "Volume").
    - now rewrite Hvol.
    - simpl. intros H. repeat destruct H as [H|H]; discriminate H || exact H.
    - assumption. }
  destruct (repair_volume_column _ _ E3) as [v [Hv Hget]].
  { now rewrite has_col_get, Hv2. }
  exists v. apply getnum_ok in Hv. rewrite Hv2 in Hv. inversion Hv as [Hfill].
  split; [first [assumption | reflexivity]|]. split.
  - rewrite G4 by reflexivity. exact Hget.
  - apply Forall_map. apply Forall_forall. intros x _.
    apply clamp_volume_not_negative.
Qed.

Lemma validate_volume_not_negative_witness :
  exists out,
    validate default_config (Some sample_prices) = Ok out
    /\ get_col "Volume" out = Some [num 100; num 0; num 3; num 4].
Proof.
  eexists. split; [reflexivity|].
  destruct (validate_volume_not_negative default_config sample_prices _
              [num 100; num (-50); num 3; num 4]
              ltac:(repeat constructor) ltac:(discriminate) eq_refl eq_refl eq_refl)
    as (v & Hfill & Hget & _).
  vm_compute in Hfill. apply (nums_inj [_; _; _; _]) in Hfill. subst v. exact Hget.
Defined.

(** ** Bounds of the indicators *)

Lemma not_outside_within (lo hi : Q) (x : fval) :
  flt x (Fin lo) || fgt x (Fin hi) = false -> within lo hi x.
Proof.
  unfold within, fgt. destruct x as [| |q|]; simpl; try discriminate; [now left|].
  rewrite orb_false_iff, !Qlt_bool_false. intros [H1 H2]. right. exists q. auto.
Qed.

Lemma numeric_cells (P : fval -> Prop) (col : column) :
  Forall (fun c => exists x, c = Num x /\ P x) col ->
  exists xs, col = nums xs /\ Forall P xs.
Proof.
  induction 1 as [|c rest [x [-> Hx]] _ [xs [-> Hxs]]].
  - exists []. split; [reflexivity | constructor].
  - exists (x :: xs). split; [reflexivity | now constructor].
Qed.

Lemma refilled_within (lo hi : Q) (xs : list fval) :
  exists ys, refilled lo hi xs = nums ys /\ Forall (within lo hi) ys.
Proof.
  apply numeric_cells. unfold refilled.
  destruct (any (map (fun x => flt x (Fin lo) || fgt x (Fin hi)) xs)) eqn:Eany.
  - apply Forall_forall. intros c Hc. unfold ffill in Hc.
    apply in_ffill_from in Hc. destruct Hc as [Hc|Hc]; [|discriminate].
    unfold nums in Hc. rewrite map_map in Hc. apply in_map_iff in Hc.
    destruct Hc as [x [<- _]].
    destruct (flt x (Fin lo) || fgt x (Fin hi)) eqn:E.
    + exists NaN. split; [reflexivity | now left].
    + exists x. split; [reflexivity | now apply not_outside_within].
  - apply any_map_false in Eany. unfold nums. apply Forall_map.
    eapply Forall_impl; [|exact Eany]. intros x Hx. exists x.
    split; [reflexivity | now apply not_outside_within].
Qed.

(** The forward fill has nothing to put in a first row. *)
Lemma refilled_leading (lo hi : Q) (x : fval) (xs : list fval) :
  flt x (Fin lo) || fgt x (Fin hi) = true ->
  exists tail, refilled lo hi (x :: xs) = Num NaN :: tail.
Proof.
  intros H. unfold refilled, any, ffill, nums. cbn [map existsb].
  rewrite H. cbn [orb map ffill_from isnull]. eauto.
Qed.

Lemma repair_indicator_column (name : string) (lo hi : Q) (df df' : DataFrame)
      (xs : list fval) :
  repair_indicator name lo hi df = Ok df' ->
  get_col name df = Some (nums xs) ->
  get_col name df' = Some (refilled lo hi xs).
Proof.
  intros H Hget.
  destruct (repair_indicator_ok _ _ _ _ _ H) as [[Hno _]|[ys [Hys ->]]].
  - rewrite has_col_get, Hget in Hno. discriminate.
  - rewrite (getnum_of_get _ _ _ Hget) in Hys. injection Hys as <-.
    apply get_set_same.
Qed.

(** Each bounded indicator column that the table has, as it leaves the
    indicator branch. *)
Lemma validate_indicators_column (df out : DataFrame) (name : string) (lo hi : Q)
      (col : column) :
  wf df ->
  In (name, (lo, hi)) indicator_ranges ->
  get_col name df = Some col ->
  validate_indicators df = Ok out ->
  exists xs, bfill (ffill col) = nums xs
             /\ get_col name out = Some (refilled lo hi xs).
Proof.
  intros Hwf Hin Hcol. unfold validate_indicators.
  destruct (repair_indicator "GDP_Growth" _ _ _) as [d1|] eqn:E1; simpl; [|discriminate].
  destruct (repair_indicator "Unemployment_Rate" _ _ d1) as [d2|] eqn:E2; simpl;
    [|discriminate].
  intros E3.
  destruct (repair_indicator_frame _ _ _ _ _ (wf_gap_fill _ Hwf) E1) as (W1 & _ & _ & G1).
  destruct (repair_indicator_frame _ _ _ _ _ W1 E2) as (W2 & _ & _ & G2).
  destruct (repair_indicator_frame _ _ _ _ _ W2 E3) as (_ & _ & _ & G3).
  assert (H0 : get_col name (df_bfill (df_ffill df)) = Some (bfill (ffill col)))
    by now rewrite get_col_gap_fill, Hcol.
  simpl in Hin. destruct Hin as [Hin|[Hin|[Hin|[]]]]; inversion Hin; subst; clear Hin.
  - destruct (repair_indicator_ok _ _ _ _ _ E1) as [[Hno _]|[xs [Hxs Hd1]]].
    { rewrite has_col_get, H0 in Hno. discriminate. }
    exists xs. split.
    + apply getnum_ok in Hxs. rewrite H0 in Hxs. now inversion Hxs.
    + rewrite G3, G2 by reflexivity. rewrite Hd1. apply get_set_same.
  - rewrite <- G1 in H0 by reflexivity.
    destruct (repair_indicator_ok _ _ _ _ _ E2) as [[Hno _]|[xs [Hxs Hd2]]].
    { rewrite has_col_get, H0 in Hno. discriminate. }
    exists xs. split.
    + apply getnum_ok in Hxs. rewrite H0 in Hxs. now inversion Hxs.
    + rewrite G3 by reflexivity. rewrite Hd2. apply get_set_same.
  - rewrite <- G1, <- G2 in H0 by reflexivity.
    destruct (repair_indicator_ok _ _ _ _ _ E3) as [[Hno _]|[xs [Hxs Hd3]]].
    { rewrite has_col_get, H0 in Hno. discriminate. }
    exists xs. split.
    + apply getnum_ok in Hxs. rewrite H0 in Hxs. now inversion Hxs.
    + rewrite Hd3. apply get_set_same.
Qed.

Lemma validate_indicator_shaped (cfg : Config) (df : DataFrame) :
  nrows df <> 0%nat -> is_price_shaped df = false -> is_indicator_shaped df = true ->
  validate cfg (Some df) = validate_indicators df.
Proof.
  intros Hn Hp Hi. unfold validate. rewrite Hp, Hi.
  destruct (nrows df =? 0)%nat eqn:E; [|reflexivity].
  apply Nat.eqb_eq in E. contradiction.
Qed.

(** X3.  In a validated indicator table every value of GDP_Growth lies in
    [-10, 15], of Unemployment_Rate in [0, 30] and of Inflation_Rate in
    [-5, 25], or is missing. *)
Theorem validate_indicator_bounds (cfg : Config) (df out : DataFrame)
        (name : string) (lo hi : Q) :
  wf df -> nrows df <> 0%nat ->
  is_price_shaped df = false -> is_indicator_shaped df = true ->
  In (name, (lo, hi)) indicator_ranges ->
  has_col name df = true ->
  validate cfg (Some df) = Ok out ->
  exists ys, getnum name out = Ok ys /\ Forall (within lo hi) ys.
Proof.
  intros Hwf Hn Hp Hi Hin Hhas Hout.
  rewrite validate_indicator_shaped in Hout by assumption.
  destruct (has_col_true _ _ Hhas) as [col Hcol].
  destruct (validate_indicators_column df out name lo hi col Hwf Hin Hcol Hout)
    as [xs [_ Hget]].
  destruct (refilled_within lo hi xs) as [ys [Hys Hall]].
  exists ys. split; [|assumption]. apply getnum_of_get. now rewrite Hget, Hys.
Qed.

Lemma validate_indicator_bounds_witness :
  exists out ys,
    validate default_config (Some sample_indicators) = Ok out
    /\ getnum "GDP_Growth" out = Ok ys /\ Forall (within (-10) 15) ys.
Proof.
  eexists.
  destruct (validate_indicator_bounds default_config sample_indicators _
              "GDP_Growth" (-10) 15
              ltac:(repeat constructor) ltac:(discriminate) eq_refl eq_refl
              (or_introl eq_refl) eq_refl eq_refl)
    as [ys [Hget Hall]].
  exists ys. split; [reflexivity|]. split; assumption.
Defined.

(** X4.  The indicator branch fills forward only: when the first value of a
    bounded indicator (after the gap fill) is out of range, the validated
    table has a missing value there, whatever follows. *)
Theorem validate_indicator_leading (cfg : Config) (df out : DataFrame)
        (name : string) (lo hi : Q) (col rest : column) (x : fval) :
  wf df -> nrows df <> 0%nat ->
  is_price_shaped df = false -> is_indicator_shaped df = true ->
  In (name, (lo, hi)) indicator_ranges ->
  get_col name df = Some col ->
  bfill (ffill col) = Num x :: rest ->
  flt x (Fin lo) || fgt x (Fin hi) = true ->
  validate cfg (Some df) = Ok out ->
  exists tail, get_col name out = Some (Num NaN :: tail).
Proof.
  intros Hwf Hn Hp Hi Hin Hcol Hfill Hbad Hout.
  rewrite validate_indicator_shaped in Hout by assumption.
  destruct (validate_indicators_column df out name lo hi col Hwf Hin Hcol Hout)
    as [xs [Hxs Hget]].
  rewrite Hfill in Hxs. destruct xs as [|x' xs]; [discriminate|].
  simpl in Hxs. inversion Hxs; subst x'.
  destruct (refilled_leading lo hi x xs Hbad) as [tail Htail].
  exists tail. now rewrite Hget, Htail.
Qed.

Lemma validate_indicator_leading_witness :
  exists out,
    validate default_config (Some sample_indicators) = Ok out
    /\ get_col "GDP_Growth" out = Some [Num NaN; num 2; num 2].
Proof.
  eexists. split; [reflexivity|].
  destruct (validate_indicator_leading default_config sample_indicators _
              "GDP_Growth" (-10) 15 [num 40; num 2; num (-20)]
              [num 2; num (-20)] (Fin 40)
              ltac:(repeat constructor) ltac:(discriminate) eq_refl eq_refl
              (or_introl eq_refl) eq_refl eq_refl eq_refl eq_refl)
    as [tail Hget].
  vm_compute in Hget. injection Hget as <-. reflexivity.
Defined.

(** ** Tables of neither shape *)

Lemma union_names_fresh (seen names : list string) :
  NoDup names -> (forall n, In n names -> ~ In n seen) ->
  union_names seen names = names.
Proof.
  intros Hnd. revert seen. induction Hnd as [|n rest Hn Hnd IH]; intros seen Hfresh;
    simpl; [reflexivity|].
  destruct (existsb (String.eqb n) seen) eqn:E.
  - apply existsb_exists in E. destruct E as [m [Hm Heq]].
    apply String.eqb_eq in Heq. subst m. exfalso. apply (Hfresh n); simpl; auto.
  - f_equal. apply IH. intros m Hm [<-|Hs]; [contradiction|].
    apply (Hfresh m); simpl; auto.
Qed.

Lemma get_col_absent (name : string) (df : DataFrame) :
  ~ In name (map fst df) -> get_col name df = None.
Proof.
  induction df as [|[n c] rest IH]; simpl; [reflexivity|].
  intros H. destruct (String.eqb n name) eqn:E.
  - apply String.eqb_eq in E. tauto.
  - apply IH. tauto.
Qed.

Lemma get_col_present (name : string) (df : DataFrame) :
  In name (map fst df) -> exists c, get_col name df = Some c.
Proof.
  induction df as [|[n c] rest IH]; simpl; [tauto|].
  destruct (String.eqb n name) eqn:E; [eauto|].
  intros [->|H]; [rewrite String.eqb_refl in E; discriminate | auto].
Qed.

Lemma rebuild_frame (df : DataFrame) :
  NoDup (map fst df) ->
  map (fun name => (name, flat_map (col_or_missing name) [df])) (map fst df) = df.
Proof.
  induction df as [|[n c] rest IH]; simpl; [reflexivity|].
  intros Hnd. inversion Hnd as [|? ? Hn Hrest]; subst.
  unfold col_or_missing at 1. simpl. rewrite String.eqb_refl, app_nil_r.
  apply (f_equal (cons (n, c))).
  etransitivity; [|apply (IH Hrest)]. apply map_ext_in. intros m Hm.
  unfold col_or_missing. simpl.
  destruct (String.eqb n m) eqn:E.
  - apply String.eqb_eq in E. subst m. contradiction.
  - destruct (get_col_present m rest Hm) as [c' ->]. reflexivity.
Qed.

(** Stacking one frame gives that frame. *)
Lemma concat_single (df : DataFrame) : NoDup (map fst df) -> concat [df] = df.
Proof.
  intros Hnd. unfold concat. simpl flat_map at 2. rewrite app_nil_r.
  rewrite union_names_fresh; [now apply rebuild_frame | assumption | intros n _ []].
Qed.

(** X5.  A table with rows that is neither price-shaped nor indicator-shaped
    goes through both stages untouched: [calculate] returns it as it is,
    from whichever of its three arguments it comes, and so does
    [validate]. *)
Theorem unknown_shape_passes_through (cfg : Config) (sqrtQ : Q -> Q) (df : DataFrame) :
  NoDup (map fst df) -> nrows df <> 0%nat ->
  is_price_shaped df = false -> is_indicator_shaped df = false ->
  calculate cfg sqrtQ (Some df) None None = Ok df
  /\ calculate cfg sqrtQ None (Some df) None = Ok df
  /\ calculate cfg sqrtQ None None (Some df) = Ok df
  /\ validate cfg (Some df) = Ok df.
Proof.
  intros Hnd Hn Hp Hi.
  assert (He : df_empty df = false).
  { destruct df as [|p rest]; [now contradiction Hn|]. unfold df_empty.
    now apply Nat.eqb_neq. }
  repeat split;
    try (unfold calculate, given; rewrite He; cbn [app]; cbv beta iota zeta;
         now rewrite (concat_single df Hnd), Hp, Hi).
  unfold validate. cbv zeta. rewrite Hp, Hi.
  destruct (nrows df =? 0)%nat eqn:E; [|reflexivity].
  apply Nat.eqb_eq in E. contradiction.
Qed.

Lemma unknown_shape_passes_through_witness :
  calculate default_config sqrt_approx None (Some sample_other) None = Ok sample_other
  /\ validate default_config (Some sample_other) = Ok sample_other.
Proof.
  destruct (unknown_shape_passes_through default_config sqrt_approx sample_other)
    as (_ & H2 & _ & H4); try reflexivity; try discriminate.
  - repeat constructor; simpl; intros H; repeat destruct H as [H|H];
      discriminate H || exact H.
  - split; assumption.
Defined.

(** ** The table of the loader *)

Lemma validate_keeps_shape (cfg : Config) (df out : DataFrame) :
  wf df -> nrows df <> 0%nat -> validate cfg (Some df) = Ok out ->
  is_price_shaped out = is_price_shaped df
  /\ is_indicator_shaped out = is_indicator_shaped df.
Proof.
  intros Hwf Hn Hout.
  destruct (validate_frame cfg df out Hwf Hn Hout)
    as (_ & _ & Hin & Hback).
  assert (Hsame : forall n, String.eqb n "Extreme_Return_Flag" = false ->
                            has_col n out = has_col n df).
  { intros n Hne. destruct (has_col n df) eqn:E; [now apply Hin|].
    destruct (has_col n out) eqn:E'; [|reflexivity].
    destruct (Hback n E') as [H|H]; [congruence|].
    subst n. discriminate Hne. }
  unfold is_price_shaped, is_indicator_shaped. simpl.
  now rewrite !Hsame by reflexivity.
Qed.

(** X6.  Validation does not change where the loader stores a table: the
    validated table is written to the database table that its input would
    have been written to. *)
Theorem validate_keeps_table_name (cfg : Config) (df out : DataFrame) :
  wf df -> nrows df <> 0%nat -> validate cfg (Some df) = Ok out ->
  table_name out = table_name df.
Proof.
  intros Hwf Hn Hout. unfold table_name.
  destruct (validate_keeps_shape cfg df out Hwf Hn Hout) as [-> ->]. reflexivity.
Qed.

Lemma validate_keeps_table_name_witness :
  exists out,
    validate default_config (Some sample_indicators) = Ok out
    /\ table_name out = "economic_indicators".
Proof.
  eexists. split; [reflexivity|].
  apply (validate_keeps_table_name default_config sample_indicators);
    [repeat constructor | discriminate | reflexivity].
Defined.

(** * Further properties of the calculator *)

Section MoreColumns.

Variable cfg : Config.
Variable sqrtQ : Q -> Q.

Lemma symbol_metrics_more (sdf out : DataFrame) :
  symbol_metrics cfg sqrtQ sdf = Ok out ->
  exists close,
    getnum "Close" sdf = Ok close
    /\ get_col "Daily_Return" out = Some (nums (pct_change 1 close))
    /\ get_col "EMA_12" out = Some (nums (ewm_mean 12 close))
    /\ get_col "EMA_26" out = Some (nums (ewm_mean 26 close))
    /\ get_col "MACD" out
       = Some (nums (map2 fsub (ewm_mean 12 close) (ewm_mean 26 close)))
    /\ get_col "Symbol" out = get_col "Symbol" sdf
    /\ get_col "Date" out = get_col "Date" sdf
    /\ get_col "Close" out = get_col "Close" sdf.
Proof.
  unfold symbol_metrics.
  destruct (getnum "Close" sdf) as [close|] eqn:Ec; simpl; [|discriminate].
  intros H. inversion H; subst out; clear H. exists close.
  split; [reflexivity|].
  repeat split; peel; try apply get_set_same; reflexivity.
Qed.

Lemma length_ewm_from (alpha : Q) (w : fval) (wt : Q) (xs : list fval) :
  List.length (ewm_from alpha w wt xs) = List.length xs.
Proof.
  revert w wt. induction xs as [|y ys IH]; intros w wt; simpl; [reflexivity|].
  destruct (isnan w); [simpl; now rewrite IH|].
  destruct (isnan y); simpl; now rewrite IH.
Qed.

Lemma length_ewm_mean (span : Z) (xs : list fval) :
  List.length (ewm_mean span xs) = List.length xs.
Proof.
  unfold ewm_mean, no_inf. destruct xs as [|x xs]; [reflexivity|]. simpl.
  now rewrite length_ewm_from, length_map.
Qed.

Lemma length_diff (xs : list fval) : List.length (diff xs) = List.length xs.
Proof. unfold diff. apply length_map2. now rewrite length_shift. Qed.

Lemma length_rsi (close : list fval) : List.length (rsi close) = List.length close.
Proof.
  unfold rsi, avg_gain, avg_loss, gains, losses.
  rewrite length_map, length_map2; rewrite !length_rolling, !length_map, !length_diff;
    reflexivity.
Qed.

Lemma nrows_symbol_metrics (sdf out : DataFrame) :
  wf sdf -> symbol_metrics cfg sqrtQ sdf = Ok out ->
  wf out /\ nrows out = nrows sdf.
Proof.
  unfold symbol_metrics.
  destruct (getnum "Close" sdf) as [close|] eqn:Ec; simpl; [|discriminate].
  intros Hwf H. inversion H; subst out; clear H.
  assert (Hlen : List.length close = nrows sdf).
  { rewrite <- length_nums. apply (wf_get sdf "Close"); auto. now apply getnum_ok. }
  assert (Hstep : forall name xs d,
             List.length xs = List.length close ->
             wf d /\ nrows d = nrows sdf ->
             wf (set_col name (nums xs) d)
             /\ nrows (set_col name (nums xs) d) = nrows sdf).
  { intros name xs d Hxs [Hd Hn]. split.
    - apply wf_set_col; [assumption | rewrite length_nums, Hn; congruence].
    - rewrite nrows_set_col; [assumption | rewrite length_nums, Hn; congruence]. }
  assert (Hbb : forall op : fval -> fval -> fval, List.length
            (map2 op (rolling 20 agg_mean close)
               (map (fun s => fmul s (Fin 2)) (rolling 20 (agg_std sqrtQ) close)))
            = List.length close).
  { intros op. rewrite length_map2; rewrite ?length_map, !length_rolling; reflexivity. }
  assert (Hmacd : List.length (map2 fsub (ewm_mean 12 close) (ewm_mean 26 close))
                  = List.length close).
  { rewrite length_map2; rewrite !length_ewm_mean; reflexivity. }
  repeat (apply Hstep;
          [first [ apply length_pct_change | apply length_rolling
                 | apply length_rsi | apply Hbb | apply length_ewm_mean
                 | exact Hmacd
                 | rewrite length_volatility; apply length_pct_change
                 | rewrite length_ewm_mean; exact Hmacd
                 | rewrite length_map2;
                   [exact Hmacd | rewrite length_ewm_mean; reflexivity]
                 | idtac ] |]).
  all: auto.
  rewrite ma_signal_crossover by (rewrite length_rolling; exact Hlen).
  rewrite length_map2; rewrite !length_rolling; reflexivity.
Qed.

End MoreColumns.

(** X7.  In the table of one symbol, Daily_Return has one value per row: the
    first is missing, and every later one is [c[i] / c[i-1] - 1], where [c]
    is the close with its gaps filled forward. *)
Theorem daily_return_formula (cfg : Config) (sqrtQ : Q -> Q) (sdf out : DataFrame)
        (close : list fval) :
  symbol_metrics cfg sqrtQ sdf = Ok out ->
  getnum "Close" sdf = Ok close ->
  exists r,
    getnum "Daily_Return" out = Ok r
    /\ List.length r = List.length close
    /\ (forall x, nth_error r 0 = Some x -> x = NaN)
    /\ forall i, (1 <= i)%nat -> (i < List.length close)%nat ->
         exists a b,
           nth_error (ffill_floats close) i = Some a
           /\ nth_error (ffill_floats close) (i - 1) = Some b
           /\ nth_error r i = Some (fsub (fdiv a b) (Fin 1)).
Proof.
  intros Hout Hclose.
  destruct (symbol_metrics_more cfg sqrtQ sdf out Hout) as (close' & Hc' & Hr & _).
  rewrite Hclose in Hc'. injection Hc' as <-.
  exists (pct_change 1 close). split; [now apply getnum_of_get|].
  split; [apply length_pct_change|]. split.
  - intros x Hx. destruct (pct_change_head close) as [->|[rest Hrest]].
    + discriminate Hx.
    + rewrite Hrest in Hx. simpl in Hx. congruence.
  - intros i H1 Hi. now apply pct_change_late.
Qed.

Lemma daily_return_formula_witness :
  exists out r,
    symbol_metrics small_windows sqrt_approx gap_days = Ok out
    /\ getnum "Daily_Return" out = Ok r
    /\ nth_error r 2 = Some (fsub (fdiv (Fin 12) (Fin 10)) (Fin 1)).
Proof.
  destruct (daily_return_formula small_windows sqrt_approx gap_days _
              [Fin 10; NaN; Fin 12] eq_refl eq_refl)
    as (r & Hget & _ & _ & Hlate).
  destruct (Hlate 2%nat ltac:(lia) ltac:(simpl; lia)) as (a & b & Ha & Hb & Hr).
  injection Ha as <-. injection Hb as <-.
  eexists. exists r. split; [reflexivity|]. split; assumption.
Defined.

(** ** Moving averages *)





(** ** The relative strength index *)

Lemma gains_not_negative (delta : list fval) :
  Forall (fun x => forall q, x = Fin q -> 0 <= q) (gains delta).
Proof.
  unfold gains. apply Forall_map, Forall_forall. intros d _ q.
  destruct d as [| |x|]; simpl; try discriminate.
  - intros [= <-]. apply Qle_refl.
  - intros [= <-]. apply Qle_refl.
  - destruct (Qlt_bool 0 x) eqn:E; intros [= <-].
    + apply Qlt_le_weak. now apply Qlt_bool_true.
    + apply Qle_refl.
Qed.

Lemma losses_not_negative (delta : list fval) :
  Forall (fun x => forall q, x = Fin q -> 0 <= q) (losses delta).
Proof.
  unfold losses. apply Forall_map, Forall_forall. intros d _ q.
  destruct d as [| |x|]; simpl; try discriminate.
  - intros H. inversion H. lra.
  - destruct (Qlt_bool x 0) eqn:E; simpl; intros H; inversion H.
    + apply Qlt_bool_true in E. lra.
    + lra.
  - intros H. inversion H. lra.
Qed.

Lemma observations_not_negative (w : list fval) :
  Forall (fun x => forall q, x = Fin q -> 0 <= q) w ->
  Forall (fun q => 0 <= q) (observations w).
Proof.
  induction 1 as [|x w Hx _ IH]; simpl; [constructor|].
  destruct x; simpl; auto.
Qed.

Lemma Qsum_not_negative (qs : list Q) :
  Forall (fun q => 0 <= q) qs -> 0 <= Qsum qs.
Proof.
  induction 1 as [|q qs Hq _ IH]; simpl; [apply Qle_refl|]. lra.
Qed.

Lemma Qlen_positive (qs : list Q) : (1 <= List.length qs)%nat -> 0 < Qlen qs.
Proof.
  intros H. unfold Qlen. replace 0 with (inject_Z 0) by reflexivity.
  rewrite <- Zlt_Qlt. lia.
Qed.

Lemma Qmean_not_negative (qs : list Q) :
  (1 <= List.length qs)%nat -> Forall (fun q => 0 <= q) qs -> 0 <= Qmean qs.
Proof.
  intros Hlen Hqs. unfold Qmean. apply Qle_shift_div_l.
  - now apply Qlen_positive.
  - rewrite Qmult_0_l. now apply Qsum_not_negative.
Qed.

Lemma rolling_mean_not_negative (n : nat) (xs : list fval) (i : nat) (x : fval) :
  Forall (fun x => forall q, x = Fin q -> 0 <= q) xs ->
  nth_error (rolling n agg_mean xs) i = Some x ->
  x = NaN \/ exists q, x = Fin q /\ 0 <= q.
Proof.
  intros Hxs Hx.
  assert (Hi : (i < List.length xs)%nat).
  { rewrite <- (length_rolling n agg_mean xs). apply nth_error_Some. congruence. }
  rewrite nth_error_rolling in Hx by assumption. simpl in Hx.
  injection Hx as <-.
  destruct (n <=? _)%nat; [|now left].
  unfold agg_mean. destruct (Nat.ltb_spec 0 (List.length (observations (window n i xs))));
    [|now left].
  right. eexists. split; [reflexivity|]. apply Qmean_not_negative; [assumption|].
  now apply observations_not_negative, Forall_window.
Qed.

Lemma rsi_of_range (g l : fval) :
  (g = NaN \/ exists q, g = Fin q /\ 0 <= q) ->
  (l = NaN \/ exists q, l = Fin q /\ 0 <= q) ->
  within 0 100 (rsi_of (fdiv g l)).
Proof.
  intros [->|(a & -> & Ha)] [->|(b & -> & Hb)]; try (now left).
  unfold rsi_of, fdiv. unfold Qsign at 1.
  destruct (0 ?= b) eqn:Eb.
  - unfold Qsign. destruct (0 ?= a) eqn:Ea.
    + now left.
    + right. exists 100. split; [|lra]. simpl. unfold Qsign. simpl.
      apply f_equal. reflexivity.
    + apply Qgt_alt in Ea. lra.
  - apply Qlt_alt in Eb. right.
    assert (H0 : 0 <= a / b).
    { apply Qle_shift_div_l; [assumption | lra]. }
    assert (H1 : 0 < 1 + a / b) by lra.
    simpl. rewrite (Qsign_pos _ H1). simpl.
    eexists. split; [reflexivity|].
    assert (Hd : 0 <= 100 / (1 + a / b)).
    { apply Qle_shift_div_l; [assumption | lra]. }
    assert (Hu : 100 / (1 + a / b) <= 100).
    { apply Qle_shift_div_r; [assumption | nra]. }
    lra.
  - apply Qgt_alt in Eb. lra.
Qed.

Lemma rsi_range (close : list fval) : Forall (within 0 100) (rsi close).
Proof.
  apply Forall_forall. intros x Hin.
  apply In_nth_error in Hin. destruct Hin as [i Hi].
  unfold rsi in Hi. rewrite nth_error_map in Hi.
  destruct (nth_error (map2 fdiv (avg_gain close) (avg_loss close)) i) as [rs|] eqn:Ers;
    [|discriminate].
  injection Hi as <-.
  assert (Hlen : (i < List.length close)%nat).
  { assert (Hs : nth_error (map2 fdiv (avg_gain close) (avg_loss close)) i <> None)
      by congruence.
    apply nth_error_Some in Hs.
    unfold avg_gain, avg_loss, gains, losses in Hs.
    rewrite length_map2 in Hs;
      rewrite ?length_rolling, ?length_map, ?length_diff in *; auto. }
  destruct (nth_error (avg_gain close) i) as [g|] eqn:Eg.
  2:{ apply nth_error_None in Eg. unfold avg_gain, gains in Eg.
      rewrite length_rolling, length_map, length_diff in Eg. lia. }
  destruct (nth_error (avg_loss close) i) as [l|] eqn:El.
  2:{ apply nth_error_None in El. unfold avg_loss, losses in El.
      rewrite length_rolling, length_map, length_diff in El. lia. }
  rewrite (nth_error_map2 fdiv _ _ i g l Eg El) in Ers. injection Ers as <-.
  apply rsi_of_range.
  - apply (rolling_mean_not_negative 14 _ i g (gains_not_negative (diff close)) Eg).
  - apply (rolling_mean_not_negative 14 _ i l (losses_not_negative (diff close)) El).
Qed.

(** X9.  Whatever the closes are, every value of the RSI column is missing
    or lies between 0 and 100, and the column has a value slot for each
    row. *)
Theorem rsi_between_0_and_100 (cfg : Config) (sqrtQ : Q -> Q) (sdf out : DataFrame) :
  symbol_metrics cfg sqrtQ sdf = Ok out ->
  exists close r,
    getnum "Close" sdf = Ok close
    /\ getnum "RSI" out = Ok r
    /\ List.length r = List.length close
    /\ Forall (within 0 100) r.
Proof.
  intros Hout.
  destruct (symbol_metrics_columns cfg sqrtQ sdf out Hout)
    as (close & Hc & _ & _ & _ & _ & Hrsi & _).
  exists close, (rsi close). split; [assumption|].
  split; [now apply getnum_of_get|]. split; [apply length_rsi | apply rsi_range].
Qed.

Lemma rsi_between_0_and_100_witness :
  exists out r,
    symbol_metrics default_config sqrt_approx rising_days = Ok out
    /\ getnum "RSI" out = Ok r
    /\ List.length r = 15%nat
    /\ Forall (within 0 100) r.
Proof.
  destruct (rsi_between_0_and_100 default_config sqrt_approx rising_days _ eq_refl)
    as (close & r & Hc & Hr & Hlen & Hall).
  injection Hc as <-.
  eexists. exists r. split; [reflexivity|]. repeat split; assumption.
Defined.

(** ** Bollinger bands *)

(** X10.  In a series whose closes are missing or of moderate size (at most
    10^50 in absolute value), the four Bollinger columns are missing on the
    same rows; on every other row the upper band is the middle plus twice
    the deviation and the lower band the middle minus twice the deviation,
    so the bands are symmetric about the middle. *)
Theorem bollinger_bands_symmetric (cfg : Config) (sqrtQ : Q -> Q) (sdf out : DataFrame)
        (close : list fval) (i : nat) :
  symbol_metrics cfg sqrtQ sdf = Ok out ->
  getnum "Close" sdf = Ok close ->
  Forall (within (- moderate_size) moderate_size) close ->
  (i < List.length close)%nat ->
  exists middle std upper lower,
    getnum "BB_Middle" out = Ok middle
    /\ getnum "BB_Std" out = Ok std
    /\ getnum "BB_Upper" out = Ok upper
    /\ getnum "BB_Lower" out = Ok lower
    /\ ((nth_error middle i = Some NaN /\ nth_error std i = Some NaN
         /\ nth_error upper i = Some NaN /\ nth_error lower i = Some NaN)
        \/ exists m s u l,
             nth_error middle i = Some (Fin m) /\ nth_error std i = Some (Fin s)
             /\ nth_error upper i = Some (Fin u) /\ nth_error lower i = Some (Fin l)
             /\ u == m + 2 * s /\ l == m - 2 * s /\ u - m == m - l).
Proof.
  intros Hout Hclose Hsize Hi.
  destruct (symbol_metrics_columns cfg sqrtQ sdf out Hout)
    as (close' & Hc' & _ & _ & _ & _ & _ & Hm & Hd & Hu & Hlo).
  rewrite Hclose in Hc'. injection Hc' as <-.
  do 4 eexists.
  split; [apply getnum_of_get, Hm|]. split; [apply getnum_of_get, Hd|].
  split; [apply getnum_of_get, Hu|]. split; [apply getnum_of_get, Hlo|].
  assert (Em := nth_error_rolling 20 agg_mean close i Hi).
  assert (Es := nth_error_rolling 20 (agg_std sqrtQ) close i Hi).
  cbv zeta in Em, Es.
  set (obs := observations (window 20 i close)) in *.
  assert (Es2 : forall s,
             nth_error (rolling 20 (agg_std sqrtQ) close) i = Some s ->
             nth_error (map (fun s => fmul s (Fin 2)) (rolling 20 (agg_std sqrtQ) close)) i
             = Some (fmul s (Fin 2))).
  { intros s H. now rewrite nth_error_map, H. }
  destruct (20 <=? List.length obs)%nat eqn:E20.
  - apply Nat.leb_le in E20. right.
    unfold agg_mean in Em. unfold agg_std in Es.
    destruct (Nat.ltb_spec 0 (List.length obs)); [|lia].
    destruct (Nat.ltb_spec 1 (List.length obs)); [|lia].
    exists (Qmean obs), (sqrtQ (Qvar obs)),
      (Qmean obs + sqrtQ (Qvar obs) * 2), (Qmean obs + - (sqrtQ (Qvar obs) * 2)).
    split; [assumption|]. split; [assumption|].
    split; [apply (nth_error_map2 fadd _ _ i _ _ Em (Es2 _ Es))|].
    split; [apply (nth_error_map2 fsub _ _ i _ _ Em (Es2 _ Es))|].
    repeat split; lra.
  - left. split; [assumption|]. split; [assumption|].
    split; [apply (nth_error_map2 fadd _ _ i _ _ Em (Es2 _ Es))
           |apply (nth_error_map2 fsub _ _ i _ _ Em (Es2 _ Es))].
Qed.

Lemma bollinger_bands_symmetric_witness :
  exists out middle upper lower m u l,
    symbol_metrics default_config sqrt_approx many_days = Ok out
    /\ getnum "BB_Middle" out = Ok middle
    /\ getnum "BB_Upper" out = Ok upper
    /\ getnum "BB_Lower" out = Ok lower
    /\ nth_error middle 20 = Some (Fin m)
    /\ nth_error upper 20 = Some (Fin u)
    /\ nth_error lower 20 = Some (Fin l)
    /\ u - m == m - l.
Proof.
  assert (Hsize : Forall (within (- moderate_size) moderate_size)
                    (map (fun n => Fin (inject_Z (Z.of_nat n))) (seq 1 21))).
  { apply Forall_map, Forall_forall. intros n Hn. apply in_seq in Hn.
    right. eexists. split; [reflexivity|].
    unfold moderate_size. rewrite <- !inject_Z_opp, <- !Zle_Qle. lia. }
  destruct (bollinger_bands_symmetric default_config sqrt_approx many_days _
              (map (fun n => Fin (inject_Z (Z.of_nat n))) (seq 1 21)) 20
              eq_refl eq_refl Hsize ltac:(simpl; lia))
    as (middle & std & upper & lower & Hm & Hs & Hu & Hl & Hrow).
  destruct Hrow as [(Hn & _)|(m & s & u & l & Em & Es & Eu & El & _ & _ & Hsym)].
  - exfalso. vm_compute in Hm. injection Hm as <-. discriminate Hn.
  - eexists. exists middle, upper, lower, m, u, l. split; [reflexivity|].
    repeat split; assumption.
Defined.

(** ** Exponential averages *)

Lemma within_fin (lo hi : Q) (x : fval) :
  within lo hi x -> isnan x = false -> exists q, x = Fin q /\ lo <= q <= hi.
Proof. intros [->|H] Hn; [discriminate | assumption]. Qed.

Lemma ewm_from_within (lo hi alpha : Q) (xs : list fval) :
  0 < alpha -> alpha <= 1 ->
  Forall (within lo hi) xs ->
  forall w wt, 0 <= wt -> within lo hi w ->
    Forall (within lo hi) (ewm_from alpha w wt xs).
Proof.
  intros Ha0 Ha1. induction 1 as [|cur rest Hcur _ IH]; intros w wt Hwt Hw; simpl;
    [constructor|].
  destruct (isnan w) eqn:Enw.
  - constructor; [assumption | now apply IH].
  - assert (Hwt' : 0 <= wt * (1 - alpha)) by nra.
    destruct (isnan cur) eqn:Enc.
    + constructor; [assumption | now apply IH].
    + destruct (within_fin lo hi w Hw Enw) as (a & -> & Hal & Hah).
      destruct (within_fin lo hi cur Hcur Enc) as (c & -> & Hcl & Hch).
      assert (Hnew : within lo hi
                (if feqb (Fin a) (Fin c) then Fin a
                 else fdiv (fadd (fmul (Fin (wt * (1 - alpha))) (Fin a))
                                 (fmul (Fin alpha) (Fin c)))
                           (Fin (wt * (1 - alpha) + alpha)))).
      { destruct (feqb (Fin a) (Fin c)); [right; eauto|].
        assert (Hpos : 0 < wt * (1 - alpha) + alpha) by lra.
        unfold fmul, fadd, fdiv. rewrite (Qsign_pos _ Hpos).
        right. eexists. split; [reflexivity|]. split.
        - apply Qle_shift_div_l; [assumption | nra].
        - apply Qle_shift_div_r; [assumption | nra]. }
      constructor; [assumption|]. apply IH; [lra | assumption].
Qed.

Lemma no_inf_within (lo hi : Q) (xs : list fval) :
  Forall (within lo hi) xs -> no_inf xs = xs.
Proof.
  unfold no_inf. induction 1 as [|x rest Hx _ IH]; simpl; [reflexivity|].
  rewrite IH. now destruct Hx as [->|(q & -> & _)].
Qed.

Lemma ewm_mean_within (lo hi : Q) (span : Z) (xs : list fval) :
  (1 <= span)%Z ->
  Forall (within lo hi) xs -> Forall (within lo hi) (ewm_mean span xs).
Proof.
  intros Hspan Hxs. unfold ewm_mean. rewrite (no_inf_within lo hi xs Hxs).
  destruct xs as [|x rest]; [constructor|].
  inversion Hxs as [|? ? Hx Hrest]; subst.
  assert (Hd : 2 <= inject_Z span + 1).
  { replace 2 with (inject_Z 1 + 1) by reflexivity.
    apply Qplus_le_l. rewrite <- Zle_Qle. assumption. }
  constructor; [assumption|]. apply ewm_from_within; try assumption.
  - apply Qlt_shift_div_l; lra.
  - apply Qle_shift_div_r; lra.
  - lra.
Qed.

Lemma Forall_map2 {A B C : Type} (P : A -> Prop) (R : B -> Prop) (S : C -> Prop)
      (f : A -> B -> C) (xs : list A) (ys : list B) :
  (forall a b, P a -> R b -> S (f a b)) ->
  Forall P xs -> Forall R ys -> Forall S (map2 f xs ys).
Proof.
  intros Hf Hxs. revert ys. induction Hxs as [|x xs Hx _ IH]; intros ys Hys;
    [constructor|].
  destruct Hys as [|y ys Hy Hys]; simpl; [constructor|].
  constructor; [now apply Hf | now apply IH].
Qed.

Lemma fsub_within (lo hi : Q) (a b : fval) :
  within lo hi a -> within lo hi b -> within (lo - hi) (hi - lo) (fsub a b).
Proof.
  intros [->|(x & -> & Hx)] [->|(y & -> & Hy)]; try (now left).
  right. exists (x + - y). split; [reflexivity | lra].
Qed.

Lemma symbol_metrics_macd (cfg : Config) (sqrtQ : Q -> Q) (sdf out : DataFrame) :
  symbol_metrics cfg sqrtQ sdf = Ok out ->
  exists close,
    getnum "Close" sdf = Ok close
    /\ get_col "MACD_Signal" out
       = Some (nums (ewm_mean 9 (map2 fsub (ewm_mean 12 close) (ewm_mean 26 close))))
    /\ get_col "MACD_Histogram" out
       = Some (nums (map2 fsub
                       (map2 fsub (ewm_mean 12 close) (ewm_mean 26 close))
                       (ewm_mean 9 (map2 fsub (ewm_mean 12 close) (ewm_mean 26 close))))).
Proof.
  unfold symbol_metrics.
  destruct (getnum "Close" sdf) as [close|] eqn:Ec; simpl; [|discriminate].
  intros H. inversion H; subst out; clear H. exists close.
  split; [reflexivity|].
  repeat split; peel; try apply get_set_same; reflexivity.
Qed.

(** X11.  When every close is missing or lies in [[lo, hi]], so does every
    value of EMA_12 and of EMA_26, both of which start at the first close;
    every value of MACD and of its signal line is missing or at most
    [hi - lo] in size. *)
Theorem ema_within_close_range (cfg : Config) (sqrtQ : Q -> Q) (sdf out : DataFrame)
        (close : list fval) (lo hi : Q) :
  symbol_metrics cfg sqrtQ sdf = Ok out ->
  getnum "Close" sdf = Ok close ->
  Forall (within lo hi) close ->
  exists ema_12 ema_26 macd macd_signal,
    getnum "EMA_12" out = Ok ema_12
    /\ getnum "EMA_26" out = Ok ema_26
    /\ getnum "MACD" out = Ok macd
    /\ getnum "MACD_Signal" out = Ok macd_signal
    /\ nth_error ema_12 0 = nth_error close 0
    /\ nth_error ema_26 0 = nth_error close 0
    /\ Forall (within lo hi) ema_12
    /\ Forall (within lo hi) ema_26
    /\ Forall (within (lo - hi) (hi - lo)) macd
    /\ Forall (within (lo - hi) (hi - lo)) macd_signal.
Proof.
  intros Hout Hclose Hall.
  destruct (symbol_metrics_more cfg sqrtQ sdf out Hout)
    as (close' & Hc' & _ & H12 & H26 & Hmacd & _).
  rewrite Hclose in Hc'. injection Hc' as <-.
  destruct (symbol_metrics_macd cfg sqrtQ sdf out Hout) as (close' & Hc' & Hsig & _).
  rewrite Hclose in Hc'. injection Hc' as <-.
  assert (W12 := ewm_mean_within lo hi 12 close ltac:(lia) Hall).
  assert (W26 := ewm_mean_within lo hi 26 close ltac:(lia) Hall).
  assert (Wm : Forall (within (lo - hi) (hi - lo))
                 (map2 fsub (ewm_mean 12 close) (ewm_mean 26 close))).
  { apply (Forall_map2 (within lo hi) (within lo hi)); try assumption.
    apply fsub_within. }
  do 4 eexists.
  split; [apply getnum_of_get, H12|]. split; [apply getnum_of_get, H26|].
  split; [apply getnum_of_get, Hmacd|]. split; [apply getnum_of_get, Hsig|].
  split; [unfold ewm_mean; rewrite (no_inf_within lo hi close Hall); now destruct close|].
  split; [unfold ewm_mean; rewrite (no_inf_within lo hi close Hall); now destruct close|].
  split; [assumption|]. split; [assumption|]. split; [assumption|].
  apply ewm_mean_within; [lia | assumption].
Qed.

Lemma ema_within_close_range_witness :
  exists out ema_12,
    symbol_metrics small_windows sqrt_approx gap_days = Ok out
    /\ getnum "EMA_12" out = Ok ema_12
    /\ Forall (within 10 12) ema_12.
Proof.
  assert (Hall : Forall (within 10 12) [Fin 10; NaN; Fin 12]).
  { apply Forall_cons; [|apply Forall_cons; [|apply Forall_cons; [|apply Forall_nil]]].
    - right. exists 10. split; [reflexivity | lra].
    - now left.
    - right. exists 12. split; [reflexivity | lra]. }
  destruct (ema_within_close_range small_windows sqrt_approx gap_days _
              [Fin 10; NaN; Fin 12] 10 12 eq_refl eq_refl Hall)
    as (e12 & e26 & macd & sig & H12 & _ & _ & _ & _ & _ & W12 & _).
  eexists. exists e12. split; [reflexivity|]. split; assumption.
Defined.

(** ** Rows of one symbol *)

Lemma select_map_filter {A : Type} (f : A -> bool) (xs : list A) :
  select (map f xs) xs = filter f xs.
Proof.
  unfold select. induction xs as [|x xs IH]; simpl; [reflexivity|].
  destruct (f x); simpl; now rewrite IH.
Qed.

Lemma length_select {A B : Type} (f : B -> bool) (ys : list B) (xs : list A) :
  List.length xs = List.length ys ->
  List.length (select (map f ys) xs) = List.length (filter f ys).
Proof.
  unfold select. revert xs. induction ys as [|y ys IH]; intros [|x xs]; simpl;
    try discriminate; [reflexivity|].
  intros H. injection H as H. destruct (f y); simpl; now rewrite IH.
Qed.

Lemma get_col_select_rows (name : string) (mask : list bool) (df : DataFrame) :
  get_col name (select_rows mask df) = option_map (select mask) (get_col name df).
Proof.
  induction df as [|[n c] rest IH]; simpl; [reflexivity|].
  destruct (String.eqb n name); simpl; auto.
Qed.

Lemma wf_select_rows (f : cell -> bool) (keys : column) (df : DataFrame) :
  wf df -> List.length keys = nrows df ->
  wf (select_rows (map f keys) df)
  /\ (df <> [] -> nrows (select_rows (map f keys) df) = List.length (filter f keys)).
Proof.
  intros Hwf Hlen.
  assert (Hall : Forall (fun p => List.length (snd p) = List.length (filter f keys))
                   (select_rows (map f keys) df)).
  { unfold select_rows. apply Forall_map. unfold wf in Hwf.
    eapply Forall_impl; [|exact Hwf]. intros [n c] Hc. simpl in *.
    apply length_select. congruence. }
  assert (Hn : df <> [] ->
               nrows (select_rows (map f keys) df) = List.length (filter f keys)).
  { intros Hne. destruct df as [|[n c] rest]; [contradiction|].
    inversion Hall; subst. assumption. }
  split; [|assumption].
  destruct df as [|p rest]; [constructor|].
  unfold wf. rewrite Hn by discriminate. assumption.
Qed.

Lemma length_argsort (keys : column) :
  List.length (argsort keys) = List.length keys.
Proof.
  rewrite <- (Permutation_length (argsort_perm keys)). apply length_seq.
Qed.

Lemma nrows_take_rows (idx : list nat) (df : DataFrame) :
  df <> [] -> nrows (take_rows idx df) = List.length idx.
Proof.
  destruct df as [|[n c] rest]; [contradiction|]. intros _. simpl.
  unfold take. apply length_map.
Qed.

Lemma Forall_take_argsort (P : cell -> Prop) (keys col : column) :
  List.length col = List.length keys ->
  Forall P col -> Forall P (take (Num NaN) (argsort keys) col).
Proof.
  intros Hlen Hall. unfold take. apply Forall_map, Forall_forall. intros i Hi.
  apply (Permutation_in _ (Permutation_sym (argsort_perm keys))) in Hi.
  apply in_seq in Hi. rewrite Forall_forall in Hall. apply Hall, nth_In. lia.
Qed.

Lemma symbol_frame_sorted (cfg : Config) (sqrtQ : Q -> Q) (df : DataFrame)
      (symbols : column) (symbol : cell) (out : DataFrame) :
  wf df ->
  get_col "Symbol" df = Some symbols ->
  symbol_frame cfg sqrtQ df symbols symbol = Ok out ->
  exists syms dates,
    get_col "Symbol" out = Some syms
    /\ get_col "Date" out = Some dates
    /\ Forall (fun c => cell_eqb c symbol = true) syms
    /\ ascending dates
    /\ wf out
    /\ nrows out = rows_of symbol symbols.
Proof.
  intros Hwf Hsym Hout. unfold symbol_frame in Hout.
  set (f := fun c => cell_eqb c symbol) in *.
  destruct (sort_values "Date" (select_rows (map f symbols) df)) as [sorted|] eqn:Es;
    simpl in Hout; [|discriminate].
  assert (Hlen := wf_get df "Symbol" symbols Hwf Hsym).
  assert (Hne : df <> []) by (intros ->; discriminate Hsym).
  destruct (wf_select_rows f symbols df Hwf Hlen) as [Hwfs Hns].
  specialize (Hns Hne).
  destruct (sort_values_ok _ _ _ Es) as (keys & Hkeys & ->).
  assert (Hklen : List.length keys = List.length (filter f symbols)).
  { rewrite (wf_get _ _ _ Hwfs Hkeys). exact Hns. }
  assert (Hne' : select_rows (map f symbols) df <> []).
  { intros E. rewrite E in Hkeys. discriminate Hkeys. }
  destruct (nrows_symbol_metrics cfg sqrtQ _ out (wf_take_rows _ _) Hout)
    as [Hwfo Hno].
  destruct (symbol_metrics_more cfg sqrtQ _ out Hout)
    as (_ & _ & _ & _ & _ & _ & Hs & Hd & _).
  rewrite get_col_take_rows in Hs, Hd.
  rewrite get_col_select_rows, Hsym in Hs. rewrite Hkeys in Hd. simpl in Hs, Hd.
  rewrite select_map_filter in Hs.
  do 2 eexists. split; [exact Hs|]. split; [exact Hd|].
  split.
  - apply Forall_take_argsort; [congruence|].
    apply Forall_forall. intros c Hc. now apply filter_In in Hc.
  - split; [apply take_argsort_ascending|]. split; [assumption|].
    rewrite Hno, nrows_take_rows, length_argsort by assumption. exact Hklen.
Qed.

Lemma symbol_frame_parts (cfg : Config) (sqrtQ : Q -> Q) (df : DataFrame)
      (symbols : column) (symbol : cell) (out : DataFrame) :
  wf df ->
  get_col "Symbol" df = Some symbols ->
  symbol_frame cfg sqrtQ df symbols symbol = Ok out ->
  has_col "Symbol" out = true /\ wf out /\ nrows out = rows_of symbol symbols.
Proof.
  intros Hwf Hsym Hout.
  destruct (symbol_frame_sorted cfg sqrtQ df symbols symbol out Hwf Hsym Hout)
    as (syms & dates & Hs & _ & _ & _ & Hw & Hn).
  rewrite has_col_get, Hs. auto.
Qed.

(** X12.  One turn of the loop over the symbols yields the rows of that
    symbol and no others, as many as the table has for it, sorted by
    ascending date. *)
Theorem symbol_frame_rows (cfg : Config) (sqrtQ : Q -> Q) (df : DataFrame)
        (symbols : column) (symbol : cell) (out : DataFrame) :
  wf df ->
  get_col "Symbol" df = Some symbols ->
  symbol_frame cfg sqrtQ df symbols symbol = Ok out ->
  exists syms dates,
    get_col "Symbol" out = Some syms
    /\ get_col "Date" out = Some dates
    /\ Forall (fun c => cell_eqb c symbol = true) syms
    /\ ascending dates
    /\ wf out
    /\ nrows out = rows_of symbol symbols.
Proof. apply symbol_frame_sorted. Qed.

Lemma symbol_frame_rows_witness :
  exists out syms,
    symbol_frame small_windows sqrt_approx two_symbols
      [Str "AAA"; Str "AAA"; Str "AAA"; Str "BBB"; Str "AAA"] (Str "AAA") = Ok out
    /\ get_col "Symbol" out = Some syms
    /\ Forall (fun c => cell_eqb c (Str "AAA") = true) syms
    /\ nrows out = 4%nat.
Proof.
  destruct (symbol_frame_rows small_windows sqrt_approx two_symbols
              [Str "AAA"; Str "AAA"; Str "AAA"; Str "BBB"; Str "AAA"] (Str "AAA") _
              ltac:(repeat constructor) eq_refl eq_refl)
    as (syms & dates & Hs & _ & Hall & _ & _ & Hn).
  eexists. exists syms. split; [reflexivity|]. repeat split; assumption.
Defined.

(** ** Rows of the price output *)

Lemma cell_eqb_null (a b : cell) : isnull a = true -> cell_eqb b a = false.
Proof.
  destruct a as [[| |x|]| | |]; try discriminate. intros _.
  destruct b as [[| |y|]| | |]; reflexivity.
Qed.

Lemma cell_eqb_refl (a : cell) : isnull a = false -> cell_eqb a a = true.
Proof.
  destruct a as [[| |x|]|s|p|d]; simpl; try discriminate; intros _; try reflexivity.
  - apply Qeq_bool_iff. reflexivity.
  - apply String.eqb_refl.
  - now destruct p.
  - apply Z.eqb_refl.
Qed.

Lemma cell_eqb_sym (a b : cell) : cell_eqb a b = cell_eqb b a.
Proof.
  destruct a as [[| |x|]|s|p|d], b as [[| |y|]|t|q|e]; simpl; try reflexivity.
  - destruct (Qeq_bool x y) eqn:E1, (Qeq_bool y x) eqn:E2; try reflexivity.
    + apply Qeq_bool_iff in E1. symmetry in E1. apply Qeq_bool_iff in E1. congruence.
    + apply Qeq_bool_iff in E2. symmetry in E2. apply Qeq_bool_iff in E2. congruence.
  - apply String.eqb_sym.
  - now destruct p, q.
  - apply Z.eqb_sym.
Qed.

Lemma cell_eqb_trans (a b c : cell) :
  cell_eqb a b = true -> cell_eqb b c = true -> cell_eqb a c = true.
Proof.
  destruct a as [[| |x|]|s|p|d], b as [[| |y|]|t|q|e], c as [[| |z|]|u|r|g]; simpl;
    try discriminate; try reflexivity.
  - intros H1 H2. apply Qeq_bool_iff in H1, H2. apply Qeq_bool_iff.
    now rewrite H1.
  - intros H1 H2. apply String.eqb_eq in H1, H2. subst. apply String.eqb_refl.
  - destruct p, q, r; simpl; congruence.
  - intros H1 H2. apply Z.eqb_eq in H1, H2. subst. apply Z.eqb_refl.
Qed.

Lemma cell_eqb_present (a b : cell) : cell_eqb a b = true -> isnull b = false.
Proof.
  intros H. destruct (isnull b) eqn:E; [|reflexivity].
  rewrite (cell_eqb_null b a E) in H. discriminate.
Qed.

Lemma same_key_present (a b : cell) :
  isnull a = false -> same_key a b = cell_eqb a b.
Proof. intros H. unfold same_key. now rewrite H. Qed.

(** Among the distinct values, a value that is not missing is matched once
    when the column has it and has not been seen, and never otherwise. *)
Lemma unique_from_matches (c : cell) (col : column) :
  isnull c = false ->
  forall seen,
    List.length (filter (cell_eqb c) (unique_from seen col))
    = if existsb (cell_eqb c) seen then 0%nat
      else if existsb (cell_eqb c) col then 1%nat else 0%nat.
Proof.
  intros Hc. induction col as [|d rest IH]; intros seen; simpl.
  - now destruct (existsb (cell_eqb c) seen).
  - destruct (existsb (same_key d) seen) eqn:Ed.
    + rewrite IH. destruct (existsb (cell_eqb c) seen) eqn:Es; [reflexivity|].
      destruct (cell_eqb c d) eqn:Ecd; [|reflexivity]. exfalso.
      apply existsb_exists in Ed. destruct Ed as (s & Hs & Hds).
      assert (Hd : isnull d = false) by (eapply cell_eqb_present; eauto).
      rewrite same_key_present in Hds by assumption.
      assert (existsb (cell_eqb c) seen = true).
      { apply existsb_exists. exists s. split; [assumption|].
        eapply cell_eqb_trans; eauto. }
      congruence.
    + simpl.
      destruct (cell_eqb c d) eqn:Ecd; simpl; rewrite IH; simpl; rewrite Ecd; simpl.
      * destruct (existsb (cell_eqb c) seen) eqn:Es; [|reflexivity]. exfalso.
        apply existsb_exists in Es. destruct Es as (s & Hs & Hcs).
        assert (Hd : isnull d = false) by (eapply cell_eqb_present; eauto).
        assert (existsb (same_key d) seen = true).
        { apply existsb_exists. exists s. split; [assumption|].
          rewrite same_key_present by assumption.
          eapply cell_eqb_trans; [|exact Hcs]. now rewrite cell_eqb_sym. }
        congruence.
      * reflexivity.
Qed.

Lemma unique_matches (c : cell) (col : column) :
  In c col ->
  List.length (filter (cell_eqb c) (unique col))
  = if isnull c then 0%nat else 1%nat.
Proof.
  intros Hin. destruct (isnull c) eqn:Hc.
  - assert (E : filter (cell_eqb c) (unique col) = []); [|now rewrite E].
    induction (unique col) as [|u us IH]; simpl; [reflexivity|].
    rewrite cell_eqb_sym, (cell_eqb_null c u Hc). exact IH.
  - unfold unique. rewrite (unique_from_matches c col Hc []). simpl.
    assert (E : existsb (cell_eqb c) col = true); [|now rewrite E].
    apply existsb_exists. exists c. split; [assumption | now apply cell_eqb_refl].
Qed.

Lemma list_sum_map_add {A : Type} (f g : A -> nat) (l : list A) :
  list_sum (map (fun a => (f a + g a)%nat) l)
  = (list_sum (map f l) + list_sum (map g l))%nat.
Proof. induction l as [|a l IH]; simpl; [reflexivity | rewrite IH; lia]. Qed.

Lemma list_sum_indicator {A : Type} (f : A -> bool) (l : list A) :
  list_sum (map (fun a => if f a then 1%nat else 0%nat) l) = List.length (filter f l).
Proof.
  induction l as [|a l IH]; simpl; [reflexivity|]. destruct (f a); simpl; now rewrite IH.
Qed.

Lemma rows_of_exchange (symbols us : column) :
  list_sum (map (fun u => rows_of u symbols) us)
  = list_sum (map (fun c => List.length (filter (cell_eqb c) us)) symbols).
Proof.
  unfold rows_of. induction symbols as [|c rest IH]; simpl.
  - induction us as [|u us IHu]; simpl; auto.
  - rewrite <- IH, <- list_sum_indicator, <- list_sum_map_add.
    f_equal. apply map_ext. intros u. destruct (cell_eqb c u); reflexivity.
Qed.

(** Every row with a symbol belongs to exactly one of the distinct symbols. *)
Lemma rows_of_unique (symbols : column) :
  list_sum (map (fun u => rows_of u symbols) (unique symbols))
  = rows_with_symbol symbols.
Proof.
  rewrite rows_of_exchange. unfold rows_with_symbol.
  rewrite <- list_sum_indicator. f_equal.
  apply map_ext_in. intros c Hc. rewrite (unique_matches c symbols Hc).
  now destruct (isnull c).
Qed.

Lemma length_col_or_missing (name : string) (f : DataFrame) :
  wf f -> List.length (col_or_missing name f) = nrows f.
Proof.
  intros Hwf. unfold col_or_missing.
  destruct (get_col name f) as [c|] eqn:E; [now apply (wf_get f name) | apply repeat_length].
Qed.

Lemma length_flat_map_cols (name : string) (fs : list DataFrame) :
  Forall wf fs ->
  List.length (flat_map (col_or_missing name) fs) = list_sum (map nrows fs).
Proof.
  induction 1 as [|f fs Hf _ IH]; simpl; [reflexivity|].
  now rewrite length_app, length_col_or_missing, IH.
Qed.

Lemma nrows_concat (fs : list DataFrame) :
  Forall wf fs -> (exists f, In f fs /\ f <> []) ->
  nrows (concat fs) = list_sum (map nrows fs).
Proof.
  intros Hwf (f & Hin & Hne). unfold concat.
  destruct (union_names [] (flat_map (map fst) fs)) as [|n names] eqn:E.
  - exfalso. destruct f as [|[n c] rest]; [contradiction|].
    assert (Hn : In n (union_names [] (flat_map (map fst) fs))).
    { apply in_union_names. split; [|tauto].
      apply in_flat_map. exists ((n, c) :: rest). split; [assumption | now left]. }
    rewrite E in Hn. contradiction.
  - simpl. now apply length_flat_map_cols.
Qed.

Lemma symbol_frames_rows (cfg : Config) (sqrtQ : Q -> Q) (df : DataFrame)
      (symbols : column) (todo : list cell) (fs : list DataFrame) :
  wf df -> get_col "Symbol" df = Some symbols ->
  symbol_frames cfg sqrtQ df symbols todo = Ok fs ->
  Forall wf fs
  /\ Forall (fun f => f <> []) fs
  /\ map nrows fs = map (fun u => rows_of u symbols) todo.
Proof.
  intros Hwf Hsym. revert fs. induction todo as [|u rest IH]; simpl; intros fs H.
  - inversion H. repeat split; constructor.
  - destruct (symbol_frame cfg sqrtQ df symbols u) as [f|] eqn:Ef; simpl in H;
      [|discriminate].
    destruct (symbol_frames cfg sqrtQ df symbols rest) as [fs'|]; simpl in H;
      [|discriminate].
    inversion H; subst fs; clear H.
    destruct (IH fs' eq_refl) as (Hw & Hne & Hrows).
    destruct (symbol_frame_parts cfg sqrtQ df symbols u f Hwf Hsym Ef)
      as (Hs & Hwff & Hn).
    repeat split.
    + now constructor.
    + constructor; [|assumption]. intros ->. discriminate Hs.
    + simpl. now rewrite Hn, Hrows.
Qed.

Lemma wf_concat (fs : list DataFrame) : Forall wf fs -> wf (concat fs).
Proof.
  intros Hwf. unfold wf, concat.
  destruct (union_names [] (flat_map (map fst) fs)) as [|n names]; [constructor|].
  simpl. rewrite (length_flat_map_cols n fs Hwf).
  constructor; [simpl; now apply length_flat_map_cols|].
  apply Forall_map, Forall_forall. intros m _. simpl. now apply length_flat_map_cols.
Qed.

Lemma given_wf (data : option DataFrame) :
  wf_input data -> Forall (fun d => wf d /\ nrows d <> 0%nat) (given data).
Proof.
  destruct data as [df|]; simpl; [|constructor]. intros Hwf.
  destruct (df_empty df) eqn:E; constructor; [|constructor]. split; [assumption|].
  destruct df as [|p rest]; [discriminate|]. unfold df_empty in E.
  now apply Nat.eqb_neq.
Qed.

Lemma combined_wf (csv_data json_data api_data : option DataFrame) :
  wf_input csv_data -> wf_input json_data -> wf_input api_data ->
  wf (combined csv_data json_data api_data)
  /\ (combined csv_data json_data api_data <> [] ->
      nrows (combined csv_data json_data api_data) <> 0%nat).
Proof.
  intros Hc Hj Ha. unfold combined.
  assert (Hall : Forall (fun d => wf d /\ nrows d <> 0%nat)
                   (given csv_data ++ given json_data ++ given api_data)%list).
  { repeat (apply Forall_app; split); now apply given_wf. }
  generalize dependent (given csv_data ++ given json_data ++ given api_data)%list.
  intros fs Hall.
  assert (Hwf : Forall wf fs) by (eapply Forall_impl; [|exact Hall]; now intros d []).
  split; [now apply wf_concat|]. intros Hne.
  destruct fs as [|f fs]; [now contradiction Hne|].
  assert (Hf : f <> []).
  { inversion Hall as [|? ? [_ Hn] _]; subst. intros ->. now apply Hn. }
  rewrite nrows_concat; [|assumption | exists f; split; [now left | assumption]].
  inversion Hall as [|? ? [_ Hn] _]; subst. simpl. lia.
Qed.

(** X13.  The price output has as many rows as the combined input has rows
    with a symbol: a row whose Symbol is missing belongs to no group and is
    not in the output. *)
Theorem calculate_keeps_rows_with_symbol (cfg : Config) (sqrtQ : Q -> Q)
        (csv_data json_data api_data : option DataFrame) (symbols : column)
        (out : DataFrame) :
  wf_input csv_data -> wf_input json_data -> wf_input api_data ->
  is_price_shaped (combined csv_data json_data api_data) = true ->
  get_col "Symbol" (combined csv_data json_data api_data) = Some symbols ->
  calculate cfg sqrtQ csv_data json_data api_data = Ok out ->
  nrows out = rows_with_symbol symbols.
Proof.
  intros Hc Hj Ha Hs Hsym Hout.
  destruct (combined_wf csv_data json_data api_data Hc Hj Ha) as [Hwf _].
  unfold calculate in Hout. unfold combined in *.
  destruct (given csv_data ++ given json_data ++ given api_data)%list
    as [|d ds] eqn:Ed; [discriminate Hs|].
  rewrite Hs in Hout. unfold calculate_prices in Hout. rewrite Hsym in Hout.
  destruct (symbol_frames cfg sqrtQ (concat (d :: ds)) symbols (unique symbols))
    as [fs|] eqn:Efs; simpl in Hout; [|discriminate].
  destruct fs as [|f fs]; [discriminate|]. injection Hout as <-.
  destruct (symbol_frames_rows cfg sqrtQ _ _ _ _ Hwf Hsym Efs) as (Hw & Hne & Hrows).
  rewrite nrows_concat; [|assumption|].
  - rewrite Hrows. apply rows_of_unique.
  - exists f. split; [now left | now inversion Hne].
Qed.

Lemma calculate_keeps_rows_with_symbol_witness :
  exists out,
    calculate small_windows sqrt_approx (Some missing_symbol) None None = Ok out
    /\ nrows missing_symbol = 4%nat
    /\ nrows out = 3%nat.
Proof.
  eexists. split; [reflexivity|]. split; [reflexivity|].
  apply (calculate_keeps_rows_with_symbol small_windows sqrt_approx
           (Some missing_symbol) None None
           [Str "AAA"; Str "AAA"; Num NaN; Str "BBB"]);
    try exact I; try reflexivity.
  repeat constructor.
Defined.

Lemma unique_head (c : cell) (rest : column) :
  exists us, unique (c :: rest) = c :: us.
Proof. unfold unique. simpl. eauto. Qed.

(** X14.  Both metric branches sort by date first: a combined table that is
    price-shaped or indicator-shaped and has no Date column makes [calculate]
    raise [KeyError('Date')], whatever else it holds. *)
Theorem calculate_needs_date (cfg : Config) (sqrtQ : Q -> Q)
        (csv_data json_data api_data : option DataFrame) :
  wf_input csv_data -> wf_input json_data -> wf_input api_data ->
  is_price_shaped (combined csv_data json_data api_data)
  || is_indicator_shaped (combined csv_data json_data api_data) = true ->
  has_col "Date" (combined csv_data json_data api_data) = false ->
  calculate cfg sqrtQ csv_data json_data api_data = Err (KeyError "Date").
Proof.
  intros Hc Hj Ha Hshape Hdate.
  destruct (combined_wf csv_data json_data api_data Hc Hj Ha) as [Hwf Hrows].
  unfold calculate. unfold combined in *.
  destruct (given csv_data ++ given json_data ++ given api_data)%list
    as [|d ds] eqn:Ed; [discriminate Hshape|].
  set (df := concat (d :: ds)) in *.
  assert (Hnone : get_col "Date" df = None).
  { rewrite has_col_get in Hdate. now destruct (get_col "Date" df). }
  destruct (is_price_shaped df) eqn:Hp.
  - unfold calculate_prices.
    assert (Hsym : has_col "Symbol" df = true).
    { unfold is_price_shaped in Hp. now apply andb_prop in Hp. }
    destruct (has_col_true _ _ Hsym) as [symbols Hget]. rewrite Hget.
    assert (Hne : df <> []) by (intros E; rewrite E in Hget; discriminate Hget).
    assert (Hlen := wf_get df "Symbol" symbols Hwf Hget).
    destruct symbols as [|c rest]; [exfalso; apply (Hrows Hne); now rewrite <- Hlen|].
    destruct (unique_head c rest) as [us ->]. simpl.
    unfold symbol_frame, sort_values.
    now rewrite get_col_select_rows, Hnone.
  - simpl in Hshape. rewrite Hshape.
    unfold calculate_indicators, sort_values. now rewrite Hnone.
Qed.

Lemma calculate_needs_date_witness :
  calculate default_config sqrt_approx (Some no_dates) None None
  = Err (KeyError "Date").
Proof.
  apply calculate_needs_date; try exact I; try reflexivity.
  repeat constructor.
Defined.

(** * The task scheduler *)

Section SchedulerFacts.

Variables Args Value : Type.

Implicit Types (st : State Args Value) (t task : Task Args Value) (args : Args).
Implicit Types (ts : list (string * Task Args Value)).

Lemma find_put_same (key : string) task ts :
  find_task key (put_task key task ts) = Some task.
Proof.
  induction ts as [|[k t] rest IH]; simpl; [now rewrite String.eqb_refl|].
  destruct (String.eqb k key) eqn:E; simpl; rewrite E; auto.
Qed.

Lemma find_put_other (key key' : string) task ts :
  key' <> key -> find_task key' (put_task key task ts) = find_task key' ts.
Proof.
  intros Hne. induction ts as [|[k t] rest IH]; simpl.
  - destruct (String.eqb_spec key key'); [congruence | reflexivity].
  - destruct (String.eqb_spec k key) as [->|Hk]; simpl.
    + destruct (String.eqb_spec key key'); [congruence | reflexivity].
    + destruct (String.eqb k key'); auto.
Qed.

Lemma same_task_refl t : same_task t t.
Proof. unfold same_task. auto. Qed.

Lemma same_task_trans t1 t2 t3 :
  same_task t1 t2 -> same_task t2 t3 -> same_task t1 t3.
Proof.
  intros (N1 & F1 & D1 & C1) (N2 & F2 & D2 & C2). unfold same_task.
  repeat split; try congruence. auto.
Qed.

Lemma later_refl st : later st st.
Proof.
  split.
  - intros key. destruct (find_task key (tasks st)); [apply same_task_refl | exact I].
  - exists []. now rewrite app_nil_r.
Qed.

Lemma later_trans st1 st2 st3 : later st1 st2 -> later st2 st3 -> later st1 st3.
Proof.
  intros [K1 [n1 L1]] [K2 [n2 L2]]. split.
  - intros key. specialize (K1 key). specialize (K2 key).
    destruct (find_task key (tasks st1)), (find_task key (tasks st2)),
      (find_task key (tasks st3)); try tauto.
    eapply same_task_trans; eauto.
  - exists (n1 ++ n2)%list. now rewrite L2, L1, app_assoc.
Qed.

Lemma later_find st st' (key : string) t :
  later st st' -> find_task key (tasks st) = Some t ->
  exists t', find_task key (tasks st') = Some t' /\ same_task t t'.
Proof.
  intros [K _] H. specialize (K key). rewrite H in K.
  destruct (find_task key (tasks st')) as [t'|]; [eauto | contradiction].
Qed.

Lemma later_find_back st st' (key : string) t' :
  later st st' -> find_task key (tasks st') = Some t' ->
  exists t, find_task key (tasks st) = Some t /\ same_task t t'.
Proof.
  intros [K _] H. specialize (K key). rewrite H in K.
  destruct (find_task key (tasks st)) as [t|]; [eauto | contradiction].
Qed.

Lemma done_later st st' (key : string) : later st st' -> done key st -> done key st'.
Proof.
  intros L (t & Hf & Hc). destruct (later_find _ _ _ _ L Hf) as (t' & Hf' & S).
  exists t'. split; [assumption|]. now apply S.
Qed.

Lemma pending_earlier st st' (name : string) :
  later st st' -> pending name st' -> pending name st.
Proof.
  intros L (key & t' & Hf & Hn & Hc).
  destruct (later_find_back _ _ _ _ L Hf) as (t & Hft & (N & _ & _ & C)).
  exists key, t. split; [assumption|]. split; [congruence|].
  destruct (completed t); [|reflexivity]. rewrite C in Hc by reflexivity. discriminate.
Qed.

Lemma execute_later (key : string) task t' args st :
  find_task key (tasks st) = Some t' -> same_task task t' ->
  later st (fst (execute key task args st)).
Proof.
  intros Hf (Hn & Hfn & Hd & Hc). unfold execute.
  destruct (func task args) as [v|e]; simpl.
  - split; simpl.
    + intros k. destruct (String.eqb_spec k key) as [->|Hne].
      * rewrite Hf, find_put_same. unfold same_task, finish. simpl.
        repeat split; congruence.
      * rewrite find_put_other by assumption.
        destruct (find_task k (tasks st)); [apply same_task_refl | exact I].
    + eexists. rewrite <- app_assoc. reflexivity.
  - split; simpl.
    + intros k. destruct (find_task k (tasks st)); [apply same_task_refl | exact I].
    + eexists. rewrite <- app_assoc. reflexivity.
Qed.

Lemma run_dependencies_later
      (rec : string -> Args -> State Args Value -> option (State Args Value * result Value))
      (deps : list string) args :
  (forall d a s s' r, rec d a s = Some (s', r) -> later s s') ->
  forall st st' r,
    run_dependencies rec deps args st = Some (st', r) -> later st st'.
Proof.
  intros Hrec. induction deps as [|d rest IH]; simpl; intros st st' r H.
  - injection H as <- <-. apply later_refl.
  - destruct (find_task d (tasks st)) as [dt|]; [|injection H as <- <-; apply later_refl].
    destruct (completed dt); [now apply IH in H|].
    destruct (rec d args st) as [[s1 [v|e]]|] eqn:Er; [| |discriminate].
    + eapply later_trans; [eapply Hrec; eauto | eapply IH; eauto].
    + injection H as <- <-. eapply Hrec; eauto.
Qed.

Lemma run_later (fuel : nat) :
  forall (entry : string) args st st' r,
    run fuel entry args st = Some (st', r) -> later st st'.
Proof.
  induction fuel as [|fuel IH]; simpl; intros entry args st st' r H; [discriminate|].
  destruct (find_task entry (tasks st)) as [task|] eqn:Ef;
    [|injection H as <- <-; apply later_refl].
  destruct (run_dependencies (run fuel) (dependencies task) args st)
    as [[s1 [u|e]]|] eqn:Ed; [| |discriminate].
  - assert (L := run_dependencies_later _ _ _ IH _ _ _ Ed).
    destruct (later_find _ _ _ _ L Ef) as (t' & Hf' & S).
    injection H as H. eapply later_trans; [exact L|].
    replace st' with (fst (execute entry task args s1)) by now rewrite H.
    eapply execute_later; eauto.
  - injection H as <- <-. eapply run_dependencies_later; eauto.
Qed.

Lemma log_split st s1 st' (new : list event) :
  later st s1 -> later s1 st' -> log st' = (log st ++ new)%list ->
  exists new1 new2,
    log s1 = (log st ++ new1)%list /\ log st' = (log s1 ++ new2)%list
    /\ new = (new1 ++ new2)%list.
Proof.
  intros [_ [n1 L1]] [_ [n2 L2]] H. exists n1, n2.
  split; [assumption|]. split; [assumption|].
  rewrite L2, L1, <- app_assoc in H. now apply app_inv_head in H.
Qed.

Lemma log_same st (new : list event) : log st = (log st ++ new)%list -> new = [].
Proof.
  intros H. rewrite <- (app_nil_r (log st)) in H at 1. now apply app_inv_head in H.
Qed.

Lemma log_execute (key : string) task args st st' r (new : list event) :
  execute key task args st = (st', r) -> log st' = (log st ++ new)%list ->
  (exists v, func task args = Ok v /\ r = Ok v
             /\ tasks st' = put_task key (finish v task) (tasks st)
             /\ new = [Executing (task_name task); Completed (task_name task)])
  \/ (exists e, func task args = Err e /\ r = Err e /\ tasks st' = tasks st
                /\ new = [Executing (task_name task); Failed (task_name task)]).
Proof.
  unfold execute. destruct (func task args) as [v|e]; intros H Hlog;
    injection H as <- <-; simpl in Hlog; rewrite <- app_assoc in Hlog;
    apply app_inv_head in Hlog; subst new; [left | right]; eauto 6.
Qed.

(** ** A run that succeeds *)

Lemma ranked_later (rank : string -> nat) st st' :
  later st st' -> ranked rank st -> ranked rank st'.
Proof.
  intros L R key t' Hf.
  destruct (later_find_back _ _ _ _ L Hf) as (t & Hft & (_ & _ & D & _)).
  rewrite D. eapply Forall_impl; [|exact (R key t Hft)].
  intros d [Hr Hd]. split; [assumption|].
  destruct (find_task d (tasks st)) as [dt|] eqn:E; [|congruence].
  destruct (later_find _ _ _ _ L E) as (dt' & -> & _). discriminate.
Qed.

Lemma all_succeed_later args st st' :
  later st st' -> all_succeed args st -> all_succeed args st'.
Proof.
  intros L A key t' Hf.
  destruct (later_find_back _ _ _ _ L Hf) as (t & Hft & (_ & F & _ & _)).
  rewrite F. eauto.
Qed.

Lemma run_dependencies_succeed (rank : string -> nat) (fuel : nat) args :
  (forall (entry : string) st task,
      ranked rank st -> all_succeed args st ->
      find_task entry (tasks st) = Some task -> (rank entry < fuel)%nat ->
      exists st' v, run fuel entry args st = Some (st', Ok v) /\ done entry st') ->
  forall (deps : list string) st,
    ranked rank st -> all_succeed args st ->
    Forall (fun d => (rank d < fuel)%nat /\ find_task d (tasks st) <> None) deps ->
    exists st',
      run_dependencies (run fuel) deps args st = Some (st', Ok tt)
      /\ Forall (fun d => done d st') deps.
Proof.
  intros Hrun. induction deps as [|d rest IH]; intros st R A Hdeps; simpl.
  - eauto.
  - inversion Hdeps as [|? ? [Hr Hd] Hrest]; subst.
    destruct (find_task d (tasks st)) as [dt|] eqn:Ef; [|congruence].
    destruct (completed dt) eqn:Ec.
    + destruct (IH st R A Hrest) as (st' & Hrun' & Hdone).
      exists st'. split; [assumption|]. constructor; [|assumption].
      eapply done_later; [eapply run_dependencies_later; [apply run_later | eauto]|].
      exists dt. auto.
    + destruct (Hrun d st dt R A Ef Hr) as (s1 & v & Hs1 & Hdone1).
      rewrite Hs1. assert (L := run_later _ _ _ _ _ _ Hs1).
      destruct (IH s1 (ranked_later _ _ _ L R) (all_succeed_later _ _ _ L A))
        as (st' & Hrun' & Hdone).
      * eapply Forall_impl; [|exact Hrest]. intros d' [Hr' Hd']. split; [assumption|].
        destruct (find_task d' (tasks st)) as [dt'|] eqn:E; [|congruence].
        destruct (later_find _ _ _ _ L E) as (x & -> & _). discriminate.
      * exists st'. split; [assumption|]. constructor; [|assumption].
        eapply done_later; [|exact Hdone1].
        eapply run_dependencies_later; [apply run_later | eauto].
Qed.

Lemma ranked_run_ends (rank : string -> nat) args (fuel : nat) :
  forall (entry : string) st task,
    ranked rank st -> all_succeed args st ->
    find_task entry (tasks st) = Some task -> (rank entry < fuel)%nat ->
    exists st' v,
      run fuel entry args st = Some (st', Ok v)
      /\ func task args = Ok v
      /\ find_task entry (tasks st') = Some (finish v task)
      /\ Forall (fun d => done d st') (dependencies task)
      /\ log st' <> log st.
Proof.
  induction fuel as [|fuel IH]; intros entry st task R A Hf Hr; [lia|].
  simpl. rewrite Hf.
  destruct (run_dependencies_succeed rank fuel args) with (deps := dependencies task)
                                                          (st := st)
    as (s1 & Hdeps & Hdone); auto.
  - intros e s t R' A' Hf' Hr'.
    destruct (IH e s t R' A' Hf' Hr') as (s' & v & H1 & _ & H3 & _).
    exists s', v. split; [assumption|]. exists (finish v t). auto.
  - eapply Forall_impl; [|exact (R entry task Hf)]. intros d [Hd Hn].
    split; [lia | assumption].
  - rewrite Hdeps.
    assert (L := run_dependencies_later _ _ _ (run_later fuel) _ _ _ Hdeps).
    destruct (later_find _ _ _ _ L Hf) as (t' & Hf' & S).
    destruct (A entry task Hf) as [v Hv].
    assert (L2 := execute_later entry task t' args s1 Hf' S).
    unfold execute in *. rewrite Hv in *. simpl in *.
    exists (mkState (put_task entry (finish v task) (tasks s1))
                    ((log s1 ++ [Executing (task_name task)])
                       ++ [Completed (task_name task)])%list), v.
    split; [reflexivity|]. split; [reflexivity|].
    split; [apply find_put_same|]. split.
    + eapply Forall_impl; [|exact Hdone]. intros d Hd. eapply done_later; eauto.
    + simpl. destruct L as [_ [n1 ->]]. rewrite <- !app_assoc. intros E.
      symmetry in E. apply log_same in E. destruct n1; discriminate E.
Qed.

(** X15.  When the dependencies of every task exist and the tasks can be
    ordered so that dependencies come first, and no task raises on the
    arguments, [run] ends within as many nested calls as the entry point's
    place in the order: it returns what the entry point's function returns,
    stores that as the task's result, marks the task completed, and leaves
    every dependency of the entry point completed. *)
Theorem run_succeeds (rank : string -> nat) args (fuel : nat) (entry : string)
        st task :
  ranked rank st -> all_succeed args st ->
  find_task entry (tasks st) = Some task -> (rank entry < fuel)%nat ->
  exists st' v,
    run fuel entry args st = Some (st', Ok v)
    /\ func task args = Ok v
    /\ find_task entry (tasks st') = Some (finish v task)
    /\ Forall (fun d => done d st') (dependencies task)
    /\ later st st'.
Proof.
  intros R A Hf Hr.
  destruct (ranked_run_ends rank args fuel entry st task R A Hf Hr)
    as (st' & v & H1 & H2 & H3 & H4 & _).
  exists st', v. repeat split; try assumption; eapply run_later; eauto.
Qed.

(** ** What a run executes *)

Lemma run_dependencies_pending
      (rec : string -> Args -> State Args Value -> option (State Args Value * result Value))
      (deps : list string) args :
  (forall d a s s' r,
      rec d a s = Some (s', r) ->
      later s s'
      /\ forall new, log s' = (log s ++ new)%list ->
           forall n, In (Executing n) new ->
             pending n s
             \/ exists t, find_task d (tasks s) = Some t /\ task_name t = n) ->
  forall st st' r,
    run_dependencies rec deps args st = Some (st', r) ->
    forall new, log st' = (log st ++ new)%list ->
      forall n, In (Executing n) new -> pending n st.
Proof.
  intros Hrec.
  assert (Hl : forall st st' r,
             run_dependencies rec deps args st = Some (st', r) -> later st st').
  { apply run_dependencies_later. intros d a s s' r H. now apply Hrec in H. }
  induction deps as [|d rest IH]; simpl; intros st st' r H new Hlog n Hin.
  - injection H as <- <-. apply log_same in Hlog. subst new. contradiction.
  - destruct (find_task d (tasks st)) as [dt|] eqn:Ef.
    2:{ injection H as <- <-. apply log_same in Hlog. subst new. contradiction. }
    destruct (completed dt) eqn:Ec.
    { apply (IH (fun st st' r H => run_dependencies_later rec rest args
                   (fun d a s s' r H => proj1 (Hrec d a s s' r H)) st st' r H)
                st st' r H new Hlog n Hin). }
    destruct (rec d args st) as [[s1 [v|e]]|] eqn:Er; [| |discriminate].
    + destruct (Hrec _ _ _ _ _ Er) as [L1 P1].
      assert (L2 : later s1 st').
      { eapply run_dependencies_later; [|exact H].
        intros d' a s s' r' H'. now apply Hrec in H'. }
      destruct (log_split _ _ _ _ L1 L2 Hlog) as (n1 & n2 & E1 & E2 & ->).
      apply in_app_or in Hin. destruct Hin as [Hin|Hin].
      * destruct (P1 n1 E1 n Hin) as [Hp|(t & Ht & Hn)]; [assumption|].
        exists d, dt. rewrite Ef in Ht. injection Ht as <-. auto.
      * eapply pending_earlier; [exact L1|].
        apply (IH (fun st st' r H => run_dependencies_later rec rest args
                     (fun d a s s' r H => proj1 (Hrec d a s s' r H)) st st' r H)
                  s1 st' r H n2 E2 n Hin).
    + injection H as <- <-. destruct (Hrec _ _ _ _ _ Er) as [L1 P1].
      destruct (P1 new Hlog n Hin) as [Hp|(t & Ht & Hn)]; [assumption|].
      exists d, dt. rewrite Ef in Ht. injection Ht as <-. auto.
Qed.

(** X16.  A task that is already completed is never executed again as a
    dependency: every task that a call of [run] executes is the entry point
    itself or a task that was not completed when the call began.  The call
    leaves the names, functions and dependency lists of all tasks as they
    were and never resets a completed task. *)
Theorem run_executes_only_pending (fuel : nat) :
  forall (entry : string) args st st' r,
    run fuel entry args st = Some (st', r) ->
    later st st'
    /\ forall new, log st' = (log st ++ new)%list ->
         forall n, In (Executing n) new ->
           pending n st
           \/ exists t, find_task entry (tasks st) = Some t /\ task_name t = n.
Proof.
  induction fuel as [|fuel IH]; intros entry args st st' r H; [discriminate|].
  split; [eapply run_later; eauto|]. simpl in H.
  intros new Hlog n Hin.
  destruct (find_task entry (tasks st)) as [task|] eqn:Ef.
  2:{ injection H as <- <-. apply log_same in Hlog. subst new. contradiction. }
  destruct (run_dependencies (run fuel) (dependencies task) args st)
    as [[s1 [u|e]]|] eqn:Ed; [| |discriminate].
  - injection H as H.
    assert (L1 := run_dependencies_later _ _ _ (run_later fuel) _ _ _ Ed).
    destruct (later_find _ _ _ _ L1 Ef) as (t' & Hf' & S).
    assert (L2 := execute_later entry task t' args s1 Hf' S).
    rewrite H in L2. simpl in L2.
    destruct (log_split _ _ _ _ L1 L2 Hlog) as (n1 & n2 & E1 & E2 & ->).
    apply in_app_or in Hin. destruct Hin as [Hin|Hin].
    + left. eapply run_dependencies_pending; eauto.
    + right. exists task. split; [reflexivity|].
      destruct (log_execute _ _ _ _ _ _ _ H E2)
        as [(v & _ & _ & _ & ->)|(e & _ & _ & _ & ->)];
        simpl in Hin; destruct Hin as [Hin|[Hin|[]]]; congruence.
  - injection H as <- <-. left. eapply run_dependencies_pending; eauto.
Qed.

(** ** Completed tasks have completed dependencies *)

Lemma settled_tasks st st' : tasks st' = tasks st -> settled st -> settled st'.
Proof.
  intros E S key t Hf Hc. rewrite E in Hf.
  eapply Forall_impl; [|exact (S key t Hf Hc)].
  intros d (dt & Hd & Hdc). exists dt. now rewrite E.
Qed.

Lemma run_dependencies_settled
      (rec : string -> Args -> State Args Value -> option (State Args Value * result Value))
      (deps : list string) args :
  (forall d a s s' r,
      rec d a s = Some (s', r) ->
      later s s' /\ (settled s -> settled s') /\ (forall v, r = Ok v -> done d s')) ->
  forall st st' r,
    run_dependencies rec deps args st = Some (st', r) ->
    settled st ->
    settled st' /\ (r = Ok tt -> Forall (fun d => done d st') deps).
Proof.
  intros Hrec.
  assert (Hl : forall rest st st' r,
             run_dependencies rec rest args st = Some (st', r) -> later st st').
  { intros rest. apply run_dependencies_later. intros d a s s' r H. now apply Hrec in H. }
  induction deps as [|d rest IH]; simpl; intros st st' r H S.
  - injection H as <- <-. split; [assumption | constructor].
  - destruct (find_task d (tasks st)) as [dt|] eqn:Ef.
    2:{ injection H as <- <-. split; [assumption | discriminate]. }
    destruct (completed dt) eqn:Ec.
    { destruct (IH _ _ _ H S) as [S' D']. split; [assumption|].
      intros E. constructor; [|auto].
      eapply done_later; [eapply Hl; eauto|]. exists dt. auto. }
    destruct (rec d args st) as [[s1 [v|e]]|] eqn:Er; [| |discriminate].
    + destruct (Hrec _ _ _ _ _ Er) as (L1 & S1 & D1).
      destruct (IH _ _ _ H (S1 S)) as [S' D']. split; [assumption|].
      intros E. constructor; [|auto].
      eapply done_later; [eapply Hl; eauto | eapply D1; eauto].
    + injection H as <- <-. destruct (Hrec _ _ _ _ _ Er) as (L1 & S1 & D1).
      split; [auto | discriminate].
Qed.

Lemma run_settled (fuel : nat) :
  forall (entry : string) args st st' r,
    run fuel entry args st = Some (st', r) ->
    later st st' /\ (settled st -> settled st') /\ (forall v, r = Ok v -> done entry st').
Proof.
  induction fuel as [|fuel IH]; intros entry args st st' r H; [discriminate|].
  split; [eapply run_later; eauto|]. simpl in H.
  destruct (find_task entry (tasks st)) as [task|] eqn:Ef.
  2:{ injection H as <- <-. split; [auto | discriminate]. }
  destruct (run_dependencies (run fuel) (dependencies task) args st)
    as [[s1 [u|e]]|] eqn:Ed; [| |discriminate].
  - injection H as H.
    assert (L1 := run_dependencies_later _ _ _ (run_later fuel) _ _ _ Ed).
    destruct (later_find _ _ _ _ L1 Ef) as (t' & Hf' & Hsame).
    assert (L2 := execute_later entry task t' args s1 Hf' Hsame).
    rewrite H in L2. simpl in L2.
    destruct L2 as [_ [new Hlog]].
    assert (L2 := execute_later entry task t' args s1 Hf' Hsame).
    rewrite H in L2. simpl in L2.
    destruct (log_execute _ _ _ _ _ _ _ H Hlog)
      as [(v & Hv & -> & Ht & _)|(e & He & -> & Ht & _)].
    + split.
      * intros S. destruct (run_dependencies_settled _ _ _ IH _ _ _ Ed S) as [S1 D1].
        destruct u. specialize (D1 eq_refl).
        intros key t Hf Hc. rewrite Ht in Hf.
        destruct (String.eqb_spec key entry) as [->|Hne].
        -- rewrite find_put_same in Hf. injection Hf as <-. simpl.
           eapply Forall_impl; [|exact D1]. intros d Hd. eapply done_later; eauto.
        -- rewrite find_put_other in Hf by assumption.
           eapply Forall_impl; [|exact (S1 key t Hf Hc)].
           intros d Hd. eapply done_later; eauto.
      * intros _ _. exists (finish v task). rewrite Ht, find_put_same. auto.
    + split; [|discriminate]. intros S.
      destruct (run_dependencies_settled _ _ _ IH _ _ _ Ed S) as [S1 _].
      eapply settled_tasks; eauto.
  - injection H as <- <-. split; [|discriminate]. intros S.
    now destruct (run_dependencies_settled _ _ _ IH _ _ _ Ed S).
Qed.

(** X17.  The scheduler keeps its tasks settled: if every completed task has
    all its dependencies completed before a call of [run], the same holds
    after it, whether the call returns or raises; and when it returns, the
    entry point is completed. *)
Theorem run_keeps_settled (fuel : nat) (entry : string) args st st' r :
  settled st ->
  run fuel entry args st = Some (st', r) ->
  settled st' /\ (forall v, r = Ok v -> done entry st').
Proof.
  intros S H. destruct (run_settled fuel entry args st st' r H) as (_ & S' & D).
  auto.
Qed.

(** ** Failures *)

Lemma run_dependencies_failure
      (rec : string -> Args -> State Args Value -> option (State Args Value * result Value))
      (deps : list string) args :
  (forall d a s s' r,
      rec d a s = Some (s', r) ->
      later s s'
      /\ forall new, log s' = (log s ++ new)%list ->
           forall n, In (Failed n) new ->
             (exists l, new = l ++ [Executing n; Failed n])%list
             /\ exists e, r = Err e) ->
  forall st st' r,
    run_dependencies rec deps args st = Some (st', r) ->
    forall new, log st' = (log st ++ new)%list ->
      forall n, In (Failed n) new ->
        (exists l, new = l ++ [Executing n; Failed n])%list /\ exists e, r = Err e.
Proof.
  intros Hrec.
  assert (Hl : forall rest st st' r,
             run_dependencies rec rest args st = Some (st', r) -> later st st').
  { intros rest. apply run_dependencies_later. intros d a s s' r H. now apply Hrec in H. }
  induction deps as [|d rest IH]; simpl; intros st st' r H new Hlog n Hin.
  - injection H as <- <-. apply log_same in Hlog. subst new. contradiction.
  - destruct (find_task d (tasks st)) as [dt|] eqn:Ef.
    2:{ injection H as <- <-. apply log_same in Hlog. subst new. contradiction. }
    destruct (completed dt) eqn:Ec; [eapply IH; eauto|].
    destruct (rec d args st) as [[s1 [v|e]]|] eqn:Er; [| |discriminate].
    + destruct (Hrec _ _ _ _ _ Er) as [L1 P1].
      destruct (log_split _ _ _ _ L1 (Hl _ _ _ _ H) Hlog) as (n1 & n2 & E1 & E2 & ->).
      apply in_app_or in Hin. destruct Hin as [Hin|Hin].
      * destruct (P1 n1 E1 n Hin) as [_ [e He]]. discriminate He.
      * destruct (IH _ _ _ H n2 E2 n Hin) as [[l ->] He].
        split; [|assumption]. exists (n1 ++ l)%list. now rewrite app_assoc.
    + injection H as <- <-. destruct (Hrec _ _ _ _ _ Er) as [L1 P1].
      destruct (P1 new Hlog n Hin) as [Hlast _]. split; [exact Hlast | eauto].
Qed.

(** X18.  A failing task stops the run at once: the failure is the last
    thing logged and the call raises.  A call that returns has therefore
    logged no failure; it ends with the execution of the entry point, whose
    result it returns and stores. *)
Theorem run_stops_at_failure (fuel : nat) :
  forall (entry : string) args st st' r,
    run fuel entry args st = Some (st', r) ->
    later st st'
    /\ forall new, log st' = (log st ++ new)%list ->
         (forall n, In (Failed n) new ->
            (exists l, new = l ++ [Executing n; Failed n])%list
            /\ exists e, r = Err e)
         /\ (forall v, r = Ok v ->
              exists task l,
                find_task entry (tasks st) = Some task
                /\ func task args = Ok v
                /\ find_task entry (tasks st') = Some (finish v task)
                /\ new = (l ++ [Executing (task_name task);
                                Completed (task_name task)])%list).
Proof.
  induction fuel as [|fuel IH]; intros entry args st st' r H; [discriminate|].
  split; [eapply run_later; eauto|]. simpl in H.
  assert (IH' : forall d a (s s' : State Args Value) (x : result Value),
             run fuel d a s = Some (s', x) ->
             later s s'
             /\ forall new, log s' = (log s ++ new)%list ->
                  forall n, In (Failed n) new ->
                    (exists l, new = l ++ [Executing n; Failed n])%list
                    /\ exists e, x = Err e).
  { intros d a s s' r' H'. destruct (IH d a s s' r' H') as [L P].
    split; [assumption|]. intros new Hlog. now apply P. }
  intros new Hlog.
  destruct (find_task entry (tasks st)) as [task|] eqn:Ef.
  2:{ injection H as <- <-. apply log_same in Hlog. subst new.
      split; [intros n [] | discriminate]. }
  destruct (run_dependencies (run fuel) (dependencies task) args st)
    as [[s1 [u|e]]|] eqn:Ed; [| |discriminate].
  - injection H as H.
    assert (L1 := run_dependencies_later _ _ _ (run_later fuel) _ _ _ Ed).
    destruct (later_find _ _ _ _ L1 Ef) as (t' & Hf' & Hsame).
    assert (L2 := execute_later entry task t' args s1 Hf' Hsame).
    rewrite H in L2. simpl in L2.
    destruct (log_split _ _ _ _ L1 L2 Hlog) as (n1 & n2 & E1 & E2 & ->).
    assert (Hno : forall n, ~ In (Failed n) n1).
    { intros n Hin.
      destruct (run_dependencies_failure _ _ _ IH' _ _ _ Ed n1 E1 n Hin) as [_ [e He]].
      discriminate He. }
    destruct (log_execute _ _ _ _ _ _ _ H E2)
      as [(v & Hv & -> & Ht & ->)|(e & He & -> & Ht & ->)].
    + split.
      * intros n Hin. apply in_app_or in Hin. destruct Hin as [Hin|Hin].
        -- now apply Hno in Hin.
        -- simpl in Hin. destruct Hin as [Hin|[Hin|[]]]; discriminate Hin.
      * intros v' Hv'. injection Hv' as <-. exists task, n1.
        repeat split; try assumption. rewrite Ht. apply find_put_same.
    + split; [|discriminate].
      intros n Hin. apply in_app_or in Hin. destruct Hin as [Hin|Hin].
      * now apply Hno in Hin.
      * simpl in Hin. destruct Hin as [Hin|[Hin|[]]]; [discriminate Hin|].
        injection Hin as <-. split; eauto.
  - injection H as <- <-. split; [|discriminate].
    intros n Hin.
    destruct (run_dependencies_failure _ _ _ IH' _ _ _ Ed new Hlog n Hin) as [Hlast _].
    split; [exact Hlast | eauto].
Qed.

End SchedulerFacts.

(** ** The tasks of the pipeline *)

Ltac which_task H key :=
  repeat match type of H with
         | context [String.eqb ?a key] =>
             destruct (String.eqb_spec a key); cbv iota in H;
             [subst key; injection H as <- |]
         end.

Lemma setup_tasks_list {Args Value : Type} (c : Components Args Value) :
  tasks (setup_tasks c new_scheduler)
  = [("extract_csv", new_task "extract_csv" (extract_csv Args Value c) []);
     ("extract_json", new_task "extract_json" (extract_json Args Value c) []);
     ("extract_api", new_task "extract_api" (extract_api Args Value c) []);
     ("transform_csv_data",
      new_task "transform_csv_data" (transform_csv_data Args Value c) ["extract_csv"]);
     ("transform_json_data",
      new_task "transform_json_data" (transform_json_data Args Value c) ["extract_json"]);
     ("transform_api_data",
      new_task "transform_api_data" (transform_api_data Args Value c) ["extract_api"]);
     ("calculate_metrics",
      new_task "calculate_metrics" (calculate_metrics Args Value c)
               ["transform_csv_data"; "transform_json_data"; "transform_api_data"]);
     ("validate_data",
      new_task "validate_data" (validate_data Args Value c) ["calculate_metrics"]);
     ("load_to_db", new_task "load_to_db" (load_to_db Args Value c) ["validate_data"]);
     ("export_to_csv",
      new_task "export_to_csv" (export_to_csv Args Value c) ["validate_data"])].
Proof. reflexivity. Qed.

Lemma setup_ranked {Args Value : Type} (c : Components Args Value) :
  ranked pipeline_rank (setup_tasks c new_scheduler).
Proof.
  intros key t H. rewrite setup_tasks_list in H. cbn [find_task] in H.
  which_task H key; try discriminate H; cbn [dependencies new_task];
    repeat (apply Forall_cons || apply Forall_nil);
    (split; [vm_compute; lia | vm_compute; discriminate]).
Qed.

Lemma counting_succeeds (args : nat) :
  all_succeed args (setup_tasks counting new_scheduler).
Proof.
  intros key t H. rewrite setup_tasks_list in H. cbn [find_task] in H.
  which_task H key; try discriminate H; cbn; eauto.
Qed.

Lemma run_succeeds_witness :
  exists st',
    run 4 "validate_data" 0%nat (setup_tasks counting new_scheduler)
    = Some (st', Ok 1%nat)
    /\ Forall (fun d => done d st') ["calculate_metrics"].
Proof.
  destruct (run_succeeds nat nat pipeline_rank 0%nat 4 "validate_data"
              (setup_tasks counting new_scheduler)
              (new_task "validate_data" (validate_data nat nat counting)
                        ["calculate_metrics"])
              (setup_ranked counting) (counting_succeeds 0%nat) eq_refl
              ltac:(vm_compute; lia))
    as (st' & v & Hrun & Hv & _ & Hdeps & _).
  injection Hv as <-. exists st'. split; assumption.
Defined.

Lemma run_executes_only_pending_witness :
  exists st' r,
    run 4 "validate_data" 0%nat (setup_tasks counting new_scheduler) = Some (st', r)
    /\ later (setup_tasks counting new_scheduler) st'.
Proof.
  do 2 eexists. split; [reflexivity|].
  apply (run_executes_only_pending nat nat 4 "validate_data" 0%nat
           (setup_tasks counting new_scheduler) _ _ eq_refl).
Defined.

Lemma nothing_completed_settled {Args Value : Type} (st : State Args Value) :
  Forall (fun p => completed (snd p) = false) (tasks st) -> settled st.
Proof.
  intros Hall key t Hf Hc. exfalso.
  induction (tasks st) as [|[k x] rest IH]; simpl in Hf; [discriminate|].
  inversion Hall as [|? ? Hx Hrest]; subst. simpl in Hx.
  destruct (String.eqb k key); [|auto]. injection Hf as <-. congruence.
Qed.

Lemma run_keeps_settled_witness :
  exists st' r,
    run 4 "validate_data" 0%nat (setup_tasks json_fails new_scheduler) = Some (st', r)
    /\ settled st'.
Proof.
  do 2 eexists. split; [reflexivity|].
  apply (run_keeps_settled nat nat 4 "validate_data" 0%nat
           (setup_tasks json_fails new_scheduler) _ _
           ltac:(apply nothing_completed_settled; repeat constructor) eq_refl).
Defined.

Lemma run_stops_at_failure_witness :
  exists st',
    run 4 "validate_data" 0%nat (setup_tasks json_fails new_scheduler)
    = Some (st', Err (KeyError "json"))
    /\ exists l, log st' = (l ++ [Executing "extract_json"; Failed "extract_json"])%list.
Proof.
  eexists. split; [reflexivity|].
  destruct (run_stops_at_failure nat nat 4 "validate_data" 0%nat
              (setup_tasks json_fails new_scheduler) _ _ eq_refl) as [_ P].
  destruct (P _ eq_refl) as [Hfail _].
  apply (Hfail "extract_json"). simpl. tauto.
Defined.

(** X19.  The task for the metrics depends on all three transformations, so
    after the two calls for the CSV source alone the call for the metrics
    runs the JSON and the API extractors and transformations as well, each
    with the arguments meant for the metrics, before the metrics themselves;
    and if the JSON extractor raises there, the metrics are not calculated
    and the call raises what the extractor raised. *)
Theorem metrics_run_all_sources {Args Value : Type} (c : Components Args Value)
        (a1 a2 a3 : Args) (v1 v2 : Value) (fuel : nat) :
  extract_csv Args Value c a1 = Ok v1 ->
  transform_csv_data Args Value c a2 = Ok v2 ->
  exists st1 st2,
    run (1 + fuel) "extract_csv" a1 (setup_tasks c new_scheduler) = Some (st1, Ok v1)
    /\ run (2 + fuel) "transform_csv_data" a2 st1 = Some (st2, Ok v2)
    /\ log st2 = [Executing "extract_csv"; Completed "extract_csv";
                  Executing "transform_csv_data"; Completed "transform_csv_data"]
    /\ (forall v3 v4 v5 v6 v7,
           extract_json Args Value c a3 = Ok v3 ->
           transform_json_data Args Value c a3 = Ok v4 ->
           extract_api Args Value c a3 = Ok v5 ->
           transform_api_data Args Value c a3 = Ok v6 ->
           calculate_metrics Args Value c a3 = Ok v7 ->
           exists st3,
             run (3 + fuel) "calculate_metrics" a3 st2 = Some (st3, Ok v7)
             /\ log st3
                = (log st2
                     ++ [Executing "extract_json"; Completed "extract_json";
                         Executing "transform_json_data";
                         Completed "transform_json_data";
                         Executing "extract_api"; Completed "extract_api";
                         Executing "transform_api_data";
                         Completed "transform_api_data";
                         Executing "calculate_metrics";
                         Completed "calculate_metrics"])%list)
    /\ (forall e,
           extract_json Args Value c a3 = Err e ->
           exists st3,
             run (3 + fuel) "calculate_metrics" a3 st2 = Some (st3, Err e)
             /\ log st3
                = (log st2 ++ [Executing "extract_json"; Failed "extract_json"])%list).
Proof.
  intros H1 H2. do 2 eexists.
  split; [cbn; unfold execute; cbn; rewrite H1; reflexivity|].
  split; [cbn; unfold execute; cbn; rewrite H2; reflexivity|].
  split; [reflexivity|]. split.
  - intros v3 v4 v5 v6 v7 H3 H4 H5 H6 H7. eexists.
    split.
    + cbn. unfold execute. cbn. rewrite H3. cbn. unfold execute. cbn. rewrite H4.
      cbn. unfold execute. cbn. rewrite H5. cbn. unfold execute. cbn. rewrite H6.
      cbn. unfold execute. cbn. rewrite H7. reflexivity.
    + reflexivity.
  - intros e He. eexists.
    split; [cbn; unfold execute; cbn; rewrite He; reflexivity|]. reflexivity.
Qed.

Lemma metrics_run_all_sources_witness :
  exists st1 st2 st3,
    run 1 "extract_csv" 0%nat (setup_tasks json_fails new_scheduler)
    = Some (st1, Ok 1%nat)
    /\ run 2 "transform_csv_data" 1%nat st1 = Some (st2, Ok 2%nat)
    /\ run 3 "calculate_metrics" 7%nat st2 = Some (st3, Err (KeyError "json")).
Proof.
  destruct (metrics_run_all_sources json_fails 0%nat 1%nat 7%nat 1%nat 2%nat 0%nat
              eq_refl eq_refl)
    as (st1 & st2 & R1 & R2 & _ & _ & Hfail).
  destruct (Hfail (KeyError "json") eq_refl) as (st3 & R3 & _).
  exists st1, st2, st3. repeat split; assumption.
Defined.
